(** * DevShare core: bundle codec, crypto service, peer discovery, transfer service

    A shallow embedding of the TypeScript sources of the daemon
    (file-bundler.ts, bundle-extractor.ts, crypto-service.ts,
    peer-discovery.ts, transfer-service.ts) together with the properties
    that the specification states about them.

    Conventions.
    - A JavaScript string is a [string]; its characters stand for the bytes
      of its UTF-8 encoding, so [Buffer.from(s, 'utf-8')] and
      [buf.toString('utf-8')] are the two directions of
      [list_byte_of_string] / [string_of_list_byte]. Where the sources
      compare strings ([files.sort()]) the UTF-16 code units are computed
      from the bytes; the regular expressions of [shouldExclude] are matched
      against the bytes, which are the code units of a path of ASCII
      characters.
    - A JavaScript number that holds a size, a count or a time stamp is a [Z];
      the clock ([Date.now()], [new Date()]) and the random sources are
      arguments.
    - A [Map] is a [gmap]; a thrown exception or a rejected promise is the
      [Err] case of [result].
    - A readable stream is the list of the chunks of its [data] events that
      are still to come. A chunk is heard by the listener that is attached
      when it comes; what [readBytes] puts back with [unshift] once it has
      removed its listener is not heard by anyone.
    - A handler runs from its first statement to its last without another
      handler in between, except where the life of a transfer is followed
      through a [cancelTransfer] that comes while [requestBundle] is
      suspended at an [await].
    - Functions of the Node.js runtime that the sources call but do not
      define (JSON, zlib, path) are fields of the class [NodeRuntime];
      SHA-256 is written out so that statements can be evaluated. *)

From Stdlib Require Import ZArith List String Ascii Bool Lia.
From Stdlib Require Import Strings.Byte.
From stdpp Require Import base option list gmap strings pretty sorting.

Import ListNotations.
Set Warnings "-register-all,-clear-no-such-hyp".
Local Open Scope string_scope.
Local Open Scope list_scope.
Local Open Scope Z_scope.

(** ** Results of fallible code *)

Inductive error : Type :=
| UnexpectedEndOfStream   (* new Error('Unexpected end of stream') *)
| RangeError              (* Buffer.writeUInt32BE / writeBigUInt64BE out of range *)
| SyntaxError             (* JSON.parse, new RegExp *)
| ZlibError               (* 'error' event of the gunzip stream *)
| ENOENT                  (* stat / createReadStream on a missing path *)
| ENOTDIR                 (* readdir on something that is not a directory;
                             mkdir below a regular file *)
| EEXIST                  (* mkdir at the path of a regular file *)
| EISDIR                  (* writeFile on a directory *)
| DirectoryNotEmpty       (* Error('Extract directory is not empty: ...') *)
| UnsupportedPattern      (* a regular expression outside the modelled fragment *)
| Unsettled.              (* no error: the promise is never settled *)

Inductive result (A : Type) : Type :=
| Ok (a : A)
| Err (e : error).
Arguments Ok {A} a.
Arguments Err {A} e.

#[global] Instance result_ret : MRet result := fun _ a => Ok a.
#[global] Instance result_bind : MBind result := fun _ _ k r =>
  match r with
  | Ok a => k a
  | Err e => Err e
  end.

(** ** SHA-256

    [createHash('sha256').update(s).digest('hex')] of Node's crypto module,
    written out after FIPS 180-4 on 32-bit words held in [Z]. *)
Module Sha256.

Definition w32 (x : Z) : Z := Z.land x 0xFFFFFFFF.
Definition add32 (x y : Z) : Z := w32 (x + y).
Definition rotr (n x : Z) : Z := Z.lor (Z.shiftr x n) (w32 (Z.shiftl x (32 - n))).
Definition shr (n x : Z) : Z := Z.shiftr x n.
Definition not32 (x : Z) : Z := Z.lxor x 0xFFFFFFFF.

Definition Ch (x y z : Z) : Z := Z.lxor (Z.land x y) (Z.land (not32 x) z).
Definition Maj (x y z : Z) : Z :=
  Z.lxor (Z.lxor (Z.land x y) (Z.land x z)) (Z.land y z).
Definition Sigma0 (x : Z) : Z := Z.lxor (Z.lxor (rotr 2 x) (rotr 13 x)) (rotr 22 x).
Definition Sigma1 (x : Z) : Z := Z.lxor (Z.lxor (rotr 6 x) (rotr 11 x)) (rotr 25 x).
Definition sigma0 (x : Z) : Z := Z.lxor (Z.lxor (rotr 7 x) (rotr 18 x)) (shr 3 x).
Definition sigma1 (x : Z) : Z := Z.lxor (Z.lxor (rotr 17 x) (rotr 19 x)) (shr 10 x).

(** The constants are defined as in the standard: the first 32 bits of the
    fractional parts of the cube roots of the first 64 primes, and of the
    square roots of the first 8. *)
Definition is_prime (n : Z) : bool :=
  forallb (fun d => (n <? d * d) || negb (n mod d =? 0))
    (map Z.of_nat (seq 2 (Z.to_nat n - 2))).

Definition primes : list Z :=
  Eval vm_compute in filter (fun n => is_prime n = true) (map Z.of_nat (seq 2 310)).

(** The integer cube root, bit by bit from bit [k - 1] down. *)
Fixpoint cube_root (k : nat) (acc x : Z) : Z :=
match k with
| O => acc
| S k' =>
  let candidate := acc + 2 ^ Z.of_nat k' in
  if candidate * candidate * candidate <=? x then cube_root k' candidate x
  else cube_root k' acc x
end.

Definition K : list Z :=
  Eval vm_compute in map (fun p => w32 (cube_root 40 0 (p * 2 ^ 96))) primes.

Definition H0 : list Z :=
  Eval vm_compute in map (fun p => w32 (Z.sqrt (p * 2 ^ 64))) (firstn 8 primes).

(** Big-endian bytes of the low [k] bytes of [n], and back. *)
Fixpoint be_bytes (k : nat) (n : Z) : list Z :=
match k with
| O => []
| S k' => be_bytes k' (Z.shiftr n 8) ++ [Z.land n 0xFF]
end.

Definition be_value (bs : list Z) : Z :=
  fold_left (fun acc b => Z.lor (Z.shiftl acc 8) b) bs 0.

Definition pad (msg : list Z) : list Z :=
  let len := Z.of_nat (length msg) in
  let zeros := Z.to_nat ((55 - len) mod 64) in
  msg ++ [0x80] ++ repeat 0 zeros ++ be_bytes 8 (8 * len).

Fixpoint chunks (fuel : nat) (k : nat) (l : list Z) : list (list Z) :=
match fuel with
| O => []
| S fuel' =>
  match l with
  | [] => []
  | _ => firstn k l :: chunks fuel' k (skipn k l)
  end
end.

(** The message schedule: [W] is kept newest first, so that [W_{t-2}],
    [W_{t-7}], [W_{t-15}] and [W_{t-16}] sit at fixed offsets. *)
Fixpoint schedule (n : nat) (rev_w : list Z) : list Z :=
match n with
| O => rev_w
| S n' =>
  let w := add32 (add32 (sigma1 (nth 1 rev_w 0)) (nth 6 rev_w 0))
                 (add32 (sigma0 (nth 14 rev_w 0)) (nth 15 rev_w 0)) in
  schedule n' (w :: rev_w)
end.

Definition round (st : list Z) (kw : Z * Z) : list Z :=
match st with
| [a; b; c; d; e; f; g; h] =>
  let t1 := add32 (add32 (add32 h (Sigma1 e)) (add32 (Ch e f g) (fst kw))) (snd kw) in
  let t2 := add32 (Sigma0 a) (Maj a b c) in
  [add32 t1 t2; a; b; c; add32 d t1; e; f; g]
| _ => st
end.

Definition compress (h : list Z) (block : list Z) : list Z :=
  let w16 := map be_value (chunks 16 4 block) in
  let w := rev (schedule 48 (rev w16)) in
  let st := fold_left round (combine K w) h in
  map (fun p => add32 (fst p) (snd p)) (combine h st).

Definition digest (msg : list Z) : list Z :=
  let p := pad msg in
  fold_left compress (chunks (length p) 64 p) H0.

Definition hex_digit (n : Z) : ascii :=
  if n <? 10 then ascii_of_nat (Z.to_nat (48 + n)) else ascii_of_nat (Z.to_nat (87 + n)).

Fixpoint hex_of_word (k : nat) (w : Z) (acc : string) : string :=
match k with
| O => acc
| S k' => hex_of_word k' (Z.shiftr w 4) (String (hex_digit (Z.land w 0xF)) acc)
end.

Definition bytes_of_string (s : string) : list Z :=
  map (fun c => Z.of_nat (nat_of_ascii c)) (list_ascii_of_string s).

Definition hex (words : list Z) : string :=
  fold_right (fun w acc => hex_of_word 8 w acc) "" words.

(** [update(s)] with a string hashes its UTF-8 bytes. *)
Definition sha256_hex (s : string) : string := hex (digest (bytes_of_string s)).

(** [update(buffer)]. *)
Definition sha256_hex_bytes (b : list byte) : string :=
  hex (digest (map (fun x => Z.of_N (Byte.to_N x)) b)).

End Sha256.


(** ** Small pieces of the JavaScript runtime *)

(** The double-quote character, for template strings that contain it. *)
Definition dq : string := String (ascii_of_nat 34) EmptyString.

(** [`${n}`] for an integral number. *)
Definition Number_toString (n : Z) : string := pretty n.

(** [JSON.stringify] of a string without characters that need escaping. *)
Definition JSON_string (s : string) : string := dq +:+ s +:+ dq.

(** [JSON.stringify] of an object literal whose fields are already rendered. *)
Fixpoint JSON_fields (fs : list (string * string)) : string :=
match fs with
| [] => ""
| [(k, v)] => JSON_string k +:+ ":" +:+ v
| (k, v) :: rest => JSON_string k +:+ ":" +:+ v +:+ "," +:+ JSON_fields rest
end.

Definition JSON_object (fs : list (string * string)) : string :=
  "{" +:+ JSON_fields fs +:+ "}".

(** ** Crypto service (crypto-service.ts) *)
Module CryptoService.

Record KeyPair : Type := {
  publicKey : string;
  privateKey : string
}.

Record BundleSignature : Type := {
  bundleHash : string;
  signature : string;
  signerKey : string;      (* field [publicKey] of the envelope *)
  timestamp : Z;
  version : string
}.

(** The native addon [@devshare/native] is not part of the TypeScript
    sources. [require] either throws ([None] for the whole backend) or
    yields functions each of which may throw ([None] as a result). *)
Record Native : Type := {
  native_signData : string -> string -> option string;
  native_verifySignature : string -> string -> string -> option bool
}.

(** [generateKeyPairFallback]; [random] is [randomBytes(32).toString('hex')]. *)
Definition generateKeyPairFallback (random : string) : KeyPair :=
  let privateKey := random in
  let publicKey := Sha256.sha256_hex privateKey in
  {| privateKey := privateKey; publicKey := publicKey |}.

Definition signDataFallback (data privateKey : string) : string :=
  Sha256.sha256_hex (data +:+ privateKey).

Definition verifySignatureFallback (data signature publicKey : string) : bool :=
  let expectedSignature := Sha256.sha256_hex (data +:+ publicKey) in
  String.eqb signature expectedSignature.

(** The inner [try { native... } catch { fallback }] of the signing paths. *)
Definition signData (native : option Native) (data privateKey : string) : string :=
  match native ≫= (fun n => native_signData n data privateKey) with
  | Some s => s
  | None => signDataFallback data privateKey
  end.

(** The inner [try { native... } catch { fallback }] of the verifying paths. *)
Definition checkSignature (native : option Native) (data signature publicKey : string) : bool :=
  match native ≫= (fun n => native_verifySignature n data signature publicKey) with
  | Some b => b
  | None => verifySignatureFallback data signature publicKey
  end.

(** What a [try] block does: it returns a value or throws. *)
Inductive outcome (A : Type) : Type :=
| Returned (a : A)
| Thrown.
Arguments Returned {A} a.
Arguments Thrown {A}.

Definition try_catch {A} (body : outcome A) (handler : A) : outcome A :=
  match body with
  | Returned a => Returned a
  | Thrown => Returned handler
  end.

(** [signBundle]; [now] is [Date.now()]. It throws when the service has no
    key pair yet. *)
Definition signBundle (native : option Native) (keyPair : option KeyPair) (now : Z)
    (bundlePath bundleHash : string) : outcome BundleSignature :=
  match keyPair with
  | None => Thrown
  | Some kp =>
    let signature := signData native bundleHash (privateKey kp) in
    Returned {| bundleHash := bundleHash;
                signature := signature;
                signerKey := publicKey kp;
                timestamp := now;
                version := "1.0.0" |}
  end.

Definition maxAge : Z := 24 * 60 * 60 * 1000.

(** The body of the [try] block of [verifyBundleSignature]. *)
Definition verifyBundleSignature_try (native : option Native) (now : Z)
    (hash : string) (sig : BundleSignature) : outcome bool :=
  if now - timestamp sig >? maxAge then Returned false
  else if negb (String.eqb hash (bundleHash sig)) then Returned false
  else
    let isValid := checkSignature native (bundleHash sig) (signature sig) (signerKey sig) in
    Returned isValid.

Definition verifyBundleSignature (native : option Native) (now : Z)
    (hash : string) (sig : BundleSignature) : outcome bool :=
  try_catch (verifyBundleSignature_try native now hash sig) false.

(** [signMessage] and [verifySignature], used by peer discovery. *)
Definition signMessage (native : option Native) (keyPair : option KeyPair)
    (message : string) : outcome (string * string) :=
  match keyPair with
  | None => Thrown
  | Some kp => Returned (signData native message (privateKey kp), publicKey kp)
  end.

Definition verifySignature (native : option Native)
    (message signature publicKey : string) : bool :=
  checkSignature native message signature publicKey.

End CryptoService.

(** ** Peer discovery (peer-discovery.ts) *)
Module PeerDiscovery.

Record DiscoveredPeer : Type := {
  id : string;
  name : string;
  address : string;
  port : Z;
  publicKey : string;
  lastSeen : Z
}.

Record PeerAnnouncement : Type := {
  pa_id : string;
  pa_name : string;
  pa_port : Z;
  pa_publicKey : string;
  pa_timestamp : Z;
  pa_signature : string
}.

(** What the service hands to its callbacks. *)
Inductive event : Type :=
| PeerDiscovered (peer : DiscoveredPeer)
| PeerLost (peerId : string).

Record state : Type := {
  discoveredPeers : gmap string DiscoveredPeer;
  onPeerDiscovered : bool;     (* is a callback registered *)
  onPeerLost : bool
}.

Definition PEER_TIMEOUT : Z := 90000.

(** [cleanupExpiredPeers], run every 30 seconds; [now] is [Date.now()].
    The callbacks come in the order of the keys, not in the order in which
    the peers were inserted. *)
Definition cleanupExpiredPeers (now : Z) (st : state) : state * list event :=
  let expired (peer : DiscoveredPeer) : bool := now - lastSeen peer >? PEER_TIMEOUT in
  let expiredPeers :=
    fst <$> map_to_list (filter (fun kv => expired (snd kv) = true) (discoveredPeers st)) in
  ({| discoveredPeers := filter (fun kv => expired (snd kv) = false) (discoveredPeers st);
      onPeerDiscovered := onPeerDiscovered st;
      onPeerLost := onPeerLost st |},
   if onPeerLost st then PeerLost <$> expiredPeers else []).

(** The canonical field subset that is signed. *)
Definition messageToVerify (a : PeerAnnouncement) : string :=
  JSON_object
    [ ("type", JSON_string "peer_announcement");
      ("id", JSON_string (pa_id a));
      ("name", JSON_string (pa_name a));
      ("port", Number_toString (pa_port a));
      ("publicKey", JSON_string (pa_publicKey a));
      ("timestamp", Number_toString (pa_timestamp a)) ].

(** [handlePeerAnnouncement]; [now] is [Date.now()]. The result is the new
    state and the callbacks fired. *)
Definition handlePeerAnnouncement (native : option CryptoService.Native) (now : Z)
    (announcement : PeerAnnouncement) (sourceAddress : string) (st : state)
    : state * list event :=
  let isValid :=
    CryptoService.verifySignature native (messageToVerify announcement)
      (pa_signature announcement) (pa_publicKey announcement) in
  if negb isValid then (st, [])
  else
    let messageAge := now - pa_timestamp announcement in
    if messageAge >? 5 * 60 * 1000 then (st, [])
    else
      let existingPeer := discoveredPeers st !! pa_id announcement in
      let peer := {| id := pa_id announcement;
                     name := pa_name announcement;
                     address := sourceAddress;
                     port := pa_port announcement;
                     publicKey := pa_publicKey announcement;
                     lastSeen := now |} in
      let st' := {| discoveredPeers := <[pa_id announcement := peer]> (discoveredPeers st);
                    onPeerDiscovered := onPeerDiscovered st;
                    onPeerLost := onPeerLost st |} in
      match existingPeer with
      | None => (st', if onPeerDiscovered st then [PeerDiscovered peer] else [])
      | Some _ => (st', [])
      end.

(** [handleMessage] for a datagram that parsed as a peer announcement:
    announcements that carry our own id are ignored. *)
Definition handleMessage (native : option CryptoService.Native) (now : Z)
    (ourPublicKey : string) (data : PeerAnnouncement) (rinfo_address : string)
    (st : state) : state * list event :=
  let ourPeerId := substring 0 16 ourPublicKey in
  if String.eqb (pa_id data) ourPeerId then (st, [])
  else handlePeerAnnouncement native now data rinfo_address st.

End PeerDiscovery.

(** ** Transfer service (transfer-service.ts) *)
Module TransferService.

Inductive status : Type :=
| pending
| transferring
| completed
| failed
| cancelled.

#[global] Instance status_eq_dec : EqDecision status.
Proof. solve_decision. Defined.

Record TransferState : Type := mkTransferState {
  transferId : string;
  bundleId : string;
  peerId : string;
  transfer_status : status;
  totalChunks : Z;
  completedChunks : list Z;
  totalBytes : Z;
  transferredBytes : Z;
  startTime : Z;
  tempPath : string;
  error : option string
}.

Definition set_status (s : status) (t : TransferState) : TransferState :=
  mkTransferState (transferId t) (bundleId t) (peerId t) s (totalChunks t)
    (completedChunks t) (totalBytes t) (transferredBytes t) (startTime t)
    (tempPath t) (error t).

Definition set_totalBytes (n : Z) (t : TransferState) : TransferState :=
  mkTransferState (transferId t) (bundleId t) (peerId t) (transfer_status t)
    (totalChunks t) (completedChunks t) n (transferredBytes t) (startTime t)
    (tempPath t) (error t).

Definition set_transferredBytes (n : Z) (t : TransferState) : TransferState :=
  mkTransferState (transferId t) (bundleId t) (peerId t) (transfer_status t)
    (totalChunks t) (completedChunks t) (totalBytes t) n (startTime t)
    (tempPath t) (error t).

Definition set_error (msg : string) (t : TransferState) : TransferState :=
  mkTransferState (transferId t) (bundleId t) (peerId t) (transfer_status t)
    (totalChunks t) (completedChunks t) (totalBytes t) (transferredBytes t)
    (startTime t) (tempPath t) (Some msg).

Record BundleInfo : Type := {
  bi_bundleId : string;
  bundlePath : string;
  size : Z;
  chunks : Z;
  checksum : string;
  bi_signature : string;
  createdAt : Z;
  bi_expiresAt : Z
}.

Record TokenInfo : Type := {
  tk_bundleId : string;
  tk_peerId : string;
  tk_expiresAt : Z
}.

Record TransferConfig : Type := {
  transferTimeout : Z;     (* seconds *)
  chunkSize : Z
}.

Record PeerInfo : Type := {
  peer_id : string;
  peer_address : string;
  peer_port : Z;
  online : bool
}.

Definition defaultConfig : TransferConfig :=
  {| transferTimeout := 300; chunkSize := 4 * 1024 * 1024 |}.

(** The registries of one service instance. A [TransferState] is a mutable
    object shared between the table [activeTransfers] and the download that
    fills it: [objects] holds every such object under its id, and
    [activeTransfers] holds the keys that are in the table. *)
Record state : Type := {
  config : TransferConfig;
  availableBundles : gmap string BundleInfo;
  transferTokens : gmap string TokenInfo;
  discoveredPeers : gmap string PeerInfo;
  objects : gmap string TransferState;
  activeTransfers : gset string;
  disk : gmap string (list byte)
}.

Definition with_tokens (tk : gmap string TokenInfo) (st : state) : state :=
  {| config := config st; availableBundles := availableBundles st;
     transferTokens := tk; discoveredPeers := discoveredPeers st;
     objects := objects st;
     activeTransfers := activeTransfers st; disk := disk st |}.

Definition with_bundles (b : gmap string BundleInfo) (st : state) : state :=
  {| config := config st; availableBundles := b;
     transferTokens := transferTokens st;
     discoveredPeers := discoveredPeers st; objects := objects st;
     activeTransfers := activeTransfers st; disk := disk st |}.

Definition with_transfers (o : gmap string TransferState) (a : gset string)
    (st : state) : state :=
  {| config := config st; availableBundles := availableBundles st;
     transferTokens := transferTokens st;
     discoveredPeers := discoveredPeers st; objects := o;
     activeTransfers := a; disk := disk st |}.

Definition with_disk (d : gmap string (list byte)) (st : state) : state :=
  {| config := config st; availableBundles := availableBundles st;
     transferTokens := transferTokens st;
     discoveredPeers := discoveredPeers st; objects := objects st;
     activeTransfers := activeTransfers st; disk := d |}.

(** *** Hosting side *)

Record response : Type := {
  statusCode : Z;
  headers : list (string * string);
  body : list byte
}.

Definition json_response (code : Z) (text : string) : response :=
  {| statusCode := code;
     headers := [("Content-Type", "application/json")];
     body := list_byte_of_string text |}.

Definition json_error (code : Z) (message : string) : response :=
  json_response code (JSON_object [("error", JSON_string message)]).

(** [handleTransferTokenRequest]; [now] is [Date.now()] and [random] is the
    rendering of [Math.random()]. In the body of the answer the expiry is
    shown as the number of milliseconds, not as an ISO date. *)
Definition handleTransferTokenRequest (now : Z) (random : string)
    (bundleId peerId : string) (st : state) : state * response :=
  match availableBundles st !! bundleId with
  | None => (st, json_error 404 "Bundle not found")
  | Some bundle =>
    let token :=
      Sha256.sha256_hex
        (bundleId +:+ ":" +:+ peerId +:+ ":" +:+ Number_toString now +:+ ":" +:+ random) in
    let expiresAt := now + transferTimeout (config st) * 1000 in
    let st' :=
      with_tokens
        (<[token := {| tk_bundleId := bundleId; tk_peerId := peerId;
                       tk_expiresAt := expiresAt |}]> (transferTokens st)) st in
    (st', json_response 200
            (JSON_object [("token", JSON_string token);
                          ("size", Number_toString (size bundle));
                          ("chunks", Number_toString (chunks bundle));
                          ("expiresAt", Number_toString expiresAt)]))
  end.

(** [createReadStream(path, { start, end })]: the bytes from offset [start]
    to offset [end] inclusive; a missing file yields no bytes. *)
Definition readRange (d : gmap string (list byte)) (path : string)
    (first last : Z) : list byte :=
  take (Z.to_nat (last - first + 1)) (drop (Z.to_nat first) (default [] (d !! path))).

Definition sendBundleChunk (st : state) (bundle : BundleInfo) (chunkIndex : Z) : response :=
  let chunkStart := chunkIndex * chunkSize (config st) in
  let chunkEnd := Z.min (chunkStart + chunkSize (config st) - 1) (size bundle - 1) in
  let chunkSize := chunkEnd - chunkStart + 1 in
  {| statusCode := 200;
     headers := [("Content-Type", "application/octet-stream");
                 ("Content-Length", Number_toString chunkSize);
                 ("Content-Range",
                  "bytes " +:+ Number_toString chunkStart +:+ "-" +:+
                  Number_toString chunkEnd +:+ "/" +:+ Number_toString (size bundle));
                 ("X-Chunk-Index", Number_toString chunkIndex);
                 ("X-Chunk-Checksum", "")];
     body := readRange (disk st) (bundlePath bundle) chunkStart chunkEnd |}.

Definition sendEntireBundle (st : state) (bundle : BundleInfo) : response :=
  {| statusCode := 200;
     headers := [("Content-Type", "application/octet-stream");
                 ("Content-Length", Number_toString (size bundle));
                 ("X-Bundle-Checksum", checksum bundle);
                 ("X-Bundle-Signature", bi_signature bundle)];
     body := default [] (disk st !! bundlePath bundle) |}.

(** [handleBundleDownloadRequest]; [token] and [chunkIndex] are the fourth
    and fifth segments of the request path, [now] is [new Date()]. No
    registry is written. *)
Definition handleBundleDownloadRequest (now : Z) (token : string)
    (chunkIndex : option Z) (st : state) : state * response :=
  match transferTokens st !! token with
  | None => (st, json_error 401 "Invalid or expired token")
  | Some tokenInfo =>
    if tk_expiresAt tokenInfo <? now then (st, json_error 401 "Invalid or expired token")
    else
      match availableBundles st !! tk_bundleId tokenInfo with
      | None => (st, json_error 404 "Bundle not found")
      | Some bundle =>
        match chunkIndex with
        | Some i => (st, sendBundleChunk st bundle i)
        | None => (st, sendEntireBundle st bundle)
        end
      end
  end.

Definition is_terminal (s : status) : bool :=
  match s with
  | completed | failed | cancelled => true
  | _ => false
  end.

(** [cleanupExpired], run every minute. *)
Definition cleanupExpired (now : Z) (st : state) : state :=
  let bundles := filter (fun kv => negb (bi_expiresAt (snd kv) <? now) = true) (availableBundles st) in
  let tokens := filter (fun kv => negb (tk_expiresAt (snd kv) <? now) = true) (transferTokens st) in
  let reaped (id : string) : bool :=
    match objects st !! id with
    | Some transfer =>
      (now - startTime transfer >? transferTimeout (config st) * 1000)
      && is_terminal (transfer_status transfer)
    | None => false
    end in
  let active := filter (fun id => reaped id = false) (activeTransfers st) in
  with_transfers (objects st) active (with_tokens tokens (with_bundles bundles st)).

(** *** Pulling side *)

(** What the network hands to [downloadBundle]: [fetch] rejects, or it
    yields a response with its [ok] flag, status line, [content-length]
    header (already read as a number when present) and body. A body is the
    list of chunks that [reader.read()] delivers, followed either by
    [done] or by a rejection. *)
Record ResponseBody : Type := {
  delivered : list (list byte);
  read_error : option string
}.

Inductive fetched : Type :=
| FetchRejected (message : string)
| Fetched (ok : bool) (statusLine : string) (contentLength : option Z)
          (reader : option ResponseBody).

Record DownloadIO : Type := {
  mkdir_error : option string;
  fetch_result : fetched;
  (** how many of the bytes handed to the write stream are in the temporary
      file when [requestBundle] returns; [None] when the file has not been
      opened by then *)
  flushed : option nat
}.

(** An effect of the puller on one transfer object: an assignment to one
    of its fields (the value the object has afterwards is recorded) or a
    call of [notifyTransferProgress] with the object as it is then. *)
Inductive effect : Type :=
| Assign (t : TransferState)
| Notify (t : TransferState).

(** The byte-count test that decides whether a chunk is reported,
    [downloadedBytes % (1024 * 1024) === 0 || downloadedBytes / totalSize >=
    (transfer.completedChunks.size + 1) * 0.05]. The quotient is a floating
    point value; [ratio_reached down total k] stands for
    [down / total >= k * 0.05]. *)
Definition progress_due (ratio_reached : Z -> Z -> Z -> bool)
    (downloadedBytes totalSize : Z) (transfer : TransferState) : bool :=
  (downloadedBytes mod (1024 * 1024) =? 0)
  || ratio_reached downloadedBytes totalSize
       (Z.of_nat (length (completedChunks transfer)) + 1).

(** The [while (true)] loop over [reader.read()]. It returns the object
    and the effects, oldest first. *)
Fixpoint read_loop (ratio_reached : Z -> Z -> Z -> bool) (values : list (list byte))
    (totalSize downloadedBytes : Z) (transfer : TransferState)
    : TransferState * list effect :=
match values with
| [] => (transfer, [])
| value :: rest =>
  let downloadedBytes := downloadedBytes + Z.of_nat (length value) in
  let transfer := set_transferredBytes downloadedBytes transfer in
  let reported :=
    if progress_due ratio_reached downloadedBytes totalSize transfer
    then [Notify transfer] else [] in
  let '(final, effects) := read_loop ratio_reached rest totalSize downloadedBytes transfer in
  (final, Assign transfer :: reported ++ effects)
end.

(** The [catch] block of [downloadBundle]: the error is recorded and thrown
    again. *)
Definition download_failed (transfer : TransferState) (done : list effect)
    (message : string) : TransferState * list effect * option string :=
  let t1 := set_status failed transfer in
  let t2 := set_error message t1 in
  (t2, done ++ [Assign t1; Assign t2; Notify t2], Some message).

(** [downloadBundle]: the final object, its effects and the error thrown,
    if any. *)
Definition downloadBundle (ratio_reached : Z -> Z -> Z -> bool) (io : DownloadIO)
    (transfer : TransferState) : TransferState * list effect * option string :=
  match mkdir_error io with
  | Some message => download_failed transfer [] message
  | None =>
    let t1 := set_status transferring transfer in
    let e1 := [Assign t1; Notify t1] in
    match fetch_result io with
    | FetchRejected message => download_failed t1 e1 message
    | Fetched ok statusLine contentLength reader =>
      if negb ok then download_failed t1 e1 ("Download failed: " +:+ statusLine)
      else
        let totalSize := default 0 contentLength in
        let t2 := set_totalBytes totalSize t1 in
        let e2 := e1 ++ [Assign t2] in
        match reader with
        | None => download_failed t2 e2 "Failed to get response reader"
        | Some body =>
          let '(t3, loop) := read_loop ratio_reached (delivered body) totalSize 0 t2 in
          match read_error body with
          | Some message => download_failed t3 (e2 ++ loop) message
          | None =>
            let t4 := set_status completed t3 in
            (t4, e2 ++ loop ++ [Assign t4; Notify t4], None)
          end
        end
    end
  end.

(** What [downloadBundle] hands to the write stream of the temporary file:
    nothing when the stream was never made, else the chunks of the body. *)
Definition downloaded (io : DownloadIO) : option (list byte) :=
  match mkdir_error io, fetch_result io with
  | None, Fetched true _ _ reader =>
    Some (match reader with
          | Some body => concat (delivered body)
          | None => []
          end)
  | _, _ => None
  end.

(** The temporary file when [requestBundle] returns. [writeStream.write]
    and [writeStream.end] are not awaited: the file holds the bytes that
    have been flushed by then, and is as it was before when the stream has
    not opened it yet. *)
Definition with_download (io : DownloadIO) (path : string) (st : state) : state :=
  match downloaded io, flushed io with
  | Some bytes, Some n => with_disk (<[path := take n bytes]> (disk st)) st
  | _, _ => st
  end.

Record TokenResponse : Type := {
  token : string;
  tr_size : Z;
  tr_chunks : Z
}.

(** What [requestBundle] meets outside the service: the fresh transfer id,
    the clock, the answer to the token request (or the error it throws) and
    the download. *)
Record RequestIO : Type := {
  freshId : string;
  clock : Z;
  tmpdir : string;
  tokenResponse : string + TokenResponse;
  download : DownloadIO
}.

(** The object that [requestBundle] makes once the token is there. *)
Definition new_transfer (io : RequestIO) (peerId bundleId : string)
    (tokenResponse : TokenResponse) : TransferState :=
  {| transferId := freshId io;
     bundleId := bundleId;
     peerId := peerId;
     transfer_status := pending;
     totalChunks := tr_chunks tokenResponse;
     completedChunks := [];
     totalBytes := tr_size tokenResponse;
     transferredBytes := 0;
     startTime := clock io;
     tempPath := tmpdir io +:+ "/devshare/transfers/" +:+ freshId io +:+ ".bundle";
     error := None |}.

(** [requestBundle]: the new state, every effect on the transfer object in
    order, and the transfer id or the error thrown. The [catch] block looks
    the transfer id up in the table whatever was thrown inside [try]: when
    the token request fails no transfer has been made for the id, and the
    block marks the transfer that an earlier request with the same id may
    have left there. *)
Definition requestBundle (ratio_reached : Z -> Z -> Z -> bool) (io : RequestIO)
    (peerId bundleId : string) (st : state)
    : state * list effect * (string + string) :=
  match discoveredPeers st !! peerId with
  | None => (st, [], inl ("Peer " +:+ peerId +:+ " not available"))
  | Some p =>
    if negb (online p) then (st, [], inl ("Peer " +:+ peerId +:+ " not available"))
    else
      let transferId := freshId io in
      match tokenResponse io with
      | inl message =>
        (* the catch block looks the id up in the table *)
        match (if decide (transferId ∈ activeTransfers st)
               then objects st !! transferId else None) with
        | Some transferState =>
          let t1 := set_status failed transferState in
          let t2 := set_error message t1 in
          (with_transfers (<[transferId := t2]> (objects st)) (activeTransfers st) st,
           [Assign t1; Assign t2; Notify t2], inl message)
        | None => (st, [], inl message)
        end
      | inr tokenResponse =>
        let transferState := new_transfer io peerId bundleId tokenResponse in
        let active := {[ transferId ]} ∪ activeTransfers st in
        match downloadBundle ratio_reached (download io) transferState with
        | (final, effects, None) =>
          (with_download (download io) (tempPath transferState)
             (with_transfers (<[transferId := final]> (objects st)) active st),
           Assign transferState :: effects, inr transferId)
        | (final, effects, Some message) =>
          let t1 := set_status failed final in
          let t2 := set_error message t1 in
          (with_download (download io) (tempPath transferState)
             (with_transfers (<[transferId := t2]> (objects st)) active st),
           Assign transferState :: effects ++ [Assign t1; Assign t2; Notify t2],
           inl message)
        end
      end
  end.

(** [cancelTransfer]: the status is overwritten, the temporary file is
    unlinked, the key leaves the table and the progress callback is told. *)
Definition cancelTransfer (transferId : string) (st : state) : state * list effect :=
  if decide (transferId ∈ activeTransfers st) then
    match objects st !! transferId with
    | None => (st, [])
    | Some transfer =>
      let transfer' := set_status cancelled transfer in
      let st' :=
        with_disk (delete (tempPath transfer) (disk st))
          (with_transfers (<[transferId := transfer']> (objects st))
             (activeTransfers st ∖ {[ transferId ]}) st) in
      (st', [Assign transfer'; Notify transfer'])
    end
  else (st, []).

(** The values a transfer object takes, in order, and what the progress
    callback is shown. *)
Definition assigned (es : list effect) : list TransferState :=
  omap (fun e => match e with Assign t => Some t | Notify _ => None end) es.

Definition notified (es : list effect) : list TransferState :=
  omap (fun e => match e with Notify t => Some t | Assign _ => None end) es.

(** *** Handlers that are suspended

    An [async] handler runs up to its next [await]; there it is suspended,
    and another handler, [cancelTransfer] for one, may run before it goes on.
    The transfer object is shared between them. A handler is written here
    as the list of what it does to one transfer: the assignments to the
    fields of the object, the progress reports, the removal from the table,
    and the places where it is suspended. *)
Inductive step : Type :=
| SetStatus (s : status)                 (* transfer.status = s *)
| SetTotalBytes (n : Z)                  (* transfer.totalBytes = n *)
| SetTransferredBytes (n : Z)            (* transfer.transferredBytes = n *)
| SetError (message : string)            (* transfer.error = message *)
| Report (test : TransferState -> bool)  (* if (test) this.notifyTransferProgress(transfer) *)
| Unlist                                 (* this.activeTransfers.delete(transferId) *)
| Await                                  (* await *)
| IfListed (s : step).                   (* s, when this.activeTransfers.get(transferId) finds the transfer *)

(** The object of one transfer, and whether the table holds it. *)
Record cell : Type := {
  object : TransferState;
  listed : bool
}.

Definition write (f : TransferState -> TransferState) (c : cell) : cell * list effect :=
  ({| object := f (object c); listed := listed c |}, [Assign (f (object c))]).

Fixpoint perform_step (s : step) (c : cell) : cell * list effect :=
match s with
| SetStatus s' => write (set_status s') c
| SetTotalBytes n => write (set_totalBytes n) c
| SetTransferredBytes n => write (set_transferredBytes n) c
| SetError message => write (set_error message) c
| Report test => (c, if test (object c) then [Notify (object c)] else [])
| Unlist => ({| object := object c; listed := false |}, [])
| Await => (c, [])
| IfListed s' => if listed c then perform_step s' c else (c, [])
end.

Fixpoint perform (steps : list step) (c : cell) : cell * list effect :=
match steps with
| [] => (c, [])
| s :: rest =>
  let '(c1, e1) := perform_step s c in
  let '(c2, e2) := perform rest c1 in
  (c2, e1 ++ e2)
end.

Definition always (t : TransferState) : bool := true.

(** The [catch] block of [downloadBundle]. *)
Definition failed_steps (message : string) : list step :=
  [SetStatus failed; SetError message; Report always].

(** The [while (true)] loop: each turn waits for [reader.read()]. *)
Fixpoint read_steps (ratio_reached : Z -> Z -> Z -> bool) (values : list (list byte))
    (totalSize downloadedBytes : Z) : list step :=
match values with
| [] => []
| value :: rest =>
  let downloadedBytes := downloadedBytes + Z.of_nat (length value) in
  Await
  :: SetTransferredBytes downloadedBytes
  :: Report (progress_due ratio_reached downloadedBytes totalSize)
  :: read_steps ratio_reached rest totalSize downloadedBytes
end.

(** [downloadBundle], statement by statement, and the error it throws. *)
Definition download_steps (ratio_reached : Z -> Z -> Z -> bool) (io : DownloadIO)
    : list step * option string :=
  match mkdir_error io with
  | Some message => (Await :: failed_steps message, Some message)
  | None =>
    let s1 := [Await; SetStatus transferring; Report always] in
    match fetch_result io with
    | FetchRejected message => (s1 ++ Await :: failed_steps message, Some message)
    | Fetched ok statusLine contentLength reader =>
      if negb ok then
        (s1 ++ Await :: failed_steps ("Download failed: " +:+ statusLine),
         Some ("Download failed: " +:+ statusLine))
      else
        let totalSize := default 0 contentLength in
        let s2 := s1 ++ [Await; SetTotalBytes totalSize] in
        match reader with
        | None =>
          (s2 ++ failed_steps "Failed to get response reader",
           Some "Failed to get response reader")
        | Some body =>
          let loop := read_steps ratio_reached (delivered body) totalSize 0 in
          match read_error body with
          | Some message => (s2 ++ loop ++ Await :: failed_steps message, Some message)
          | None =>
            (s2 ++ loop ++ [Await; SetStatus completed; Report always], None)
          end
        end
    end
  end.

(** [requestBundle] from the statement that follows the token request:
    [downloadBundle], and the [catch] block when it throws. *)
Definition request_steps (ratio_reached : Z -> Z -> Z -> bool) (io : DownloadIO)
    : list step :=
  match download_steps ratio_reached io with
  | (steps, None) => steps
  | (steps, Some message) =>
    steps ++ Await :: map IfListed (failed_steps message)
  end.

(** [cancelTransfer] for a transfer that it finds in the table: up to the
    [await] on [unlink], and from there on. Without a temporary file there
    is no [await], and the second part follows the first at once. *)
Definition cancel_first : list step := [SetStatus cancelled].
Definition cancel_second : list step := [Unlist; Report always].

(** [steps] up to the place where the handler is suspended for the [n]-th
    time, counted from 0, and [go_on] of the rest from there; when the
    handler is suspended less often, [go_on] comes after its last step. *)
Fixpoint at_await (n : nat) (go_on : list step -> list step) (steps : list step)
    : list step :=
match steps with
| [] => go_on []
| Await :: rest =>
  match n with
  | O => Await :: go_on rest
  | S n' => Await :: at_await n' go_on rest
  end
| s :: rest => s :: at_await n go_on rest
end.

(** A handler during which [cancelTransfer] is called for its transfer:
    the call comes while the handler is suspended for the [n]-th time, and
    the handler is suspended [m] more times before the [unlink] that
    [cancelTransfer] waits for is done ([m] is 0 also when there is no file
    to unlink). *)
Definition cancelled_during (n m : nat) (steps : list step) : list step :=
  at_await n
    (fun rest =>
       cancel_first ++
       match m with
       | O => cancel_second ++ rest
       | S m' => at_await m' (fun rest' => cancel_second ++ rest') rest
       end)
    steps.

End TransferService.

(** ** The Node.js runtime

    The manifest type is declared in the protocol package; JSON, zlib and
    path are Node's. *)

Record Engines : Type := {
  node : option string;
  python : option string
}.

Record ProjectManifest : Type := {
  name : string;
  version : string;
  language : string;
  run : string;
  engines : option Engines;
  ports : option (list Z);
  env : option (list string);
  secrets : option (list string);
  dependencies : option (list (string * string))
}.

Class NodeRuntime : Type := {
  (** [JSON.stringify(manifest)] *)
  JSON_stringify : ProjectManifest -> string;
  (** [JSON.parse(text)] read as a manifest; [None] when it throws *)
  JSON_parse : string -> option ProjectManifest;
  (** all the bytes that come out of [createGzip()] for the bytes written *)
  gzip : list byte -> list byte;
  (** all the bytes that come out of [createGunzip()]; [None] when the
      stream emits an error *)
  gunzip : list byte -> option (list byte);
  (** [path.join(a, b)] *)
  path_join : string -> string -> string;
  (** [Number(n)] for a bigint [n] *)
  Number_of_BigInt : Z -> Z
}.

(** The line feed of template strings and of [lines.join]. *)
Definition nl : string := String (ascii_of_nat 10) EmptyString.

(** ** Buffers *)

Definition byte_of_Z (z : Z) : byte :=
  default x00 (Byte.of_N (Z.to_N (z mod 256))).

Definition Z_of_byte (b : byte) : Z := Z.of_N (Byte.to_N b).

(** The [k] low bytes of [n], most significant first. *)
Fixpoint bytesBE (k : nat) (n : Z) : list byte :=
match k with
| O => []
| S k' => bytesBE k' (n / 256) ++ [byte_of_Z n]
end.

(** [buf.writeUInt32BE(n, 0)] on [Buffer.alloc(4)]; it throws a range error
    outside [0, 2^32). *)
Definition writeUInt32BE (n : Z) : result (list byte) :=
  if (0 <=? n) && (n <? 2 ^ 32) then Ok (bytesBE 4 n) else Err RangeError.

(** [buf.writeBigUInt64BE(BigInt(n), 0)] on [Buffer.alloc(8)]. *)
Definition writeBigUInt64BE (n : Z) : result (list byte) :=
  if (0 <=? n) && (n <? 2 ^ 64) then Ok (bytesBE 8 n) else Err RangeError.

(** [buf.readUInt32BE(0)] and [buf.readBigUInt64BE(0)]. *)
Definition readUIntBE (buf : list byte) : Z :=
  fold_left (fun acc b => acc * 256 + Z_of_byte b) buf 0.

(** ** Bundle encoder (file-bundler.ts) *)
Module FileBundler.

Definition DEFAULT_EXCLUDES : list string :=
  [ "node_modules"; ".git"; ".DS_Store"; "dist"; "build"; "target"; "*.log";
    ".env"; ".env.local"; "coverage"; ".nyc_output"; ".cache"; "tmp"; "temp" ].

(** *** The regular expressions that [shouldExclude] builds

    [pattern.replace(/\*/g, '.*')] leaves a source text in which [*] only
    follows a dot. The fragment modelled has literal characters, [.] and
    [.*]. A source text with another metacharacter (an anchor, a class, a
    group, an alternation) is outside of it: [UnsupportedPattern] marks
    that the model has no answer there, it is not an error of the program,
    and what is proved of patterns is proved of patterns without such a
    character. *)
Inductive atom : Type :=
| Lit (c : ascii)
| AnyChar
| AnyStar.

Definition star : ascii := "*"%char.
Definition dot : ascii := "."%char.

Definition is_meta (c : ascii) : bool :=
  existsb (Ascii.eqb c) (list_ascii_of_string "\^$+?()[]{}|").

(** [pattern.includes('*')] *)
Definition includes_star (pattern : string) : bool :=
  existsb (Ascii.eqb star) (list_ascii_of_string pattern).

(** [pattern.replace(/\*/g, '.*')] *)
Definition replace_star (pattern : string) : list ascii :=
  flat_map (fun c => if Ascii.eqb c star then [dot; star] else [c])
    (list_ascii_of_string pattern).

(** [new RegExp(source)] *)
Fixpoint RegExp (source : list ascii) : result (list atom) :=
match source with
| [] => Ok []
| c :: rest =>
  if Ascii.eqb c dot then
    match rest with
    | c' :: rest' =>
      if Ascii.eqb c' star then re ← RegExp rest'; Ok (AnyStar :: re)
      else re ← RegExp rest; Ok (AnyChar :: re)
    | [] => Ok [AnyChar]
    end
  else if Ascii.eqb c star then Err SyntaxError
  else if is_meta c then Err UnsupportedPattern
  else re ← RegExp rest; Ok (Lit c :: re)
end.

(** A dot matches every character but a line terminator. *)
Definition dot_matches (c : ascii) : bool :=
  negb (Ascii.eqb c (ascii_of_nat 10)) && negb (Ascii.eqb c (ascii_of_nat 13)).

(** Does a prefix of [s] match [re]. *)
Fixpoint match_here (re : list atom) (s : list ascii) : bool :=
match re with
| [] => true
| Lit c :: re' =>
  match s with
  | x :: s' => Ascii.eqb c x && match_here re' s'
  | [] => false
  end
| AnyChar :: re' =>
  match s with
  | x :: s' => dot_matches x && match_here re' s'
  | [] => false
  end
| AnyStar :: re' =>
  (fix skip (s : list ascii) : bool :=
     match_here re' s ||
     match s with
     | x :: s' => dot_matches x && skip s'
     | [] => false
     end) s
end.

(** [regex.test(s)]: the expression has no anchor, so a match may start
    anywhere. *)
Fixpoint RegExp_test (re : list atom) (s : list ascii) : bool :=
  match_here re s ||
  match s with
  | _ :: s' => RegExp_test re s'
  | [] => false
  end.

(** Does [new RegExp] accept what the replacement makes of a pattern. *)
Definition compiles (pattern : string) : bool :=
  match RegExp (replace_star pattern) with
  | Ok _ => true
  | Err _ => false
  end.

(** A pattern that [shouldExclude] can process: without a star, or with a
    star and an expression in the modelled fragment. *)
Definition usable (pattern : string) : Prop :=
  includes_star pattern = true -> compiles pattern = true.

(** [filePath.startsWith(prefix)] *)
Definition startsWith (filePath prefix : string) : bool := String.prefix prefix filePath.

Fixpoint shouldExclude (filePath : string) (excludePatterns : list string) : result bool :=
match excludePatterns with
| [] => Ok false
| pattern :: rest =>
  if includes_star pattern then
    regex ← RegExp (replace_star pattern);
    if RegExp_test regex (list_ascii_of_string filePath) then Ok true
    else shouldExclude filePath rest
  else
    if String.eqb filePath pattern || startsWith filePath (pattern +:+ "/") then Ok true
    else shouldExclude filePath rest
end.

(** *** The project tree

    What [readdir] and [stat] show below the project root: regular files,
    directories, entries that are neither (a socket, a device), and entries
    for which [stat] throws (a symbolic link that leads nowhere). *)
Inductive fsnode : Type :=
| File (content : list byte)
| Directory (entries : list (string * fsnode))
| Other
| Dangling.

(** [relative(projectPath, join(dirPath, entry))] for the directory whose
    own relative path is [dir] (empty for the project root). *)
Definition relativePath (dir entry : string) : string :=
  if String.eqb dir "" then entry else dir +:+ "/" +:+ entry.

(** [scanDirectory]: the relative paths pushed to [files], in the order of
    the pushes. [scanEntry] is the body of the loop from [stat] on. *)
Fixpoint scanEntry (excludePatterns : list string) (rel : string) (n : fsnode)
    : result (list string) :=
match n with
| File _ => Ok [rel]
| Other => Ok []
| Dangling => Err ENOENT
| Directory entries =>
  (fix scanDirectory (entries : list (string * fsnode)) : result (list string) :=
     match entries with
     | [] => Ok []
     | (entry, child) :: rest =>
       let relativePath := relativePath rel entry in
       excluded ← shouldExclude relativePath excludePatterns;
       if (excluded : bool) then scanDirectory rest
       else
         found ← scanEntry excludePatterns relativePath child;
         more ← scanDirectory rest;
         Ok (found ++ more)
     end) entries
end.

(** [stat] succeeds on every entry of the tree. *)
Fixpoint statted (n : fsnode) : Prop :=
match n with
| Dangling => False
| Directory entries =>
  (fix all (entries : list (string * fsnode)) : Prop :=
     match entries with
     | [] => True
     | (_, child) :: rest => statted child /\ all rest
     end) entries
| _ => True
end.

(** The UTF-16 code units of a JavaScript string, from the bytes of its
    UTF-8 encoding: one unit for a character of one, two or three bytes, a
    pair of surrogates for a character of four. The bytes of a string are
    well formed; where they are not, U+FFFD stands for a byte that starts no
    character. *)
Definition continues (b : Z) : bool := (128 <=? b) && (b <? 192).

Fixpoint code_units (bytes : list Z) : list Z :=
match bytes with
| [] => []
| b0 :: rest =>
  if b0 <? 128 then b0 :: code_units rest
  else if (192 <=? b0) && (b0 <? 224) then
    match rest with
    | b1 :: rest1 =>
      if continues b1 then (b0 mod 32 * 64 + b1 mod 64) :: code_units rest1
      else 65533 :: code_units rest
    | [] => [65533]
    end
  else if (224 <=? b0) && (b0 <? 240) then
    match rest with
    | b1 :: b2 :: rest2 =>
      if continues b1 && continues b2
      then (b0 mod 16 * 4096 + b1 mod 64 * 64 + b2 mod 64) :: code_units rest2
      else 65533 :: code_units rest
    | _ => 65533 :: code_units rest
    end
  else if (240 <=? b0) && (b0 <? 248) then
    match rest with
    | b1 :: b2 :: b3 :: rest3 =>
      if continues b1 && continues b2 && continues b3 then
        let point := b0 mod 8 * 262144 + b1 mod 64 * 4096 + b2 mod 64 * 64 + b3 mod 64 in
        (55296 + (point - 65536) / 1024) :: (56320 + (point - 65536) mod 1024)
        :: code_units rest3
      else 65533 :: code_units rest
    | _ => 65533 :: code_units rest
    end
  else 65533 :: code_units rest
end.

Definition utf16 (s : string) : list Z := code_units (Sha256.bytes_of_string s).

(** [a <= b] for two lists of code units, unit by unit. *)
Fixpoint units_leb (a b : list Z) : bool :=
match a, b with
| [], _ => true
| _ :: _, [] => false
| x :: a', y :: b' => (x <? y) || ((x =? y) && units_leb a' b')
end.

(** The order of [Array.prototype.sort] without a comparator: strings are
    compared by their UTF-16 code units. *)
Definition path_le (a b : string) : Prop := units_leb (utf16 a) (utf16 b) = true.

#[global] Instance path_le_dec : RelDecision path_le.
Proof. intros a b. unfold path_le. apply _. Defined.

Definition getProjectFiles (root : fsnode) (excludePatterns : list string)
    : result (list string) :=
  match root with
  | Directory _ =>
    files ← scanEntry excludePatterns "" root;
    Ok (merge_sort path_le files)
  | Dangling => Err ENOENT
  | _ => Err ENOTDIR
  end.

(** Every regular file below a node, with its relative path: what [stat]
    and [createReadStream] find when they are given a path. *)
Fixpoint filesOf (rel : string) (n : fsnode) : list (string * list byte) :=
match n with
| File content => [(rel, content)]
| Other => []
| Dangling => []
| Directory entries =>
  (fix below (entries : list (string * fsnode)) : list (string * list byte) :=
     match entries with
     | [] => []
     | (entry, child) :: rest => filesOf (relativePath rel entry) child ++ below rest
     end) entries
end.

(** [createReadStream(join(projectPath, filePath))], read to its end. *)
Definition readFile (root : fsnode) (filePath : string) : result (list byte) :=
  match find (fun e => String.eqb (fst e) filePath) (filesOf "" root) with
  | Some (_, content) => Ok content
  | None => Err ENOENT
  end.

Record BundleResult : Type := {
  size : Z;
  checksum : string;
  fileCount : Z
}.

(** One turn of the loop of [createArchive]: the bytes written for a file. *)
Definition writeFileRecord (root : fsnode) (filePath : string) : result (list byte) :=
  content ← readFile root filePath;
  let fileStats_size := Z.of_nat (length content) in
  let pathBuffer := list_byte_of_string filePath in
  pathLengthBuffer ← writeUInt32BE (Z.of_nat (length pathBuffer));
  fileSizeBuffer ← writeBigUInt64BE fileStats_size;
  Ok (pathLengthBuffer ++ pathBuffer ++ fileSizeBuffer ++ content).

Fixpoint writeFileRecords (root : fsnode) (files : list string) : result (list byte) :=
match files with
| [] => Ok []
| filePath :: rest =>
  record ← writeFileRecord root filePath;
  more ← writeFileRecords root rest;
  Ok (record ++ more)
end.

(** The bytes written to the gzip stream by [createArchive]. *)
Definition archiveStream `{NodeRuntime} (root : fsnode) (files : list string)
    (manifest : ProjectManifest) : result (list byte) :=
  let manifestJson := JSON_stringify manifest in
  let manifestBuffer := list_byte_of_string manifestJson in
  manifestLengthBuffer ← writeUInt32BE (Z.of_nat (length manifestBuffer));
  fileCountBuffer ← writeUInt32BE (Z.of_nat (length files));
  records ← writeFileRecords root files;
  Ok (manifestLengthBuffer ++ manifestBuffer ++ fileCountBuffer ++ records).

(** What a [Hash] passes on when it stands in a pipeline: the 32 bytes of
    the digest of all it has been given. *)
Definition sha256_digest (data : list byte) : list byte :=
  flat_map (bytesBE 4) (Sha256.digest (map Z_of_byte data)).

(** [createArchive]: the content of the bundle file and the result record.
    The compressed stream goes through [pipeline(gzipStream, hash,
    writeStream)]: the hash takes it in, and what reaches the file is the
    digest. [size] is the size of that file, [checksum] the same digest in
    hexadecimal. Nothing reads the gzip stream before the pipeline starts;
    this is [createArchive] for a project small enough for every write to
    that stream to complete all the same. *)
Definition createArchive `{NodeRuntime} (root : fsnode) (files : list string)
    (manifest : ProjectManifest) : result (list byte * BundleResult) :=
  written ← archiveStream root files manifest;
  let compressed := gzip written in
  let bundle := sha256_digest compressed in
  Ok (bundle, {| size := Z.of_nat (length bundle);
                 checksum := Sha256.sha256_hex_bytes compressed;
                 fileCount := Z.of_nat (length files) |}).

(** [createBundle] *)
Definition createBundle `{NodeRuntime} (root : fsnode) (manifest : ProjectManifest)
    (excludePatterns : list string) : result (list byte * BundleResult) :=
  files ← getProjectFiles root (DEFAULT_EXCLUDES ++ excludePatterns);
  createArchive root files manifest.

End FileBundler.

(** ** Bundle decoder (bundle-extractor.ts) *)
Module BundleExtractor.

(** How the decompressed stream closes for a read that is waiting: with
    the event [end], with the event [error], or with neither, when the
    event came while no read was listening. *)
Inductive closing : Type :=
| Ended
| Errored
| Silent.

(** What the listeners of [readBytes] get to hear of the decompressed
    stream: the chunks of the [data] events that come while one of them is
    attached, in their order, and how the stream closes after them. The
    decompressed stream is made of chunks, each at most as large as the
    buffer of the gunzip stream; a chunk that comes while no read is
    listening is not among those heard. *)
Record delivery : Type := {
  heard : list (list byte);
  closes : closing
}.

(** [stream] are the chunks still to be heard. [files] are the regular
    files below the destination directory, under the path they were written
    to; the directories are those above a file and those above a path in
    [made]. Writes made before an error stay. *)
Record world : Type := {
  stream : list (list byte);
  closed : closing;
  files : gmap string (list byte);
  made : gset string
}.

Definition Ext (A : Type) : Type := world -> world * result A.

#[global] Instance Ext_ret : MRet Ext := fun _ a w => (w, Ok a).
#[global] Instance Ext_bind : MBind Ext := fun _ _ k m w =>
  match m w with
  | (w', Ok a) => k a w'
  | (w', Err e) => (w', Err e)
  end.

Definition throw {A} (e : error) : Ext A := fun w => (w, Err e).

(** The [data] handler of [readBytes], chunk after chunk: the bytes that
    resolve the promise and the chunks that are still to come, once [count]
    bytes are there. *)
Fixpoint onData (count : Z) (buffer : list byte) (chunks : list (list byte))
    : option (list byte * list (list byte)) :=
match chunks with
| [] => None
| chunk :: rest =>
  let buffer := buffer ++ chunk in
  if count <=? Z.of_nat (length buffer)
  then Some (take (Z.to_nat count) buffer, rest)
  else onData count buffer rest
end.

(** What the [end] and [error] handlers reject with. *)
Definition rejection (c : closing) : error :=
  match c with
  | Ended => UnexpectedEndOfStream
  | Errored => ZlibError
  | Silent => Unsettled
  end.

(** [readBytes(stream, count)]. The promise resolves inside the [data]
    handler, once [count] bytes have come in. The handler has removed
    itself by then, and the stream is flowing: what [unshift] puts back is
    emitted on the next tick, before the caller that awaits the promise
    goes on to read again, and no one hears it. So a read takes the first
    [count] bytes of the chunks it hears and the rest of its last chunk is
    lost. When the stream closes first, the [end] or the [error] handler
    rejects. *)
Definition readBytes (count : Z) : Ext (list byte) := fun w =>
  match onData count [] (stream w) with
  | Some (result, rest) =>
    ({| stream := rest; closed := closed w; files := files w; made := made w |},
     Ok result)
  | None =>
    ({| stream := []; closed := closed w; files := files w; made := made w |},
     Err (rejection (closed w)))
  end.

(** [path] lies below the directory [dir]. *)
Definition below (dir path : string) : bool := String.prefix (dir +:+ "/") path.

(** [dirname(path)] of a normalised path. *)
Fixpoint upto_last_slash (chars : list ascii) : option (list ascii) :=
match chars with
| [] => None
| c :: rest =>
  match upto_last_slash rest with
  | Some dir => Some (c :: dir)
  | None => if Ascii.eqb c "/" then Some [] else None
  end
end.

Definition dirname (path : string) : string :=
  match upto_last_slash (list_ascii_of_string path) with
  | Some [] => "/"
  | Some dir => string_of_list_ascii dir
  | None => "."
  end.

(** [mkdir(dirname(path), { recursive: true })]: it makes every directory
    above [path], and fails when a regular file is where one of them has to
    be: with EEXIST when the file is at [dirname(path)] itself, with ENOTDIR
    when it is further up. *)
Definition mkdir_above (path : string) : Ext unit := fun w =>
  if decide (set_Exists (fun k => below k path = true) (dom (files w)))
  then (w, Err (if decide (dirname path ∈ dom (files w)) then EEXIST else ENOTDIR))
  else ({| stream := stream w; closed := closed w; files := files w;
           made := {[ path ]} ∪ made w |}, Ok tt).

(** [writeFile(path, data)]: it fails when [path] is a directory. *)
Definition writeFile (path : string) (data : list byte) : Ext unit := fun w =>
  if decide (set_Exists (fun k => below path k = true) (dom (files w) ∪ made w))
  then (w, Err EISDIR)
  else ({| stream := stream w; closed := closed w;
           files := <[path := data]> (files w); made := made w |}, Ok tt).

(** [lines.join('\n') + '\n'] *)
Definition lines_join (lines : list string) : string :=
  String.concat nl lines +:+ nl.

Definition truthy (s : option string) : bool :=
  match s with
  | Some s => negb (String.eqb s "")
  | None => false
  end.

Definition yaml_list {A} (key : string) (items : option (list A)) (show : A -> string)
    : list string :=
  match items with
  | Some (x :: xs) => (key +:+ ":") :: map (fun i => "  - " +:+ show i) (x :: xs)
  | _ => []
  end.

(** [manifestToYaml] *)
Definition manifestToYaml (manifest : ProjectManifest) : string :=
  let lines :=
    [ "name: " +:+ name manifest;
      "version: " +:+ version manifest;
      "language: " +:+ language manifest;
      "run: " +:+ run manifest ]
    ++ match engines manifest with
       | Some e =>
         ["engines:"]
         ++ (if truthy (node e) then ["  node: " +:+ dq +:+ default "" (node e) +:+ dq] else [])
         ++ (if truthy (python e) then ["  python: " +:+ dq +:+ default "" (python e) +:+ dq] else [])
       | None => []
       end
    ++ yaml_list "ports" (ports manifest) Number_toString
    ++ yaml_list "env" (env manifest) id
    ++ yaml_list "secrets" (secrets manifest) id in
  lines_join lines.

Record ExtractionResult : Type := {
  extractPath : string;
  manifest : ProjectManifest;
  fileCount : Z;
  totalSize : Z
}.

(** The [for] loop of [performExtraction], [n] turns to go. *)
Fixpoint extractFiles `{NodeRuntime} (extractPath : string) (n : nat)
    (fileCount totalSize : Z) : Ext (Z * Z) :=
match n with
| O => mret (fileCount, totalSize)
| S n' =>
  pathLengthBuffer ← readBytes 4;
  let pathLength := readUIntBE pathLengthBuffer in
  pathBuffer ← readBytes pathLength;
  let filePath := string_of_list_byte pathBuffer in
  fileSizeBuffer ← readBytes 8;
  let fileSize := Number_of_BigInt (readUIntBE fileSizeBuffer) in
  let fullFilePath := path_join extractPath filePath in
  _ ← mkdir_above fullFilePath;
  fileContent ← readBytes fileSize;
  _ ← writeFile fullFilePath fileContent;
  extractFiles extractPath n' (fileCount + 1) (totalSize + fileSize)
end.

(** [performExtraction], from the first [readBytes] on. *)
Definition decode `{NodeRuntime} (extractPath : string) : Ext ExtractionResult :=
  manifestLengthBuffer ← readBytes 4;
  let manifestLength := readUIntBE manifestLengthBuffer in
  manifestBuffer ← readBytes manifestLength;
  match JSON_parse (string_of_list_byte manifestBuffer) with
  | None => throw SyntaxError
  | Some manifest =>
    fileCountBuffer ← readBytes 4;
    let expectedFileCount := readUIntBE fileCountBuffer in
    counts ← extractFiles extractPath (Z.to_nat expectedFileCount) 0 0;
    let manifestPath := path_join extractPath "devshare.yml" in
    let manifestYaml := manifestToYaml manifest in
    _ ← writeFile manifestPath (list_byte_of_string manifestYaml);
    mret {| extractPath := extractPath;
            manifest := manifest;
            fileCount := fst counts;
            totalSize := snd counts |}
  end.

(** [performExtraction]: [bundle] is what the reads hear of the
    decompressed content of the file at [bundlePath], [dest] the files below
    [extractPath], which is a directory. The result is the destination
    afterwards and the value returned or the error thrown. *)
Definition performExtraction `{NodeRuntime} (bundle : delivery) (extractPath : string)
    (dest : gmap string (list byte)) : gmap string (list byte) * result ExtractionResult :=
  let '(w, r) :=
    decode extractPath
      {| stream := heard bundle; closed := closes bundle; files := dest;
         made := {[ extractPath +:+ "/" ]} |} in
  (files w, r).

(** The simplest delivery of a bundle file: a file that gunzip refuses at
    its first bytes gives an error and no chunk; a decompressed stream that
    fits into the buffer of the gunzip stream comes as one chunk, and closes
    as [c] says. *)
Definition in_one_chunk `{NodeRuntime} (file : list byte) (c : closing) : delivery :=
  match gunzip file with
  | None => {| heard := []; closes := Errored |}
  | Some [] => {| heard := []; closes := c |}
  | Some decompressed => {| heard := [decompressed]; closes := c |}
  end.

(** [validateExtractPath] *)
Definition validateExtractPath (dest : gmap string (list byte)) : result unit :=
  if decide (dest = ∅) then Ok tt else Err DirectoryNotEmpty.

(** [extractBundle] *)
Definition extractBundle `{NodeRuntime} (bundle : delivery) (extractPath : string)
    (overwrite : bool) (dest : gmap string (list byte))
    : gmap string (list byte) * result ExtractionResult :=
  match (if overwrite then Ok tt else validateExtractPath dest) with
  | Err e => (dest, Err e)
  | Ok _ => performExtraction bundle extractPath dest
  end.

End BundleExtractor.

(** ** The layout of a bundle stream

    [[u32 manifestLen][manifest][u32 fileCount]] and then, per file,
    [[u32 pathLen][path][u64 fileSize][content]]. *)
Module BundleLayout.

(** The bytes of one file record. *)
Definition encodeRecord (rec : string * list byte) : list byte :=
  bytesBE 4 (Z.of_nat (length (list_byte_of_string (fst rec))))
  ++ list_byte_of_string (fst rec)
  ++ bytesBE 8 (Z.of_nat (length (snd rec)))
  ++ snd rec.

Definition encodeRecords (recs : list (string * list byte)) : list byte :=
  flat_map encodeRecord recs.

(** The bytes in front of the records. *)
Definition encodeHeader `{NodeRuntime} (manifest : ProjectManifest) (fileCount : Z)
    : list byte :=
  bytesBE 4 (Z.of_nat (length (list_byte_of_string (JSON_stringify manifest))))
  ++ list_byte_of_string (JSON_stringify manifest)
  ++ bytesBE 4 fileCount.

(** The fields of a record and of the header, in the order in which the
    decoder asks [readBytes] for them. *)
Definition recordFields (rec : string * list byte) : list (list byte) :=
  [ bytesBE 4 (Z.of_nat (length (list_byte_of_string (fst rec))));
    list_byte_of_string (fst rec);
    bytesBE 8 (Z.of_nat (length (snd rec)));
    snd rec ].

Definition headerFields `{NodeRuntime} (manifest : ProjectManifest) (fileCount : Z)
    : list (list byte) :=
  [ bytesBE 4 (Z.of_nat (length (list_byte_of_string (JSON_stringify manifest))));
    list_byte_of_string (JSON_stringify manifest);
    bytesBE 4 fileCount ].

(** Every chunk starts with a field, field by field; what follows the
    field in the chunk is free. *)
Definition carries (chunks fields : list (list byte)) : Prop :=
  Forall2 (fun chunk field => field `prefix_of` chunk) chunks fields.

(** What [readBytes] does to the stream alone: the chunks left and the
    bytes handed over. *)
Definition hear (c : BundleExtractor.closing) (count : Z) (chunks : list (list byte))
    : list (list byte) * result (list byte) :=
  match BundleExtractor.onData count [] chunks with
  | Some (bytes, rest) => (rest, Ok bytes)
  | None => ([], Err (BundleExtractor.rejection c))
  end.

(** The records that a stream declares, read the way the decoder reads
    them: the records that are complete, the chunks left, and the error that
    ended the reading of an incomplete record, if any. *)
Fixpoint declaredRecords `{NodeRuntime} (c : BundleExtractor.closing) (n : nat)
    (s : list (list byte)) : list (string * list byte) * list (list byte) * option error :=
match n with
| O => ([], s, None)
| S n' =>
  match hear c 4 s with
  | (s1, Err e) => ([], s1, Some e)
  | (s1, Ok pathLengthBuffer) =>
    match hear c (readUIntBE pathLengthBuffer) s1 with
    | (s2, Err e) => ([], s2, Some e)
    | (s2, Ok pathBuffer) =>
      match hear c 8 s2 with
      | (s3, Err e) => ([], s3, Some e)
      | (s3, Ok fileSizeBuffer) =>
        match hear c (Number_of_BigInt (readUIntBE fileSizeBuffer)) s3 with
        | (s4, Err e) => ([], s4, Some e)
        | (s4, Ok fileContent) =>
          let '(recs, rest, err) := declaredRecords c n' s4 in
          ((string_of_list_byte pathBuffer, fileContent) :: recs, rest, err)
        end
      end
    end
  end
end.

(** The manifest and the file count that a stream declares, and the chunks
    that follow them. *)
Definition declaredHeader `{NodeRuntime} (c : BundleExtractor.closing)
    (s : list (list byte)) : option (ProjectManifest * Z * list (list byte)) :=
  match hear c 4 s with
  | (s1, Ok manifestLengthBuffer) =>
    match hear c (readUIntBE manifestLengthBuffer) s1 with
    | (s2, Ok manifestBuffer) =>
      match JSON_parse (string_of_list_byte manifestBuffer) with
      | Some manifest =>
        match hear c 4 s2 with
        | (s3, Ok fileCountBuffer) => Some (manifest, readUIntBE fileCountBuffer, s3)
        | _ => None
        end
      | None => None
      end
    | _ => None
    end
  | _ => None
  end.

(** The writes of the decoder for a list of records, first record first. *)
Definition writeAll `{NodeRuntime} (extractPath : string)
    (recs : list (string * list byte)) (dest : gmap string (list byte))
    : gmap string (list byte) :=
  foldl (fun fs rec => <[path_join extractPath (fst rec) := snd rec]> fs) dest recs.

(** The largest integer up to which [Number] is exact on every integer. *)
Definition MAX_SAFE : Z := 2 ^ 53.

(** The path and the content of the manifest file that the decoder adds. *)
Definition manifestPath `{NodeRuntime} (extractPath : string) : string :=
  path_join extractPath "devshare.yml".

Definition manifestFile (m : ProjectManifest) : list byte :=
  list_byte_of_string (BundleExtractor.manifestToYaml m).

(** A record is within the sizes that the layout and [Number] can carry. *)
Definition sized (rec : string * list byte) : Prop :=
  Z.of_nat (length (list_byte_of_string (fst rec))) < 2 ^ 32
  /\ Z.of_nat (length (snd rec)) <= MAX_SAFE.

(** The files at [paths] can be written below [extractPath] next to the
    files of [dest]: none of them is a directory, being the destination or
    above it or above another file, and none of them has a file above it. *)
Definition unobstructed `{NodeRuntime} (extractPath : string) (paths : list string)
    (dest : gmap string (list byte)) : Prop :=
  let full := path_join extractPath <$> paths in
  Forall (fun p =>
            BundleExtractor.below p (extractPath +:+ "/") = false
            /\ Forall (fun k => BundleExtractor.below k p = false
                                /\ BundleExtractor.below p k = false)
                 (full ++ elements (dom dest)))
    full.

(** What a run of the decoder loop has written: the records that the
    stream declares, up to the one at which the run stopped. *)
Definition written_by `{NodeRuntime} (extractPath : string) (before after : gmap string (list byte))
    (recs : list (string * list byte)) : Prop :=
  exists k, after = writeAll extractPath (take k recs) before.

(** The files and the made paths of [w] are among [keys]. *)
Definition within (keys : list string) (extractPath : string)
    (w : BundleExtractor.world) : Prop :=
  (forall k, k ∈ dom (BundleExtractor.files w) -> k ∈ keys)
  /\ (forall k, k ∈ BundleExtractor.made w -> k ∈ keys \/ k = extractPath +:+ "/").

(** Nothing at the paths [keys] is in the way of a file at [p]. *)
Definition free (keys : list string) (extractPath : string) (p : string) : Prop :=
  p ∈ keys
  /\ BundleExtractor.below p (extractPath +:+ "/") = false
  /\ Forall (fun k => BundleExtractor.below k p = false
                      /\ BundleExtractor.below p k = false) keys.

(** All or nothing as the specification states it: what a failed
    extraction leaves in an empty destination is not what a successful
    extraction leaves there. *)
Definition all_or_nothing `{NodeRuntime} : Prop :=
  forall bundle extractPath e,
    snd (BundleExtractor.performExtraction bundle extractPath ∅) = Err e ->
    ~ exists bundle' r,
        BundleExtractor.performExtraction bundle' extractPath ∅
        = (fst (BundleExtractor.performExtraction bundle extractPath ∅), Ok r).

(** One file more than declared, as the specification states it. *)
Definition one_file_more `{NodeRuntime} : Prop :=
  forall bundle extractPath r,
    snd (BundleExtractor.performExtraction bundle extractPath ∅) = Ok r ->
    Z.of_nat (size (fst (BundleExtractor.performExtraction bundle extractPath ∅)))
    = BundleExtractor.fileCount r + 1.

End BundleLayout.

(** ** A runtime for the examples

    Compression that stores (two magic bytes in front of the data), a JSON
    codec for one manifest, and [path.join] on paths that need no
    normalisation. *)
Module Examples.
Import FileBundler BundleExtractor.

Definition manifest0 : ProjectManifest :=
  {| name := "demo"; version := "1.0.0"; language := "node"; run := "npm start";
     engines := Some {| node := Some ">=18"; python := None |};
     ports := Some [3000]; env := None; secrets := None; dependencies := None |}.

Definition stringify0 (m : ProjectManifest) : string :=
  JSON_object [ ("name", JSON_string (name m));
                ("version", JSON_string (version m));
                ("language", JSON_string (language m));
                ("run", JSON_string (run m)) ].

#[export] Instance stored : NodeRuntime :=
  {| JSON_stringify := stringify0;
     JSON_parse := fun text =>
       if String.eqb text (stringify0 manifest0) then Some manifest0 else None;
     gzip := fun data => x1f :: x8b :: data;
     gunzip := fun data =>
       match data with
       | x1f :: x8b :: rest => Some rest
       | _ => None
       end;
     path_join := fun a b => a +:+ "/" +:+ b;
     Number_of_BigInt := fun n => n |}.

Definition text (s : string) : list byte := list_byte_of_string s.

(** A project with a manifest file of its own, a source file, a log and a
    dependency cache. *)
Definition project0 : fsnode :=
  Directory
    [ ("devshare.yml", File (text "name: demo"));
      ("src", Directory [ ("index.js", File (text "console.log(1)")) ]);
      ("app.log", File (text "started"));
      ("node_modules", Directory [ ("left-pad", Directory [ ("index.js", File (text "x")) ]) ]) ].

(** What [createBundle] makes of a project, with the manifest and the
    fixed exclusions. *)
Definition bundle_of (root : fsnode) : list byte :=
  match createBundle root manifest0 [] with
  | Ok (bundle, _) => bundle
  | Err _ => []
  end.

Definition result_of (root : fsnode) : BundleResult :=
  match createBundle root manifest0 [] with
  | Ok (_, res) => res
  | Err _ => {| size := 0; checksum := ""; FileBundler.fileCount := 0 |}
  end.

(** The same project without the manifest file. *)
Definition project1 : fsnode :=
  Directory
    [ ("src", Directory [ ("index.js", File (text "console.log(1)")) ]);
      ("README.md", File (text "demo")) ].

(** A project with one file. *)
Definition project3 : fsnode :=
  Directory [ ("a.txt", File (text "alpha")) ].

(** A stream that reaches the reads field by field: every chunk starts
    with one field and goes on with filler, which the read leaves. *)
Definition fieldwise (fields : list (list byte)) (c : closing) : delivery :=
  {| heard := map (fun field => field ++ text "~") fields; closes := c |}.

(** A bundle with the file of [project3]. *)
Definition whole : delivery :=
  fieldwise (BundleLayout.headerFields manifest0 1
             ++ BundleLayout.recordFields ("a.txt", text "alpha")) Ended.

(** A bundle whose first record is a file [devshare.yml]. *)
Definition with_manifest_file : delivery :=
  fieldwise (BundleLayout.headerFields manifest0 2
             ++ BundleLayout.recordFields ("devshare.yml", text "name: demo")
             ++ BundleLayout.recordFields ("src/index.js", text "console.log(1)")) Ended.

(** A bundle that declares three files and breaks off in the third: its
    first record is a file [devshare.yml] with the rendering of the
    manifest, its second the file of [project3]; of the 100 bytes that the
    third declares, the stream brings five and ends. *)
Definition truncated : delivery :=
  {| heard :=
       heard (fieldwise
                (BundleLayout.headerFields manifest0 3
                 ++ BundleLayout.recordFields ("devshare.yml", BundleLayout.manifestFile manifest0)
                 ++ BundleLayout.recordFields ("a.txt", text "alpha")
                 ++ [bytesBE 4 5; text "b.txt"; bytesBE 8 100]) Ended)
       ++ [text "short"];
     closes := Ended |}.

End Examples.

(** ** The life of one transfer

    What the specification says about a transfer is read on the values its
    object takes from [requestBundle] on, optionally followed by
    [cancelTransfer] for the same id. *)
Module TransferLifetime.
Import TransferService.

Definition lifetime (ratio_reached : Z -> Z -> Z -> bool) (io : RequestIO)
    (peerId bundleId : string) (cancel : bool) (st : state) : list effect :=
  let '(st', effects, _) := requestBundle ratio_reached io peerId bundleId st in
  if cancel then effects ++ snd (cancelTransfer (freshId io) st') else effects.

(** The same life when [cancelTransfer] is called for the transfer while
    [requestBundle] is suspended ([n] and [m] as in [cancelled_during]): the
    effects on the transfer object, in the order in which they happen. A
    request that opens no transfer is never suspended with one. *)
Definition interrupted (ratio_reached : Z -> Z -> Z -> bool) (io : RequestIO)
    (peerId bundleId : string) (n m : nat) (st : state) : list effect :=
  match discoveredPeers st !! peerId, tokenResponse io with
  | Some p, inr tokenResponse =>
    if online p then
      let transferState := new_transfer io peerId bundleId tokenResponse in
      Assign transferState
      :: snd (perform
                (cancelled_during n m (request_steps ratio_reached (download io)))
                {| object := transferState; listed := true |})
    else snd (fst (requestBundle ratio_reached io peerId bundleId st))
  | _, _ => snd (fst (requestBundle ratio_reached io peerId bundleId st))
  end.

(** [b] is a later value than [a]: the byte count has not gone down. *)
Definition bytes_le (a b : TransferState) : Prop :=
  transferredBytes a <= transferredBytes b.

Definition never_decreases (values : list TransferState) : Prop :=
  StronglySorted bytes_le values.

Definition within_total (values : list TransferState) : Prop :=
  Forall (fun t => transferredBytes t <= totalBytes t) values.

Definition full_when_completed (values : list TransferState) : Prop :=
  Forall (fun t => transfer_status t = completed -> transferredBytes t = totalBytes t) values.

(** The position of a status on the line
    pending, transferring, (completed | failed | cancelled). *)
Definition rank (s : status) : Z :=
  match s with
  | pending => 0
  | transferring => 1
  | completed | failed | cancelled => 2
  end.

(** [b] is a later value than [a]: the status has not moved back, and a
    terminal status has stayed what it was. *)
Definition forward (a b : TransferState) : Prop :=
  rank (transfer_status a) <= rank (transfer_status b)
  /\ (is_terminal (transfer_status a) = true -> transfer_status b = transfer_status a).

Definition moves_forward (values : list TransferState) : Prop :=
  StronglySorted forward values.

(** From one value to the next the status moves forward, or is overwritten
    with cancelled, or was cancelled and is overwritten. *)
Definition overwrites (a b : TransferState) : Prop :=
  forward a b \/ transfer_status b = cancelled \/ transfer_status a = cancelled.

Fixpoint stepwise (R : relation TransferState) (values : list TransferState) : Prop :=
match values with
| a :: (b :: _) as rest => R a b /\ stepwise R rest
| _ => True
end.

(** A status that a handler writes after its own last write [own]. *)
Definition later (own s : status) : bool :=
  bool_decide (rank own <= rank s) && (negb (is_terminal own) || bool_decide (s = own)).

(** The status that a step writes, if it writes one, and whether it does
    so only for a transfer that is in the table. *)
Fixpoint status_written (s : step) : option status :=
match s with
| SetStatus s' => Some s'
| IfListed s' => status_written s'
| _ => None
end.

Definition guarded (s : step) : bool :=
  match s with
  | IfListed _ => true
  | _ => false
  end.

(** The status writes of a handler come in forward order, whether the
    guarded ones are done or not; [own] is the status it wrote last. A
    write of cancelled is the write of [cancelTransfer], which the handler
    does not see. *)
Fixpoint in_order (own : status) (steps : list step) : bool :=
match steps with
| [] => true
| s :: rest =>
  match status_written s with
  | None => in_order own rest
  | Some s' =>
    if bool_decide (s' = cancelled) then in_order own rest
    else later own s' && in_order s' rest && (negb (guarded s) || in_order own rest)
  end
end.

(** The number of body bytes that [reader.read()] hands over. *)
Definition bytes_delivered (values : list (list byte)) : Z :=
  foldr (fun value n => Z.of_nat (length value) + n) 0 values.

(** The [content-length] header tells the truth: the number read from it
    (0 when it is absent) is not negative, the body never brings more bytes
    than it says, and a body read to its end brings exactly that many. *)
Definition length_declared (io : DownloadIO) : Prop :=
  match fetch_result io with
  | Fetched true _ contentLength reader =>
    let totalSize := default 0 contentLength in
    0 <= totalSize
    /\ match reader with
       | Some body =>
         bytes_delivered (delivered body) <= totalSize
         /\ (read_error body = None -> bytes_delivered (delivered body) = totalSize)
       | None => True
       end
  | _ => True
  end.

Definition size_not_negative (io : RequestIO) : Prop :=
  match tokenResponse io with
  | inr r => 0 <= tr_size r
  | inl _ => True
  end.

(** A peer table with one peer that is online, and a download answered
    without a [content-length] header. *)
Definition puller : state :=
  {| config := defaultConfig;
     availableBundles := ∅;
     transferTokens := ∅;
     discoveredPeers :=
       {[ "60e05bd1b195af2f" :=
            {| peer_id := "60e05bd1b195af2f"; peer_address := "192.168.1.7";
               peer_port := 7682; online := true |} ]};
     objects := ∅;
     activeTransfers := ∅;
     disk := ∅ |}.

Definition request_of (contentLength : option Z) (chunks : list (list byte)) : RequestIO :=
  {| freshId := "transfer_1736294400000_k3j9x0q1z";
     clock := 1736294400000;
     tmpdir := "/tmp";
     tokenResponse := inr {| token := "t"; tr_size := 5; tr_chunks := 1 |};
     download :=
       {| mkdir_error := None;
          fetch_result :=
            Fetched true "200 OK" contentLength
              (Some {| delivered := chunks; read_error := None |});
          flushed := Some (length (concat chunks)) |} |}.

Definition no_ratio (down total k : Z) : bool := false.

End TransferLifetime.

(** ** A hosting service for the examples: one bundle of three bytes on offer *)
Module TransferExamples.
Import TransferService.

Definition hosting : state :=
  {| config := defaultConfig;
     availableBundles :=
       {[ "bundle-1" := {| bi_bundleId := "bundle-1"; bundlePath := "/srv/bundle-1";
                           size := 3; chunks := 1; checksum := ""; bi_signature := "";
                           createdAt := 0; bi_expiresAt := 86400000 |} ]};
     transferTokens := ∅;
     discoveredPeers := ∅;
     objects := ∅;
     activeTransfers := ∅;
     disk := {[ "/srv/bundle-1" := [x01; x02; x03] ]} |}.

End TransferExamples.

(** * More of the services

    The sending side of peer discovery, hosting and the peer table of the
    transfer service, the chunker, the validation of bundles and the
    fallback of the encryption. *)

(** ** Announcements (peer-discovery.ts)

    The sending side of the discovery protocol and the handler of bundle
    announcements. A datagram is the announcement that [JSON.parse] makes
    of it. *)
Module Announcements.
Import PeerDiscovery.

Record BundleAnnouncement : Type := {
  ba_peerId : string;
  ba_bundleId : string;
  ba_bundleName : string;
  ba_bundleSize : Z;
  ba_timestamp : Z;
  ba_signature : string
}.

(** [announcePeer]: the announcement handed to [socket.send], if any.
    [isRunning] stands for [this.isRunning && this.socket]; an exception of
    [getPublicKey] or [signMessage] is caught and logged. *)
Definition announcePeer (native : option CryptoService.Native)
    (keyPair : option CryptoService.KeyPair) (isRunning : bool) (hostname : string)
    (now : Z) : option PeerAnnouncement :=
  if negb isRunning then None
  else
    match keyPair with
    | None => None
    | Some kp =>
      let publicKey := CryptoService.publicKey kp in
      let peerId := substring 0 16 publicKey in
      let announcement :=
        {| pa_id := peerId;
           pa_name := "DevShare-" +:+ hostname;
           pa_port := 7682;
           pa_publicKey := publicKey;
           pa_timestamp := now;
           pa_signature := "" |} in
      let messageToSign := messageToVerify announcement in
      match CryptoService.signMessage native keyPair messageToSign with
      | CryptoService.Thrown => None
      | CryptoService.Returned signature =>
        Some {| pa_id := pa_id announcement;
                pa_name := pa_name announcement;
                pa_port := pa_port announcement;
                pa_publicKey := pa_publicKey announcement;
                pa_timestamp := pa_timestamp announcement;
                pa_signature := fst signature |}
      end
    end.

(** The canonical field subset of a bundle announcement that is signed. *)
Definition bundleMessageToVerify (a : BundleAnnouncement) : string :=
  JSON_object
    [ ("type", JSON_string "bundle_announcement");
      ("peerId", JSON_string (ba_peerId a));
      ("bundleId", JSON_string (ba_bundleId a));
      ("bundleName", JSON_string (ba_bundleName a));
      ("bundleSize", Number_toString (ba_bundleSize a));
      ("timestamp", Number_toString (ba_timestamp a)) ].

(** [announceBundle] of the discovery service. *)
Definition announceBundle (native : option CryptoService.Native)
    (keyPair : option CryptoService.KeyPair) (isRunning : bool) (now : Z)
    (bundleId bundleName : string) (bundleSize : Z) : option BundleAnnouncement :=
  if negb isRunning then None
  else
    match keyPair with
    | None => None
    | Some kp =>
      let publicKey := CryptoService.publicKey kp in
      let peerId := substring 0 16 publicKey in
      let announcement :=
        {| ba_peerId := peerId;
           ba_bundleId := bundleId;
           ba_bundleName := bundleName;
           ba_bundleSize := bundleSize;
           ba_timestamp := now;
           ba_signature := "" |} in
      let messageToSign := bundleMessageToVerify announcement in
      match CryptoService.signMessage native keyPair messageToSign with
      | CryptoService.Thrown => None
      | CryptoService.Returned signature =>
        Some {| ba_peerId := ba_peerId announcement;
                ba_bundleId := ba_bundleId announcement;
                ba_bundleName := ba_bundleName announcement;
                ba_bundleSize := ba_bundleSize announcement;
                ba_timestamp := ba_timestamp announcement;
                ba_signature := fst signature |}
      end
    end.

(** [handleBundleAnnouncement]: the announcements handed to the callback
    [onBundleAnnounced]; [hasCallback] tells whether one is registered. The
    registry of peers is read and not written. *)
Definition handleBundleAnnouncement (native : option CryptoService.Native) (now : Z)
    (hasCallback : bool) (announcement : BundleAnnouncement) (st : state)
    : list BundleAnnouncement :=
  match discoveredPeers st !! ba_peerId announcement with
  | None => []
  | Some peer =>
    let isValid :=
      CryptoService.verifySignature native (bundleMessageToVerify announcement)
        (ba_signature announcement) (publicKey peer) in
    if negb isValid then []
    else
      let messageAge := now - ba_timestamp announcement in
      if messageAge >? 5 * 60 * 1000 then []
      else if hasCallback then [announcement] else []
  end.

(** [handleMessage] for a datagram that parsed as a bundle announcement. *)
Definition handleBundleMessage (native : option CryptoService.Native) (now : Z)
    (ourPublicKey : string) (hasCallback : bool) (data : BundleAnnouncement) (st : state)
    : list BundleAnnouncement :=
  let ourPeerId := substring 0 16 ourPublicKey in
  if String.eqb (ba_peerId data) ourPeerId then []
  else handleBundleAnnouncement native now hasCallback data st.

End Announcements.

(** [Math.ceil(a / b)] for a size [a] below 2^53 and a positive [b]. *)
Definition ceil_div (a b : Z) : Z := (a + b - 1) / b.

(** ** Hosting and the peer table (transfer-service.ts) *)
Module Hosting.
Import TransferService.

(** [generateBundleHash] of the crypto service. *)
Definition generateBundleHash (bundleData : list byte) : string :=
  Sha256.sha256_hex_bytes bundleData.

(** [announceBundle]: the new state, the announcement that goes out to the
    multicast group, if any, and whether the call returns or throws. [stat]
    throws for a path that is not on the disk, [signBundle] throws while the
    crypto service has no key pair; [discoveryRunning] tells whether the
    discovery service has its socket. *)
Definition announceBundle (native : option CryptoService.Native)
    (keyPair : option CryptoService.KeyPair) (discoveryRunning : bool) (now : Z)
    (bundleId path : string) (manifest : ProjectManifest) (st : state)
    : state * option Announcements.BundleAnnouncement * CryptoService.outcome unit :=
  match disk st !! path with
  | None => (st, None, CryptoService.Thrown)
  | Some bundleData =>
    let bundleStats_size := Z.of_nat (length bundleData) in
    let checksum := Sha256.sha256_hex_bytes bundleData in
    let bundleHash := generateBundleHash bundleData in
    match CryptoService.signBundle native keyPair now path bundleHash with
    | CryptoService.Thrown => (st, None, CryptoService.Thrown)
    | CryptoService.Returned signature =>
      let chunks := ceil_div bundleStats_size (chunkSize (config st)) in
      let bundleInfo :=
        {| bi_bundleId := bundleId;
           bundlePath := path;
           size := bundleStats_size;
           chunks := chunks;
           checksum := checksum;
           bi_signature := CryptoService.signature signature;
           createdAt := now;
           bi_expiresAt := now + 24 * 60 * 60 * 1000 |} in
      (with_bundles (<[bundleId := bundleInfo]> (availableBundles st)) st,
       Announcements.announceBundle native keyPair discoveryRunning now
         bundleId (name manifest) (size bundleInfo),
       CryptoService.Returned tt)
    end
  end.

Definition with_peers (p : gmap string PeerInfo) (st : state) : state :=
  {| config := config st; availableBundles := availableBundles st;
     transferTokens := transferTokens st; discoveredPeers := p;
     objects := objects st; activeTransfers := activeTransfers st;
     disk := disk st |}.

Definition peerInfo_of (peer : PeerDiscovery.DiscoveredPeer) : PeerInfo :=
  {| peer_id := PeerDiscovery.id peer;
     peer_address := PeerDiscovery.address peer;
     peer_port := PeerDiscovery.port peer;
     online := true |}.

(** The two handlers that [startPeerDiscovery] registers with the
    discovery service, as one function of the event. *)
Definition onDiscoveryEvent (ev : PeerDiscovery.event) (st : state) : state :=
  match ev with
  | PeerDiscovery.PeerDiscovered peer =>
    with_peers (<[PeerDiscovery.id peer := peerInfo_of peer]> (discoveredPeers st)) st
  | PeerDiscovery.PeerLost peerId =>
    match discoveredPeers st !! peerId with
    | Some peer =>
      with_peers
        (<[peerId := {| peer_id := peer_id peer; peer_address := peer_address peer;
                        peer_port := peer_port peer; online := false |}]>
           (discoveredPeers st)) st
    | None => st
    end
  end.

End Hosting.

(** ** Chunks of a bundle (file-bundler.ts) *)
Module Chunker.

Record BundleChunk : Type := {
  index : Z;
  data : list byte;
  checksum : string;
  size : Z
}.

Definition CHUNK_SIZE : Z := 4 * 1024 * 1024.

Section Chunks.
Variable chunk_size : Z.

(** The [while] loop of [createChunks]: the chunks pushed, and the chunk
    index and the buffer at its exit. A turn takes at least one byte from
    the buffer, so that a number of turns equal to the length of the buffer
    is never used up. *)
Fixpoint drain (turns : nat) (numChunks chunkIndex : Z) (buffer : list byte)
    : list BundleChunk * Z * list byte :=
match turns with
| O => ([], chunkIndex, buffer)
| S turns' =>
  let len := Z.of_nat (length buffer) in
  if (chunk_size <=? len) || ((chunkIndex =? numChunks - 1) && (0 <? len)) then
    let chunkData := take (Z.to_nat (Z.min chunk_size len)) buffer in
    let buffer' := drop (length chunkData) buffer in
    let chunk := {| index := chunkIndex;
                    data := chunkData;
                    checksum := Sha256.sha256_hex_bytes chunkData;
                    size := Z.of_nat (length chunkData) |} in
    let chunkIndex' := chunkIndex + 1 in
    if numChunks <=? chunkIndex' then ([chunk], chunkIndex', buffer')
    else
      let '(more, i, b) := drain turns' numChunks chunkIndex' buffer' in
      (chunk :: more, i, b)
  else ([], chunkIndex, buffer)
end.

(** The [for await] loop over the pieces that the read stream delivers. *)
Fixpoint readLoop (numChunks : Z) (pieces : list (list byte)) (chunkIndex : Z)
    (buffer : list byte) : list BundleChunk :=
match pieces with
| [] => []
| chunk :: rest =>
  let buffer := buffer ++ chunk in
  let '(made, chunkIndex', buffer') := drain (length buffer) numChunks chunkIndex buffer in
  made ++ readLoop numChunks rest chunkIndex' buffer'
end.

Definition createChunksOf (pieces : list (list byte)) : list BundleChunk :=
  let totalSize := Z.of_nat (length (concat pieces)) in
  let numChunks := ceil_div totalSize chunk_size in
  readLoop numChunks pieces 0 [].

(** What holds around the loops of the chunk index [i] and of the number
    [r] of bytes that are not in a chunk yet, buffered or still to come. *)
Definition within_count (numChunks i r : Z) : Prop :=
  i <= numChunks
  /\ (i < numChunks -> r <= (numChunks - i) * chunk_size)
  /\ (i = numChunks -> r < chunk_size).

(** A chunk as it should be: not empty, at most [chunk_size] bytes, with
    their number and their SHA-256. *)
Definition sound (c : BundleChunk) : Prop :=
  data c <> []
  /\ Z.of_nat (length (data c)) <= chunk_size
  /\ size c = Z.of_nat (length (data c))
  /\ checksum c = Sha256.sha256_hex_bytes (data c).

End Chunks.

(** [createChunks]: [file] is what is at [bundlePath], as the pieces in
    which the read stream delivers it, or nothing. *)
Definition createChunks (file : option (list (list byte))) : result (list BundleChunk) :=
  match file with
  | None => Err ENOENT
  | Some pieces => Ok (createChunksOf CHUNK_SIZE pieces)
  end.

End Chunker.

(** ** Validation of a bundle (bundle-extractor.ts) *)
Module BundleValidation.
Import BundleExtractor.

(** What [stat] finds at [bundlePath]; for a regular file, what the reads
    hear of its decompressed content. *)
Inductive entry : Type :=
| Missing
| NotAFile
| Regular (bundle : delivery).

Inductive reason : Type :=
| NotFile            (* 'Bundle path is not a file' *)
| TooLarge           (* 'Manifest too large' *)
| MissingFields      (* 'Invalid manifest: missing required fields' *)
| Failed (e : error) (* `Bundle validation failed: ${error}` *).

(** [{ valid: true, manifest }] or [{ valid: false, error }]. *)
Inductive validation : Type :=
| Valid (manifest : ProjectManifest)
| Invalid (error : reason).

(** [!s] for a field that is a string; a field that is absent is read as
    the empty string. *)
Definition falsy (s : string) : bool := String.eqb s "".

(** The reads of [validateBundle] on the decompressed stream. *)
Definition readManifest `{NodeRuntime} : Ext validation :=
  manifestLengthBuffer ← readBytes 4;
  let manifestLength := readUIntBE manifestLengthBuffer in
  if manifestLength >? 1024 * 1024 then mret (Invalid TooLarge)
  else
    manifestBuffer ← readBytes manifestLength;
    match JSON_parse (string_of_list_byte manifestBuffer) with
    | None => throw SyntaxError
    | Some manifest =>
      if falsy (name manifest) || falsy (version manifest)
         || falsy (language manifest) || falsy (run manifest)
      then mret (Invalid MissingFields)
      else mret (Valid manifest)
    end.

(** [validateBundle]: whatever is thrown ends in [{ valid: false }]; there
    is no answer when a read is never settled. *)
Definition validateBundle `{NodeRuntime} (at_path : entry) : option validation :=
  match at_path with
  | Missing => Some (Invalid (Failed ENOENT))
  | NotAFile => Some (Invalid NotFile)
  | Regular bundle =>
    match readManifest {| stream := heard bundle; closed := closes bundle;
                          files := ∅; made := ∅ |} with
    | (_, Ok v) => Some v
    | (_, Err Unsettled) => None
    | (_, Err e) => Some (Invalid (Failed e))
    end
  end.

(** [extractBundle] of the file bundler: the extractor without
    [overwrite]. *)
Definition bundler_extractBundle `{NodeRuntime} (bundle : delivery) (extractPath : string)
    (dest : gmap string (list byte)) : gmap string (list byte) * result unit :=
  let '(dest', r) := extractBundle bundle extractPath false dest in
  (dest', r ≫= fun _ => Ok tt).

End BundleValidation.

(** ** A signing backend and two nodes for the examples

    A backend in which the private key of a pair is its public key with a
    mark in front, so that the verifier can compute what the signer did. *)
Module DiscoveryExamples.
Import PeerDiscovery.

Definition marked : CryptoService.Native :=
  {| CryptoService.native_signData := fun data privateKey =>
       Some (Sha256.sha256_hex (data +:+ privateKey));
     CryptoService.native_verifySignature := fun data signature publicKey =>
       Some (String.eqb signature (Sha256.sha256_hex (data +:+ "private:" +:+ publicKey))) |}.

Definition marked_pair : CryptoService.KeyPair :=
  {| CryptoService.publicKey := "60e05bd1b195af2f94112fa7197a5c88";
     CryptoService.privateKey := "private:60e05bd1b195af2f94112fa7197a5c88" |}.

(** A node that has heard of nobody, with both callbacks registered. *)
Definition alone : state :=
  {| discoveredPeers := ∅; onPeerDiscovered := true; onPeerLost := true |}.

(** A node that heard of one peer at time 1000. *)
Definition one_peer : state :=
  {| discoveredPeers :=
       {[ "60e05bd1b195af2f" :=
            {| id := "60e05bd1b195af2f"; name := "DevShare-host";
               address := "192.168.1.7"; port := 7682;
               publicKey := "60e05bd1b195af2f94112fa7197a5c88"; lastSeen := 1000 |} ]};
     onPeerDiscovered := true;
     onPeerLost := true |}.

End DiscoveryExamples.

(** ** A hosting service with chunks of two bytes, for the examples *)
Module HostingExamples.
Import TransferService.

Definition small_chunks : state :=
  {| config := {| transferTimeout := 300; chunkSize := 2 |};
     availableBundles := ∅;
     transferTokens := ∅;
     discoveredPeers := ∅;
     objects := ∅;
     activeTransfers := ∅;
     disk := {[ "/srv/demo.bundle" := [x01; x02; x03; x04; x05] ]} |}.

End HostingExamples.

(** ** What the scan keeps (file-bundler.ts) *)
Module Scan.
Import FileBundler.

(** The test that [shouldExclude] makes with one pattern. *)
Definition excludes (pattern filePath : string) : bool :=
  if includes_star pattern then
    match RegExp (replace_star pattern) with
    | Ok regex => RegExp_test regex (list_ascii_of_string filePath)
    | Err _ => false
    end
  else String.eqb filePath pattern || startsWith filePath (pattern +:+ "/").

(** A pattern in which no character is special in a regular expression,
    but for [*] and [.]: none of [\ ^ $ + ? ( ) [ ] { } |]. *)
Definition plain (pattern : string) : Prop :=
  forallb (fun c => negb (is_meta c)) (list_ascii_of_string pattern) = true.

(** No entry of a directory has the empty name. *)
Fixpoint named (n : fsnode) : Prop :=
match n with
| Directory entries =>
  (fix all (entries : list (string * fsnode)) : Prop :=
     match entries with
     | [] => True
     | (entry, child) :: rest => entry <> "" /\ named child /\ all rest
     end) entries
| _ => True
end.

(** The paths of the regular files are distinct JavaScript strings. *)
Definition distinct_names (n : fsnode) : Prop :=
  NoDup (utf16 <$> (fst <$> filesOf "" n)).

(** Two trees hold the same regular files: the same paths with the same
    content, a path naming one file in each. *)
Definition same_files (a b : fsnode) : Prop :=
  NoDup (fst <$> filesOf "" a)
  /\ NoDup (fst <$> filesOf "" b)
  /\ forall e, e ∈ filesOf "" a <-> e ∈ filesOf "" b.

End Scan.

(** ** Base64 ([buf.toString('base64')], [Buffer.from(text, 'base64')])

    Encoding pads with [=]. Decoding skips what is not in the alphabet, takes
    [-] and [_] for [+] and [/], and stops at the first [=]. *)
Module Base64.

Definition alphabet : list ascii :=
  list_ascii_of_string "ABCDEFGHIJKLMNOPQRSTUVWXYZabcdefghijklmnopqrstuvwxyz0123456789+/".

Definition digit (n : Z) : ascii := nth (Z.to_nat n) alphabet "A"%char.

Fixpoint position (c : ascii) (l : list ascii) (i : Z) : option Z :=
match l with
| [] => None
| x :: rest => if Ascii.eqb c x then Some i else position c rest (i + 1)
end.

Definition unbase64 (c : ascii) : option Z :=
  if Ascii.eqb c "-" then Some 62
  else if Ascii.eqb c "_" then Some 63
  else position c alphabet 0.

(** Three bytes become four digits. *)
Fixpoint encode (bs : list Z) : list ascii :=
match bs with
| a :: b :: c :: rest =>
  digit (a / 4) :: digit (a mod 4 * 16 + b / 16) :: digit (b mod 16 * 4 + c / 64)
  :: digit (c mod 64) :: encode rest
| [a; b] => [digit (a / 4); digit (a mod 4 * 16 + b / 16); digit (b mod 16 * 4); "="%char]
| [a] => [digit (a / 4); digit (a mod 4 * 16); "="%char; "="%char]
| [] => []
end.

(** The values of the digits of a text, up to its first [=]. *)
Fixpoint sextets (cs : list ascii) : list Z :=
match cs with
| [] => []
| c :: rest =>
  if Ascii.eqb c "=" then []
  else
    match unbase64 c with
    | Some v => v :: sextets rest
    | None => sextets rest
    end
end.

(** Four digits become three bytes; three become two, two become one. *)
Fixpoint decode (vs : list Z) : list Z :=
match vs with
| s1 :: s2 :: s3 :: s4 :: rest =>
  (s1 * 4 + s2 / 16) :: (s2 mod 16 * 16 + s3 / 4) :: (s3 mod 4 * 64 + s4) :: decode rest
| [s1; s2; s3] => [s1 * 4 + s2 / 16; s2 mod 16 * 16 + s3 / 4]
| [s1; s2] => [s1 * 4 + s2 / 16]
| _ => []
end.

Definition toString (buf : list byte) : string :=
  string_of_list_ascii (encode (map Z_of_byte buf)).

Definition from (text : string) : list byte :=
  map byte_of_Z (decode (sextets (list_ascii_of_string text))).

End Base64.

(** ** Encryption of the crypto service (crypto-service.ts)

    [native] is [native.encryptData] or [native.decryptData] of the addon:
    absent when [require] throws, [None] as a result when the call throws. *)
Module CryptoVault.

Definition encryptData (native : option (string -> string -> option string))
    (data recipientPublicKey : string) : string :=
  match native ≫= (fun f => f data recipientPublicKey) with
  | Some encrypted => encrypted
  | None => Base64.toString (list_byte_of_string data)
  end.

Definition decryptData (native : option (string -> string -> option string))
    (encryptedData senderPublicKey : string) : string :=
  match native ≫= (fun f => f encryptedData senderPublicKey) with
  | Some data => data
  | None => string_of_list_byte (Base64.from encryptedData)
  end.

End CryptoVault.

(** * Properties *)

(** ** SHA-256 test vectors (FIPS 180-4, appendix B.1, and the empty message) *)

Example sha256_abc :
  Sha256.sha256_hex "abc" = "ba7816bf8f01cfea414140de5dae2223b00361a396177a9cb410ff61f20015ad".
Proof. vm_compute. reflexivity. Qed.

Example sha256_empty :
  Sha256.sha256_hex_bytes [] = "e3b0c44298fc1c149afbf4c8996fb92427ae41e4649b934ca495991b7852b855".
Proof. vm_compute. reflexivity. Qed.

(** ** Strings *)

Lemma append_inj_r (a b c : string) : a +:+ b = a +:+ c -> b = c.
Proof. induction a as [|x a IH]; simpl; intros Heq; [done|]. injection Heq as Heq. auto. Qed.

Lemma eqb_false_of_ne (a b : string) : a <> b -> String.eqb a b = false.
Proof. intros Hne. by apply String.eqb_neq. Qed.

(** ** Crypto service *)
Module CryptoFacts.
Import CryptoService.

Lemma verifyBundleSignature_returns native now hash sig :
  exists b, verifyBundleSignature native now hash sig = Returned b.
Proof.
  unfold verifyBundleSignature, verifyBundleSignature_try, try_catch.
  repeat case_match; eauto.
Qed.

Lemma verifyBundleSignature_expired native now hash sig :
  now - timestamp sig > maxAge ->
  verifyBundleSignature native now hash sig = Returned false.
Proof.
  intros Hold. unfold verifyBundleSignature, verifyBundleSignature_try.
  destruct (Z.gtb_spec (now - timestamp sig) maxAge); [done | lia].
Qed.

Lemma verifyBundleSignature_hash_mismatch native now hash sig :
  hash <> bundleHash sig ->
  verifyBundleSignature native now hash sig = Returned false.
Proof.
  intros Hne. unfold verifyBundleSignature, verifyBundleSignature_try.
  rewrite (eqb_false_of_ne _ _ Hne). simpl. by case_match.
Qed.

Lemma verifyBundleSignature_check_fails native now hash sig :
  checkSignature native (bundleHash sig) (signature sig) (signerKey sig) = false ->
  verifyBundleSignature native now hash sig = Returned false.
Proof.
  intros Hcheck. unfold verifyBundleSignature, verifyBundleSignature_try.
  rewrite Hcheck. by repeat case_match.
Qed.

(** A fresh envelope with the right hash is accepted exactly when the
    signature check accepts it. *)
Lemma verifyBundleSignature_fresh native now hash sig :
  now - timestamp sig <= maxAge ->
  hash = bundleHash sig ->
  verifyBundleSignature native now hash sig =
  Returned (checkSignature native (bundleHash sig) (signature sig) (signerKey sig)).
Proof.
  intros Hfresh ->. unfold verifyBundleSignature, verifyBundleSignature_try.
  destruct (Z.gtb_spec (now - timestamp sig) maxAge); [lia|].
  by rewrite String.eqb_refl.
Qed.

(** With a native backend whose verification accepts what its signing
    produces, an envelope of [signBundle] that is one hour old verifies. *)
Lemma verifyBundleSignature_native_accepts n kp now path hash sig s :
  native_signData n hash (privateKey kp) = Some s ->
  native_verifySignature n hash s (publicKey kp) = Some true ->
  signBundle (Some n) (Some kp) (now - 3600000) path hash = Returned sig ->
  verifyBundleSignature (Some n) now hash sig = Returned true.
Proof.
  intros Hsign Hverify Hsig. unfold signBundle, signData in Hsig. simpl in Hsig.
  rewrite Hsign in Hsig. injection Hsig as <-.
  rewrite verifyBundleSignature_fresh; simpl; [|unfold maxAge; lia|done].
  unfold checkSignature. simpl. by rewrite Hverify.
Qed.

(** C2. Without the native addon the service does not accept its own
    bundle signature: the key pair comes from [generateKeyPairFallback], the
    envelope from [signBundle] one hour before the check, the hash is the
    signed one, and [verifyBundleSignature] returns false. *)
Theorem verifyBundleSignature_rejects_own_fallback_envelope :
  let kp := generateKeyPairFallback
              "0000000000000000000000000000000000000000000000000000000000000000" in
  let hash := Sha256.sha256_hex "bundle" in
  let now := 1736294400000 in
  exists sig,
    signBundle None (Some kp) (now - 60 * 60 * 1000) "/tmp/project.bundle" hash = Returned sig
    /\ bundleHash sig = hash
    /\ now - timestamp sig = 60 * 60 * 1000
    /\ verifyBundleSignature None now hash sig = Returned false.
Proof.
  intros kp hash now.
  exists {| bundleHash := hash;
            signature := signDataFallback hash (privateKey kp);
            signerKey := publicKey kp;
            timestamp := now - 60 * 60 * 1000;
            version := "1.0.0" |}.
  repeat split; vm_compute; reflexivity.
Qed.

End CryptoFacts.

(** ** Peer discovery *)
Module PeerDiscoveryFacts.
Import PeerDiscovery.

(** C8. A peer announcement whose time stamp is more than five minutes
    behind the clock changes nothing: the registry is the same afterwards
    and no callback fires. *)
Theorem stale_announcement_ignored native now announcement sourceAddress st :
  now - pa_timestamp announcement > 5 * 60 * 1000 ->
  handlePeerAnnouncement native now announcement sourceAddress st = (st, []).
Proof.
  intros Hold. unfold handlePeerAnnouncement.
  destruct (negb _); [done|].
  destruct (Z.gtb_spec (now - pa_timestamp announcement) (5 * 60 * 1000)); [done | lia].
Qed.

Lemma stale_announcement_ignored_witness :
  let a := {| pa_id := "60e05bd1b195af2f"; pa_name := "DevShare-host"; pa_port := 7682;
              pa_publicKey := "60e05bd1b195af2f94112fa7197a5c88289058840ce7c6df9693756bc6250f55";
              pa_timestamp := 1736294400000; pa_signature := "" |} in
  let st := {| discoveredPeers := ∅; onPeerDiscovered := true; onPeerLost := true |} in
  handlePeerAnnouncement None (1736294400000 + 6 * 60 * 1000) a "192.168.1.7" st = (st, []).
Proof.
  intros a st.
  apply (stale_announcement_ignored None (1736294400000 + 6 * 60 * 1000) a "192.168.1.7" st).
  simpl. lia.
Defined.

(** The same through [handleMessage]. *)
Lemma stale_message_ignored native now ourKey data address st :
  now - pa_timestamp data > 5 * 60 * 1000 ->
  handleMessage native now ourKey data address st = (st, []).
Proof.
  intros Hold. unfold handleMessage, handlePeerAnnouncement. case_match; [done|].
  destruct (negb _); [done|].
  destruct (Z.gtb_spec (now - pa_timestamp data) (5 * 60 * 1000)); [done | lia].
Qed.

(** A fresh, verified announcement of an unknown peer is registered and
    reported, so the freshness test above is what keeps the registry as it
    was. *)
Lemma fresh_announcement_registered native now a address st :
  CryptoService.verifySignature native (messageToVerify a) (pa_signature a) (pa_publicKey a) = true ->
  now - pa_timestamp a <= 5 * 60 * 1000 ->
  discoveredPeers st !! pa_id a = None ->
  onPeerDiscovered st = true ->
  exists peer,
    handlePeerAnnouncement native now a address st =
      ({| discoveredPeers := <[pa_id a := peer]> (discoveredPeers st);
          onPeerDiscovered := true; onPeerLost := onPeerLost st |},
       [PeerDiscovered peer])
    /\ lastSeen peer = now.
Proof.
  intros Hsig Hfresh Hnew Hcb. unfold handlePeerAnnouncement.
  rewrite Hsig. simpl.
  destruct (Z.gtb_spec (now - pa_timestamp a) (5 * 60 * 1000)); [lia|].
  rewrite Hnew, Hcb. eexists. split; reflexivity.
Qed.

End PeerDiscoveryFacts.

(** ** Transfer service: tokens *)
Module TransferTokenFacts.
Import TransferService TransferExamples.

(** The download handler writes no registry. *)
Lemma handleBundleDownloadRequest_state now token chunkIndex st :
  fst (handleBundleDownloadRequest now token chunkIndex st) = st.
Proof. unfold handleBundleDownloadRequest. by repeat case_match. Qed.

(** A token that is absent or whose expiry lies before the clock is
    answered with 401. *)
Lemma expired_token_rejected now token chunkIndex st info :
  transferTokens st !! token = Some info ->
  tk_expiresAt info < now ->
  statusCode (snd (handleBundleDownloadRequest now token chunkIndex st)) = 401.
Proof.
  intros Hinfo Hexp. unfold handleBundleDownloadRequest. rewrite Hinfo.
  destruct (Z.ltb_spec (tk_expiresAt info) now); [done | lia].
Qed.

Lemma unknown_token_rejected now token chunkIndex st :
  transferTokens st !! token = None ->
  statusCode (snd (handleBundleDownloadRequest now token chunkIndex st)) = 401.
Proof. intros Hnone. unfold handleBundleDownloadRequest. by rewrite Hnone. Qed.

(** A download that was served can be repeated with the same token for as
    long as the token has not expired. *)
Lemma served_token_serves_again now now' token chunkIndex st info :
  transferTokens st !! token = Some info ->
  statusCode (snd (handleBundleDownloadRequest now token chunkIndex st)) = 200 ->
  now' <= tk_expiresAt info ->
  statusCode
    (snd (handleBundleDownloadRequest now' token chunkIndex
            (fst (handleBundleDownloadRequest now token chunkIndex st)))) = 200.
Proof.
  intros Hinfo Hserved Hfresh. rewrite handleBundleDownloadRequest_state.
  revert Hserved. unfold handleBundleDownloadRequest. rewrite Hinfo.
  destruct (Z.ltb_spec (tk_expiresAt info) now); [done|].
  destruct (Z.ltb_spec (tk_expiresAt info) now'); [lia|].
  by repeat case_match.
Qed.

(** C4. A token issued by the token endpoint is accepted twice: the
    download request that follows a served download request with the same
    token, inside the lifetime of the token, is served as well (status 200,
    the bundle bytes), not answered with 401. *)
Theorem token_accepted_twice :
  let issued := fst (handleTransferTokenRequest 1000 "0.25" "bundle-1" "60e05bd1b195af2f" hosting) in
  let token := Sha256.sha256_hex "bundle-1:60e05bd1b195af2f:1000:0.25" in
  let first := handleBundleDownloadRequest 2000 token None issued in
  let second := handleBundleDownloadRequest 3000 token None (fst first) in
  statusCode (snd first) = 200
  /\ statusCode (snd second) = 200
  /\ body (snd second) = [x01; x02; x03].
Proof. vm_compute. repeat split; reflexivity. Qed.

End TransferTokenFacts.

(** ** Transfer service: the life of a transfer *)
Module TransferLifetimeFacts.
Import TransferService TransferLifetime.

#[local] Instance bytes_le_trans : Transitive bytes_le.
Proof. unfold bytes_le. intros a b c. lia. Qed.

#[local] Instance forward_trans : Transitive forward.
Proof.
  unfold forward. intros a b c [Hab Hab'] [Hbc Hbc']. split; [lia|].
  intros Ha. rewrite Hbc'; [auto|]. by rewrite (Hab' Ha).
Qed.

Lemma assigned_app (e1 e2 : list effect) : assigned (e1 ++ e2) = assigned e1 ++ assigned e2.
Proof. apply omap_app. Qed.

Lemma bytes_delivered_nonneg values : 0 <= bytes_delivered values.
Proof. induction values as [|v r IH]; simpl; lia. Qed.

Lemma read_loop_values ratio values total d t :
  transferredBytes t = d ->
  transfer_status (fst (read_loop ratio values total d t)) = transfer_status t
  /\ totalBytes (fst (read_loop ratio values total d t)) = totalBytes t
  /\ transferredBytes (fst (read_loop ratio values total d t)) = d + bytes_delivered values
  /\ Forall (fun v => transfer_status v = transfer_status t
                      /\ totalBytes v = totalBytes t
                      /\ d <= transferredBytes v <= d + bytes_delivered values)
       (assigned (snd (read_loop ratio values total d t)))
  /\ never_decreases (assigned (snd (read_loop ratio values total d t))).
Proof.
  revert d t. induction values as [|value rest IH]; intros d t Hd; simpl.
  - repeat split; try lia; constructor.
  - set (d' := d + Z.of_nat (length value)).
    set (t' := set_transferredBytes d' t).
    destruct (IH d' t' eq_refl) as (Hs & Ht & Hb & Hall & Hsorted).
    destruct (read_loop ratio rest total d' t') as [final effects] eqn:Hloop.
    simpl in *.
    assert (Hrep : assigned (if progress_due ratio d' total t' then [Notify t'] else []) = [])
      by (by case_match).
    rewrite assigned_app, Hrep. simpl.
    pose proof (Nat2Z.is_nonneg (length value)) as Hlen.
    pose proof (bytes_delivered_nonneg rest) as Hrest.
    repeat split; try (subst d'; lia); try done.
    + constructor.
      * simpl. repeat split; try done; subst d'; lia.
      * eapply Forall_impl; [exact Hall|]. simpl. intros v (? & ? & ?).
        repeat split; try done; subst d'; lia.
    + apply StronglySorted_cons. split; [|done].
      eapply Forall_impl; [exact Hall|]. simpl. intros v (? & ? & ?).
      unfold bytes_le. simpl. lia.
Qed.

Lemma same_status_forward l s :
  Forall (fun v => transfer_status v = s) l -> moves_forward l.
Proof.
  induction 1 as [|v l Hv Hl IH]; [constructor|].
  apply StronglySorted_cons. split; [|done].
  eapply Forall_impl; [exact Hl|]. simpl. intros w Hw.
  unfold forward. rewrite Hv, Hw. split; [lia | done].
Qed.

(** Goals about explicit lists of values, possibly around the values of
    the read loop, are split into goals about single values. *)
Ltac split_lists :=
  unfold never_decreases, moves_forward, within_total, full_when_completed;
  repeat match goal with
         | |- StronglySorted _ (_ :: _) => apply StronglySorted_cons; split
         | |- StronglySorted _ (_ ++ _) => apply StronglySorted_app; split; [|split]
         | |- StronglySorted _ [] => constructor
         | |- Forall _ (_ :: _) => apply Forall_cons; split
         | |- Forall _ (_ ++ _) => apply Forall_app; split
         | |- Forall _ [] => constructor
         | |- _ /\ _ => split
         end.

Ltac single_value :=
  unfold bytes_le, forward; cbn;
  repeat match goal with
         | H : transfer_status _ = _ |- _ => rewrite !H
         end;
  cbn;
  first [ lia | done | split; first [lia | done | intros; lia] | intros; lia ].

Ltac loop_value Hall :=
  first
    [ eapply Forall_impl; [exact Hall|]; simpl; intros ? (? & ? & ?); single_value
    | intros;
      repeat match goal with
             | H : _ ∈ _ ++ _ |- _ => apply elem_of_app in H as [H|H]
             | H : _ ∈ _ :: _ |- _ => apply elem_of_cons in H as [->|H]
             | H : _ ∈ [] |- _ => by apply elem_of_nil in H
             | H : ?x ∈ assigned _ |- _ =>
               destruct (proj1 (Forall_forall _ _) Hall x H) as (? & ? & ?); clear H
             end;
      single_value ].

Lemma request_values ratio io peerId bundleId st :
  let vs := assigned (snd (fst (requestBundle ratio io peerId bundleId st))) in
  never_decreases vs /\ moves_forward vs
  /\ (freshId io ∉ activeTransfers st ->
      size_not_negative io -> length_declared (download io) ->
      within_total vs /\ full_when_completed vs).
Proof.
  unfold requestBundle, size_not_negative, length_declared.
  destruct (discoveredPeers st !! peerId) as [p|]; [destruct (online p)|]; simpl.
  2,3: repeat split; constructor.
  destruct (tokenResponse io) as [msg|tr]; simpl.
  { destruct (decide (freshId io ∈ activeTransfers st)) as [Hin|Hout];
      [|repeat split; constructor].
    destruct (objects st !! freshId io) as [old|]; simpl; [|repeat split; constructor].
    split; [|split; [|done]]; split_lists; single_value. }
  match goal with
  | |- context [downloadBundle _ _ ?t] =>
    assert (Hbytes0 : transferredBytes t = 0) by done;
    assert (Htotal0 : totalBytes t = tr_size tr) by done;
    assert (Hstatus0 : transfer_status t = pending) by done;
    generalize dependent t; intros t0 Hbytes0 Htotal0 Hstatus0
  end.
  unfold downloadBundle, download_failed.
  destruct (mkdir_error (download io)) as [msg|]; simpl.
  { split; [|split; [|intros _ Hsize _; split]]; split_lists; single_value. }
  destruct (fetch_result (download io)) as [msg|ok line cl reader]; simpl.
  { split; [|split; [|intros _ Hsize _; split]]; split_lists; single_value. }
  destruct ok; simpl.
  2: { split; [|split; [|intros _ Hsize _; split]]; split_lists; single_value. }
  destruct reader as [body|]; simpl.
  2: { split; [|split; [|intros _ Hsize [Htotal _]; split]]; split_lists; single_value. }
  pose proof (bytes_delivered_nonneg (delivered body)) as Hbytes.
  set (t2 := set_totalBytes _ _).
  destruct (read_loop_values ratio (delivered body) (default 0 cl) 0 t2 Hbytes0)
    as (Hs & Ht & Hb & Hall & Hsorted).
  destruct (read_loop ratio (delivered body) (default 0 cl) 0 t2) as [t3 loop].
  simpl in Hs, Ht, Hb, Hall, Hsorted.
  pose proof (same_status_forward _ _ (Forall_impl _ _ _ Hall (fun v H => proj1 H))) as Hfw.
  destruct (read_error body) as [msg|]; simpl.
  - rewrite !assigned_app. simpl.
    split; [|split; [|intros _ Hsize (Htotal & Hle & _); split]]; split_lists;
      try done; try single_value; try loop_value Hall.
  - rewrite !assigned_app. simpl.
    split; [|split; [|intros _ Hsize (Htotal & Hle & Heq); specialize (Heq eq_refl); split]];
      split_lists; try done; try single_value; try loop_value Hall.
Qed.

Lemma download_completed_last ratio io t final effects :
  downloadBundle ratio io t = (final, effects, None) ->
  last (assigned effects) = Some final.
Proof.
  unfold downloadBundle, download_failed.
  repeat case_match; intros [= <- <-]; subst.
  unfold assigned. simpl. rewrite omap_app. simpl.
  by rewrite !app_comm_cons, last_app.
Qed.

Lemma with_download_transfers io path st :
  objects (with_download io path st) = objects st
  /\ activeTransfers (with_download io path st) = activeTransfers st.
Proof. unfold with_download. by destruct (downloaded io), (flushed io). Qed.

(** After [requestBundle] either nothing has happened, or the object is in
    the table and holds the last value assigned. *)
Lemma request_final ratio io peerId bundleId st :
  let r := requestBundle ratio io peerId bundleId st in
  (snd (fst r) = [] /\ fst (fst r) = st)
  \/ (freshId io ∈ activeTransfers (fst (fst r))
      /\ exists final, objects (fst (fst r)) !! freshId io = Some final
                       /\ last (assigned (snd (fst r))) = Some final).
Proof.
  unfold requestBundle.
  destruct (discoveredPeers st !! peerId) as [p|]; [destruct (online p)|]; simpl; auto.
  destruct (tokenResponse io) as [msg|tr]; simpl.
  { destruct (decide (freshId io ∈ activeTransfers st)) as [Hin|Hout]; [|auto].
    destruct (objects st !! freshId io) as [old|]; simpl; [|auto].
    right. split; [done|]. eexists. split; [apply lookup_insert_eq | done]. }
  right.
  destruct (downloadBundle _ _ _) as [[final effects] [msg|]] eqn:Hdl; simpl;
    match goal with
    | |- context [with_download ?d ?path ?s] =>
      destruct (with_download_transfers d path s) as [-> ->]
    end; simpl.
  - split; [set_solver|]. eexists. split; [apply lookup_insert_eq|].
    rewrite assigned_app. simpl.
    by rewrite app_comm_cons, last_app.
  - split; [set_solver|]. eexists. split; [apply lookup_insert_eq|].
    rewrite last_cons, (download_completed_last _ _ _ _ _ Hdl). done.
Qed.

Lemma sorted_last {A} (R : relation A) `{!Reflexive R} l x :
  StronglySorted R l -> last l = Some x -> Forall (fun v => R v x) l.
Proof.
  induction 1 as [|v l Hl IH Hv]; intros Hlast; [constructor|].
  destruct l as [|w l']; simpl in *.
  - injection Hlast as ->. by repeat constructor.
  - specialize (IH Hlast).
    constructor; [|done].
    rewrite Forall_forall in Hv. apply Hv.
    apply last_Some_elem_of. done.
Qed.

#[local] Instance bytes_le_refl : Reflexive bytes_le.
Proof. unfold bytes_le. intros a. lia. Qed.

Lemma cancel_values id st :
  assigned (snd (cancelTransfer id st)) = []
  \/ exists t, id ∈ activeTransfers st /\ objects st !! id = Some t
               /\ assigned (snd (cancelTransfer id st)) = [set_status cancelled t].
Proof.
  unfold cancelTransfer. case_decide; [|by left].
  destruct (objects st !! id) as [t|]; [|by left].
  right. by exists t.
Qed.

(** C6, as amended. Through [requestBundle], and a [cancelTransfer] that
    may follow, [transferredBytes] never decreases. When the transfer id is
    fresh, the size in the token response is not negative and the
    [content-length] header gives the number of body bytes, then
    [transferredBytes] stays within [totalBytes] and equals it when the
    status is completed. *)
Theorem progress_of_a_transfer ratio io peerId bundleId cancel st :
  let vs := assigned (lifetime ratio io peerId bundleId cancel st) in
  never_decreases vs
  /\ (freshId io ∉ activeTransfers st ->
      size_not_negative io ->
      length_declared (download io) ->
      within_total vs /\ full_when_completed vs).
Proof.
  unfold lifetime.
  pose proof (request_values ratio io peerId bundleId st) as (Hmono & _ & Hrest).
  pose proof (request_final ratio io peerId bundleId st) as Hfinal.
  destruct (requestBundle ratio io peerId bundleId st) as [[st' effects] out].
  simpl in Hmono, Hrest, Hfinal.
  destruct cancel; [|by split].
  rewrite assigned_app.
  destruct (cancel_values (freshId io) st') as [->|(t & Hin & Ht & ->)].
  { rewrite app_nil_r. by split. }
  destruct Hfinal as [[-> ->]|(_ & final & Hobj & Hlast)].
  - simpl. split; [by repeat constructor|]. intros Hfresh. done.
  - rewrite Ht in Hobj. injection Hobj as ->.
    pose proof (sorted_last bytes_le _ _ Hmono Hlast) as Hle.
    split.
    + apply StronglySorted_app. repeat split; [|done|by repeat constructor].
      intros x1 x2 Hx1 Hx2. apply list_elem_of_singleton in Hx2 as ->.
      rewrite Forall_forall in Hle. apply (Hle x1 Hx1).
    + intros Hfresh Hsize Hdecl. destruct (Hrest Hfresh Hsize Hdecl) as [Hwithin Hfull].
      split; apply Forall_app; (split; [done|]); repeat constructor; simpl; [|done].
      unfold within_total in Hwithin. rewrite Forall_forall in Hwithin.
      apply (Hwithin final). by apply last_Some_elem_of.
Qed.

Lemma progress_of_a_transfer_witness :
  let vs := assigned (lifetime no_ratio
                        (request_of (Some 5) [[x01; x02]; [x03; x04; x05]])
                        "60e05bd1b195af2f" "bundle-1" true puller) in
  never_decreases vs /\ within_total vs /\ full_when_completed vs.
Proof.
  intros vs.
  destruct (progress_of_a_transfer no_ratio
              (request_of (Some 5) [[x01; x02]; [x03; x04; x05]])
              "60e05bd1b195af2f" "bundle-1" true puller) as [Hmono Hrest].
  split; [exact Hmono|]. apply Hrest.
  - simpl. apply not_elem_of_empty.
  - unfold size_not_negative. simpl. lia.
  - unfold length_declared. simpl. lia.
Defined.

#[local] Instance bytes_le_dec : RelDecision bytes_le.
Proof. intros a b. unfold bytes_le. apply _. Defined.

#[local] Instance forward_dec : RelDecision forward.
Proof. intros a b. unfold forward. apply _. Defined.

(** C6 as the specification states it fails for a response without a
    [content-length] header: five bytes arrive, [totalBytes] is 0, and the
    transfer completes with [transferredBytes] 5. *)
Lemma progress_fails_without_content_length :
  let vs := assigned (lifetime no_ratio
                        (request_of None [[x01; x02]; [x03; x04; x05]])
                        "60e05bd1b195af2f" "bundle-1" false puller) in
  ~ (never_decreases vs /\ within_total vs /\ full_when_completed vs).
Proof.
  intros vs (_ & Hwithin & _). revert Hwithin. unfold within_total.
  apply (bool_decide_eq_false_1 _). vm_compute. reflexivity.
Qed.

(** The steps of the read loop are what [read_loop] does. *)
Lemma read_steps_agree ratio values total d t (on : bool) :
  perform (read_steps ratio values total d) {| object := t; listed := on |}
  = ({| object := fst (read_loop ratio values total d t); listed := on |},
     snd (read_loop ratio values total d t)).
Proof.
  revert d t. induction values as [|value rest IH]; intros d t; [done|].
  cbn [read_steps read_loop perform perform_step write object listed].
  rewrite IH.
  destruct (read_loop ratio rest total _ _) as [final effects]. simpl.
  by destruct (progress_due _ _ _ _).
Qed.

Lemma perform_app l1 l2 c :
  perform (l1 ++ l2) c
  = let '(c1, e1) := perform l1 c in
    let '(c2, e2) := perform l2 c1 in (c2, e1 ++ e2).
Proof.
  revert c. induction l1 as [|s l1 IH]; intros c; simpl.
  - by destruct (perform l2 c).
  - destruct (perform_step s c) as [c1 e1]. rewrite IH.
    destruct (perform l1 c1) as [c2 e2]. destruct (perform l2 c2) as [c3 e3].
    by rewrite app_assoc.
Qed.

(** Left alone, the steps of [downloadBundle] do what [downloadBundle]
    does. *)
Lemma download_steps_agree ratio io t (on : bool) :
  perform (fst (download_steps ratio io)) {| object := t; listed := on |}
  = ({| object := fst (fst (downloadBundle ratio io t)); listed := on |},
     snd (fst (downloadBundle ratio io t)))
  /\ snd (download_steps ratio io) = snd (downloadBundle ratio io t).
Proof.
  unfold download_steps, downloadBundle, download_failed.
  destruct (mkdir_error io) as [msg|]; [done|].
  destruct (fetch_result io) as [msg|ok line cl reader]; [done|].
  destruct ok; [|done]. cbn [negb].
  destruct reader as [body|]; [|done].
  pose proof (read_steps_agree ratio (delivered body) (default 0 cl) 0
                (set_totalBytes (default 0 cl) (set_status transferring t)) on) as Hloop.
  destruct (read_loop ratio (delivered body) (default 0 cl) 0 _) as [t3 loop].
  simpl in Hloop.
  destruct (read_error body) as [msg|]; (split; [|done]);
    cbn [app fst perform perform_step write object listed always];
    rewrite perform_app, Hloop; by cbn.
Qed.

(** Left alone, the steps of a request that has its token have the effects
    of [requestBundle]. *)
Lemma request_steps_agree ratio io peerId bundleId st p tr :
  discoveredPeers st !! peerId = Some p -> online p = true ->
  tokenResponse io = inr tr ->
  snd (fst (requestBundle ratio io peerId bundleId st))
  = Assign (new_transfer io peerId bundleId tr)
    :: snd (perform (request_steps ratio (download io))
              {| object := new_transfer io peerId bundleId tr; listed := true |}).
Proof.
  intros Hpeer Honline Htoken. unfold requestBundle, request_steps.
  rewrite Hpeer, Honline, Htoken. cbn [negb].
  destruct (download_steps_agree ratio (download io) (new_transfer io peerId bundleId tr) true)
    as [Hsteps Herr].
  destruct (download_steps ratio (download io)) as [steps err].
  destruct (downloadBundle ratio (download io) _) as [[final effects] err'].
  simpl in Hsteps, Herr. subst err'.
  destruct err as [message|]; cbn [fst snd].
  - rewrite perform_app, Hsteps. by cbn.
  - by rewrite Hsteps.
Qed.

(** [cancelTransfer] does what its two parts do one after the other. *)
Lemma cancel_steps_agree id st transfer :
  id ∈ activeTransfers st -> objects st !! id = Some transfer ->
  snd (cancelTransfer id st)
  = snd (perform (cancel_first ++ cancel_second) {| object := transfer; listed := true |}).
Proof.
  intros Hin Hobj. unfold cancelTransfer. rewrite decide_True by done. by rewrite Hobj.
Qed.

Lemma assigned_cons_step s c rest :
  assigned (snd (perform (s :: rest) c))
  = assigned (snd (perform_step s c)) ++ assigned (snd (perform rest (fst (perform_step s c)))).
Proof.
  cbn [perform]. destruct (perform_step s c) as [c1 e1]. cbn [fst snd].
  destruct (perform rest c1) as [c2 e2]. cbn [fst snd]. apply assigned_app.
Qed.

(** One step assigns nothing and leaves the object, or assigns once: the
    status that it writes, or another field. *)
Lemma perform_step_values s c :
  (assigned (snd (perform_step s c)) = []
   /\ object (fst (perform_step s c)) = object c
   /\ (guarded s = true \/ status_written s = None))
  \/ (assigned (snd (perform_step s c)) = [object (fst (perform_step s c))]
      /\ match status_written s with
         | Some s' => transfer_status (object (fst (perform_step s c))) = s'
         | None => transfer_status (object (fst (perform_step s c)))
                   = transfer_status (object c)
         end).
Proof.
  revert c. induction s as [s'|n|n|msg|test| | |s' IH]; intros c;
    try (right; by split); try (left; by repeat split; auto).
  - left. cbn. repeat split; auto. by destruct (test (object c)).
  - cbn [perform_step status_written guarded]. destruct (listed c).
    + destruct (IH c) as [(Hnone & Hobj & _)|Hone]; [|by right].
      left. repeat split; auto.
    + left. repeat split; auto.
Qed.

Lemma stepwise_cons R a l :
  stepwise R (a :: l) <-> match l with b :: _ => R a b /\ stepwise R l | [] => True end.
Proof. by destruct l. Qed.

Lemma later_overwrites (a b : TransferState) own :
  later own (transfer_status b) = true ->
  transfer_status a = own \/ transfer_status a = cancelled ->
  overwrites a b.
Proof.
  unfold later, overwrites, forward. intros Hlater [Ha|Ha]; [left|by right; right].
  apply andb_prop in Hlater as [Hrank Hterm]. apply bool_decide_eq_true in Hrank.
  rewrite Ha. split; [done|]. intros Hown. rewrite Hown in Hterm. simpl in Hterm.
  by apply bool_decide_eq_true in Hterm.
Qed.

Lemma same_overwrites (a b : TransferState) :
  transfer_status b = transfer_status a -> overwrites a b.
Proof. intros Hb. left. unfold forward. rewrite Hb. split; [lia | done]. Qed.

(** Steps in forward order, with writes of cancelled in between, take the
    status from one value to the next by a move forward or by overwriting. *)
Lemma in_order_stepwise steps own c :
  in_order own steps = true ->
  transfer_status (object c) = own \/ transfer_status (object c) = cancelled ->
  stepwise overwrites (object c :: assigned (snd (perform steps c))).
Proof.
  revert own c. induction steps as [|s rest IH]; intros own c Horder Hc; [done|].
  rewrite assigned_cons_step. cbn [in_order] in Horder.
  destruct (perform_step_values s c) as [(-> & Hobj & Hskip)|[-> Hnew]].
  - rewrite app_nil_l, <- Hobj.
    destruct (status_written s) as [s'|] eqn:Hs.
    + destruct Hskip as [Hguard|?]; [|done]. rewrite Hguard in Horder.
      apply (IH own); [|by rewrite Hobj].
      case_bool_decide; [done|]. simpl in Horder. by apply andb_prop in Horder as [_ ?].
    + apply (IH own); [done | by rewrite Hobj].
  - cbn [app]. apply stepwise_cons. 
    destruct (status_written s) as [s'|] eqn:Hs.
    + case_bool_decide as Hcancel.
      * split; [right; left; congruence|].
        apply (IH own); [done | right; congruence].
      * apply andb_prop in Horder as [Horder _]. apply andb_prop in Horder as [Hlater Hrest].
        split; [eapply later_overwrites; [by rewrite Hnew | done]|].
        apply (IH s'); [done | by left].
    + split; [by apply same_overwrites|].
      apply (IH own); [done | by rewrite Hnew].
Qed.

Lemma in_order_app_quiet own l1 l2 :
  Forall (fun s => status_written s = None) l1 ->
  in_order own (l1 ++ l2) = in_order own l2.
Proof. induction 1 as [|s l1 Hs _ IH]; [done|]. cbn [app in_order]. by rewrite Hs. Qed.

Lemma read_steps_quiet ratio values total d :
  Forall (fun s => status_written s = None) (read_steps ratio values total d).
Proof.
  revert d. induction values as [|value rest IH]; intros d; [constructor|].
  cbn [read_steps]. by repeat constructor.
Qed.

Lemma request_steps_in_order ratio io : in_order pending (request_steps ratio io) = true.
Proof.
  unfold request_steps, download_steps.
  destruct (mkdir_error io) as [msg|]; [done|].
  destruct (fetch_result io) as [msg|ok line cl reader]; [done|].
  destruct ok; [|done]. cbn [negb].
  destruct reader as [body|]; [|done].
  destruct (read_error body) as [msg|]; cbn [app in_order status_written];
    rewrite ?bool_decide_eq_false_2 by done; cbn [later rank is_terminal negb orb andb guarded];
    rewrite ?bool_decide_eq_true_2 by done; cbn [andb];
    rewrite <- ?app_assoc, in_order_app_quiet by apply read_steps_quiet; done.
Qed.

Lemma at_await_other n go_on s rest :
  s <> Await -> at_await n go_on (s :: rest) = s :: at_await n go_on rest.
Proof. by destruct s. Qed.

Lemma at_await_in_order n go_on steps own :
  (forall own' rest, in_order own' rest = true -> in_order own' (go_on rest) = true) ->
  in_order own steps = true -> in_order own (at_await n go_on steps) = true.
Proof.
  intros Hgo. revert n own. induction steps as [|s rest IH]; intros n own Horder.
  - by apply Hgo.
  - assert (Hcase : s = Await \/ s <> Await) by (destruct s; auto).
    destruct Hcase as [->|Hs].
    + destruct n; cbn [at_await in_order status_written] in *; [by apply Hgo | by apply IH].
    + rewrite at_await_other by done. cbn [in_order] in *.
      destruct (status_written s) as [s'|]; [|by apply IH].
      case_bool_decide; [by apply IH|].
      apply andb_prop in Horder as [Horder Hown]. apply andb_prop in Horder as [-> Hrest].
      rewrite (IH n s') by done. cbn [andb].
      destruct (guarded s); cbn [negb orb] in *; [by apply IH | done].
Qed.

Lemma cancelled_during_in_order n m steps own :
  in_order own steps = true -> in_order own (cancelled_during n m steps) = true.
Proof.
  intros Horder. unfold cancelled_during. apply at_await_in_order; [|done].
  intros own' rest Hrest. cbn [cancel_first app in_order status_written].
  rewrite bool_decide_eq_true_2 by done.
  destruct m as [|m']; [done|]. by apply at_await_in_order.
Qed.


(** C7, as amended. No status is guarded by the status that is there.
    Through a [requestBundle] with a fresh id that is left alone the status
    only moves forward along pending, transferring, completed or failed.
    [cancelTransfer] writes cancelled into the transfer that it finds in the
    table, whatever the status of that transfer is, reports it and takes it
    out of the table. When [cancelTransfer] runs while [requestBundle] is
    suspended, the request goes on writing: from one value of the object to
    the next the status moves forward, or cancelled is written over it, or
    it is written over cancelled. *)
Theorem status_of_a_transfer ratio io peerId bundleId st :
  (freshId io ∉ activeTransfers st ->
   moves_forward (assigned (lifetime ratio io peerId bundleId false st)))
  /\ (forall id st' transfer,
        id ∈ activeTransfers st' -> objects st' !! id = Some transfer ->
        snd (cancelTransfer id st')
        = [Assign (set_status cancelled transfer); Notify (set_status cancelled transfer)]
        /\ objects (fst (cancelTransfer id st')) !! id = Some (set_status cancelled transfer)
        /\ id ∉ activeTransfers (fst (cancelTransfer id st')))
  /\ (forall n m,
        stepwise overwrites (assigned (interrupted ratio io peerId bundleId n m st))).
Proof.
  split; [|split].
  - intros _. unfold lifetime.
    pose proof (request_values ratio io peerId bundleId st) as (_ & Hfw & _).
    by destruct (requestBundle ratio io peerId bundleId st) as [[? ?] ?].
  - intros id st' transfer Hin Hobj. unfold cancelTransfer.
    rewrite decide_True by done. rewrite Hobj. cbn [fst snd].
    split; [done|]. split; [apply lookup_insert_eq | set_solver].
  - intros n m. unfold interrupted, requestBundle.
    destruct (discoveredPeers st !! peerId) as [p|]; [|done].
    destruct (tokenResponse io) as [msg|tr].
    + destruct (online p); [|done]. cbn [negb].
      destruct (if decide _ then _ else _) as [old|]; [|done].
      cbn. split; [|done]. by apply same_overwrites.
    + destruct (online p); [|done].
      apply (in_order_stepwise _ pending
               {| object := new_transfer io peerId bundleId tr; listed := true |});
        [|by left].
      apply cancelled_during_in_order, request_steps_in_order.
Qed.

Lemma status_of_a_transfer_witness :
  let st' := fst (fst (requestBundle no_ratio
                         (request_of (Some 5) [[x01; x02]; [x03; x04; x05]])
                         "60e05bd1b195af2f" "bundle-1" puller)) in
  exists transfer,
    objects st' !! "transfer_1736294400000_k3j9x0q1z" = Some transfer
    /\ transfer_status transfer = completed
    /\ snd (cancelTransfer "transfer_1736294400000_k3j9x0q1z" st')
       = [Assign (set_status cancelled transfer); Notify (set_status cancelled transfer)]
    /\ "transfer_1736294400000_k3j9x0q1z"
       ∉ activeTransfers (fst (cancelTransfer "transfer_1736294400000_k3j9x0q1z" st')).
Proof.
  intros st'.
  destruct (status_of_a_transfer no_ratio
              (request_of (Some 5) [[x01; x02]; [x03; x04; x05]])
              "60e05bd1b195af2f" "bundle-1" puller) as (_ & Hcancel & _).
  eexists. split; [vm_compute; reflexivity|]. split; [reflexivity|].
  edestruct (Hcancel "transfer_1736294400000_k3j9x0q1z" st') as (Heffects & _ & Hout).
  - apply (bool_decide_unpack _). vm_compute. exact I.
  - vm_compute. reflexivity.
  - split; [exact Heffects | exact Hout].
Defined.

(** C7 as the specification states it fails when a completed transfer,
    still in the table, is cancelled: its status goes from completed to
    cancelled. *)
Lemma completed_transfer_becomes_cancelled :
  let vs := assigned (lifetime no_ratio
                        (request_of (Some 5) [[x01; x02]; [x03; x04; x05]])
                        "60e05bd1b195af2f" "bundle-1" true puller) in
  map transfer_status vs =
    [pending; transferring; transferring; transferring; transferring; completed; cancelled]
  /\ map transfer_status
       (notified (lifetime no_ratio
                    (request_of (Some 5) [[x01; x02]; [x03; x04; x05]])
                    "60e05bd1b195af2f" "bundle-1" true puller))
     = [transferring; completed; cancelled]
  /\ ~ moves_forward vs.
Proof.
  intros vs. split; [vm_compute; reflexivity|]. split; [vm_compute; reflexivity|].
  unfold moves_forward. apply (bool_decide_eq_false_1 _). vm_compute. reflexivity.
Qed.
(** A transfer that is cancelled while its download waits for the body
    does not stay cancelled: the download goes on, counts the bytes and
    writes completed into the object, which the table no longer holds. *)
Lemma cancelled_transfer_becomes_completed :
  map transfer_status
    (assigned (interrupted no_ratio (request_of (Some 5) [[x01; x02]; [x03; x04; x05]])
                 "60e05bd1b195af2f" "bundle-1" 2 0 puller))
  = [pending; transferring; transferring; cancelled; cancelled; cancelled; completed]
  /\ map transfer_status
       (notified (interrupted no_ratio (request_of (Some 5) [[x01; x02]; [x03; x04; x05]])
                    "60e05bd1b195af2f" "bundle-1" 2 0 puller))
     = [transferring; cancelled; completed]
  /\ ~ moves_forward
        (assigned (interrupted no_ratio (request_of (Some 5) [[x01; x02]; [x03; x04; x05]])
                     "60e05bd1b195af2f" "bundle-1" 2 0 puller)).
Proof.
  split; [vm_compute; reflexivity|]. split; [vm_compute; reflexivity|].
  unfold moves_forward. apply (bool_decide_eq_false_1 _). vm_compute. reflexivity.
Qed.

(** A [cancelTransfer] that comes when the request is no longer suspended
    is the [cancelTransfer] that follows [requestBundle]. *)
Lemma cancel_after_the_end :
  interrupted no_ratio (request_of (Some 5) [[x01; x02]; [x03; x04; x05]])
    "60e05bd1b195af2f" "bundle-1" 5 0 puller
  = lifetime no_ratio (request_of (Some 5) [[x01; x02]; [x03; x04; x05]])
      "60e05bd1b195af2f" "bundle-1" true puller.
Proof. vm_compute. reflexivity. Qed.

End TransferLifetimeFacts.

(** ** Exclusion rules of the encoder *)
Module ExclusionFacts.
Import FileBundler.

Lemma append_assoc (a b c : string) : (a +:+ b) +:+ c = a +:+ b +:+ c.
Proof.
  induction a as [|x a IH]; [done|].
  change (String x ((a +:+ b) +:+ c) = String x (a +:+ b +:+ c)). by f_equal.
Qed.

Lemma prefix_append (a b : string) : String.prefix a (a +:+ b) = true.
Proof.
  induction a as [|c a IH]; [by destruct b|].
  change (String.prefix (String c a) (String c (a +:+ b)) = true). simpl.
  destruct (ascii_dec c c); [done | congruence].
Qed.

(** A pattern without a star excludes the path equal to it and every path
    below it. The patterns before it must be such that [shouldExclude] gets
    past them without an error. *)
Lemma shouldExclude_directory (filePath pattern : string) (before after : list string) :
  includes_star pattern = false ->
  (filePath = pattern \/ exists rest, filePath = pattern +:+ "/" +:+ rest) ->
  (forall p, p ∈ before -> includes_star p = true ->
             exists re, RegExp (replace_star p) = Ok re) ->
  shouldExclude filePath (before ++ pattern :: after) = Ok true.
Proof.
  intros Hplain Hpath Hbefore.
  induction before as [|p before IH]; simpl.
  - rewrite Hplain. destruct Hpath as [->|[rest ->]].
    + by rewrite String.eqb_refl.
    + unfold startsWith.
      by rewrite <- append_assoc, prefix_append, orb_true_r.
  - rewrite IH by (intros q Hq; apply Hbefore; by right).
    destruct (includes_star p) eqn:Hp.
    + destruct (Hbefore p ltac:(by left) Hp) as [re ->]. simpl. by case_match.
    + by case_match.
Qed.

(** Every directory name of the fixed list excludes what lies below it,
    whatever the caller adds. *)
Lemma default_directories_excluded (dir rest : string) (extra : list string) :
  dir ∈ DEFAULT_EXCLUDES -> dir <> "*.log" ->
  shouldExclude dir (DEFAULT_EXCLUDES ++ extra) = Ok true
  /\ shouldExclude (dir +:+ "/" +:+ rest) (DEFAULT_EXCLUDES ++ extra) = Ok true.
Proof.
  intros Hin Hne.
  apply list_elem_of_split in Hin as (before & after & Heq).
  assert (Hplain : includes_star dir = false).
  { assert (Hall : Forall (fun p => p = "*.log" \/ includes_star p = false) DEFAULT_EXCLUDES)
      by (apply (bool_decide_unpack _); vm_compute; exact I).
    rewrite Heq in Hall. apply Forall_app in Hall as [_ Hall].
    apply Forall_cons in Hall as [[?|?] _]; done. }
  assert (Hbefore : forall p, p ∈ before -> includes_star p = true ->
                              exists re, RegExp (replace_star p) = Ok re).
  { assert (Hall : Forall (fun p => compiles p = true) DEFAULT_EXCLUDES)
      by (apply (bool_decide_unpack _); vm_compute; exact I).
    rewrite Heq in Hall. apply Forall_app in Hall as [Hall _].
    rewrite Forall_forall in Hall. intros p Hp _. specialize (Hall p Hp).
    unfold compiles in Hall. destruct (RegExp (replace_star p)); [eauto | done]. }
  rewrite Heq, <- !app_assoc. simpl.
  split; apply shouldExclude_directory; auto. eauto.
Qed.

(** [*.log] excludes [app.log]. *)
Lemma log_file_excluded :
  shouldExclude "app.log" ["*.log"] = Ok true
  /\ shouldExclude "app.log" DEFAULT_EXCLUDES = Ok true.
Proof. split; vm_compute; reflexivity. Qed.

(** C5. [*.log] becomes the expression [.*.log], which is tested without
    anchors, so it is found inside [app.logger]: the path [app.logger] is
    excluded, by the pattern alone and by the fixed list. *)
Theorem logger_file_excluded :
  RegExp (replace_star "*.log") = Ok [AnyStar; AnyChar; Lit "l"; Lit "o"; Lit "g"]
  /\ shouldExclude "app.logger" ["*.log"] = Ok true
  /\ shouldExclude "app.logger" DEFAULT_EXCLUDES = Ok true.
Proof. repeat split; vm_compute; reflexivity. Qed.

End ExclusionFacts.

(** ** Buffers *)
Module BufferFacts.

Lemma Z_of_byte_bounds (b : byte) : 0 <= Z_of_byte b < 256.
Proof.
  unfold Z_of_byte. pose proof (Byte.to_N_bounded b) as Hb.
  split; [apply N2Z.is_nonneg|]. apply N.lt_succ_r in Hb.
  change 256 with (Z.of_N 256). by apply N2Z.inj_lt.
Qed.

Lemma Z_of_byte_of_Z (z : Z) : Z_of_byte (byte_of_Z z) = z mod 256.
Proof.
  unfold Z_of_byte, byte_of_Z.
  pose proof (Z.mod_pos_bound z 256 ltac:(lia)) as Hz.
  destruct (Byte.of_N (Z.to_N (z mod 256))) as [b|] eqn:Hb.
  - apply Byte.to_of_N in Hb. simpl. rewrite Hb. lia.
  - apply Byte.of_N_None_iff in Hb. lia.
Qed.

Lemma bytesBE_length (k : nat) (n : Z) : length (bytesBE k n) = k.
Proof.
  revert n. induction k as [|k IH]; intros n; simpl; [done|].
  rewrite length_app, IH. simpl. lia.
Qed.

Lemma readUIntBE_snoc (l : list byte) (b : byte) :
  readUIntBE (l ++ [b]) = readUIntBE l * 256 + Z_of_byte b.
Proof. unfold readUIntBE. by rewrite fold_left_app. Qed.

(** Writing a number that fits into [k] bytes and reading it back gives the
    number. *)
Lemma readUIntBE_bytesBE (k : nat) (n : Z) :
  0 <= n < 256 ^ Z.of_nat k -> readUIntBE (bytesBE k n) = n.
Proof.
  revert n. induction k as [|k IH]; intros n Hn.
  - simpl in *. unfold readUIntBE. simpl. lia.
  - simpl bytesBE. rewrite readUIntBE_snoc, Z_of_byte_of_Z, IH.
    + pose proof (Z.div_mod n 256 ltac:(lia)). lia.
    + rewrite Nat2Z.inj_succ, Z.pow_succ_r in Hn by lia.
      split; [apply Z.div_pos; lia|]. apply Z.div_lt_upper_bound; lia.
Qed.

#[local] Opaque bytesBE.

Lemma writeUInt32BE_Ok (n : Z) (buf : list byte) :
  writeUInt32BE n = Ok buf ->
  0 <= n < 2 ^ 32 /\ buf = bytesBE 4 n /\ length buf = 4%nat /\ readUIntBE buf = n.
Proof.
  unfold writeUInt32BE. intros Hw.
  destruct ((0 <=? n) && (n <? 2 ^ 32)) eqn:Hr; [|done]. injection Hw as <-.
  apply andb_prop in Hr as [H1 H2]. apply Z.leb_le in H1. apply Z.ltb_lt in H2.
  split; [lia|]. split; [done|]. split; [apply bytesBE_length|].
  apply readUIntBE_bytesBE. simpl. lia.
Qed.

Lemma writeBigUInt64BE_Ok (n : Z) (buf : list byte) :
  writeBigUInt64BE n = Ok buf ->
  0 <= n < 2 ^ 64 /\ buf = bytesBE 8 n /\ length buf = 8%nat /\ readUIntBE buf = n.
Proof.
  unfold writeBigUInt64BE. intros Hw.
  destruct ((0 <=? n) && (n <? 2 ^ 64)) eqn:Hr; [|done]. injection Hw as <-.
  apply andb_prop in Hr as [H1 H2]. apply Z.leb_le in H1. apply Z.ltb_lt in H2.
  split; [lia|]. split; [done|]. split; [apply bytesBE_length|].
  apply readUIntBE_bytesBE. simpl. lia.
Qed.

End BufferFacts.

(** ** Bundle decoder *)
Module DecoderFacts.
Import BundleExtractor BundleLayout BufferFacts.

#[local] Opaque bytesBE.

Section Decoder.
Context `{R : NodeRuntime}.

Lemma readBytes_hear (count : Z) (w : world) :
  readBytes count w =
  ({| stream := fst (hear (closed w) count (stream w)); closed := closed w;
      files := files w; made := made w |},
   snd (hear (closed w) count (stream w))).
Proof. unfold readBytes, hear. by destruct (onData count [] (stream w)) as [[? ?]|]. Qed.

(** A chunk that starts with a field is enough for the read of that field;
    what follows the field in the chunk is gone. *)
Lemma hear_field (c : closing) (count : Z) (field chunk : list byte) rest :
  count = Z.of_nat (length field) -> field `prefix_of` chunk ->
  hear c count (chunk :: rest) = (rest, Ok field).
Proof.
  intros -> [junk ->]. unfold hear. cbn [onData app].
  destruct (Z.leb_spec (Z.of_nat (length field)) (Z.of_nat (length (field ++ junk))))
    as [_|Hlt]; [|rewrite length_app in Hlt; lia].
  by rewrite Nat2Z.id, take_app_length.
Qed.

(** A read that finds fewer bytes than it wants in all the chunks that are
    to come ends as the stream closes. *)
Lemma onData_short (count : Z) (buffer : list byte) (chunks : list (list byte)) :
  Z.of_nat (length buffer + length (concat chunks)) < count ->
  onData count buffer chunks = None.
Proof.
  revert buffer. induction chunks as [|chunk rest IH]; intros buffer Hshort; [done|].
  cbn [onData]. cbn [concat] in Hshort. rewrite length_app in Hshort.
  destruct (Z.leb_spec count (Z.of_nat (length (buffer ++ chunk)))) as [Hle|_].
  - rewrite length_app in Hle. lia.
  - apply IH. rewrite length_app. lia.
Qed.

Lemma hear_short (c : closing) (count : Z) (chunks : list (list byte)) :
  Z.of_nat (length (concat chunks)) < count ->
  hear c count chunks = ([], Err (rejection c)).
Proof. intros Hshort. unfold hear. by rewrite onData_short. Qed.

(** Every read takes one chunk or more. *)
Lemma onData_shorter (count : Z) (buffer : list byte) (chunks : list (list byte)) bytes rest :
  onData count buffer chunks = Some (bytes, rest) ->
  (length rest < length chunks)%nat.
Proof.
  revert buffer. induction chunks as [|chunk more IH]; intros buffer; [done|].
  cbn [onData]. case_match.
  - intros [= _ <-]. simpl. lia.
  - intros Hmore. apply IH in Hmore. simpl. lia.
Qed.

Lemma hear_shorter (c : closing) (count : Z) (chunks : list (list byte)) bytes rest :
  hear c count chunks = (rest, Ok bytes) -> (length rest < length chunks)%nat.
Proof.
  unfold hear. destruct (onData count [] chunks) as [[b r]|] eqn:Hdata; [|done].
  intros [= <- <-]. by eapply onData_shorter.
Qed.

Lemma declaredRecords_complete (c : closing) (n : nat) (s : list (list byte)) recs rest :
  declaredRecords c n s = (recs, rest, None) -> length recs = n.
Proof.
  revert s recs rest. induction n as [|n IH]; intros s recs rest; simpl.
  - by intros [= <- _].
  - repeat case_match; try done. subst. intros [= <- <- ->]. simpl. f_equal. eauto.
Qed.

Lemma writeAll_snoc (extractPath : string) recs rec (dest : gmap string (list byte)) :
  writeAll extractPath (recs ++ [rec]) dest
  = <[path_join extractPath (fst rec) := snd rec]> (writeAll extractPath recs dest).
Proof. unfold writeAll. by rewrite foldl_app. Qed.

Lemma mkdir_above_files path w :
  files (fst (mkdir_above path w)) = files w
  /\ stream (fst (mkdir_above path w)) = stream w
  /\ closed (fst (mkdir_above path w)) = closed w.
Proof. unfold mkdir_above. by case_decide. Qed.

(** The decoder loop writes records that the stream declares, in their
    order, and nothing else; when it returns it has written them all. *)
Lemma extractFiles_reads (extractPath : string) (n : nat) (fileCount totalSize : Z)
    (w : world) recs rest err w' r :
  declaredRecords (closed w) n (stream w) = (recs, rest, err) ->
  extractFiles extractPath n fileCount totalSize w = (w', r) ->
  match r with
  | Ok counts =>
    err = None /\ fst counts = fileCount + Z.of_nat (length recs)
    /\ files w' = writeAll extractPath recs (files w)
  | Err e => written_by extractPath (files w) (files w') recs
  end.
Proof.
  unfold written_by. revert fileCount totalSize w recs rest err w' r.
  induction n as [|n IH]; intros fileCount totalSize w recs rest err w' r; simpl.
  - intros [= <- <- <-] [= <- <-]. simpl. by rewrite Z.add_0_r.
  - unfold mbind, Ext_bind. rewrite readBytes_hear.
    destruct (hear (closed w) 4 (stream w)) as [s1 [b1|e1]]; simpl;
      [|intros [= <- <- <-] [= <- <-]; exists 0%nat; reflexivity].
    rewrite readBytes_hear; simpl.
    destruct (hear (closed w) (readUIntBE b1) s1) as [s2 [b2|e2]]; simpl;
      [|intros [= <- <- <-] [= <- <-]; exists 0%nat; reflexivity].
    rewrite readBytes_hear; simpl.
    destruct (hear (closed w) 8 s2) as [s3 [b3|e3]]; simpl;
      [|intros [= <- <- <-] [= <- <-]; exists 0%nat; reflexivity].
    unfold mkdir_above. simpl.
    case_decide as Hblocked; simpl.
    { intros _ [= <- <-]. exists 0%nat. reflexivity. }
    rewrite readBytes_hear; simpl.
    destruct (hear (closed w) (Number_of_BigInt (readUIntBE b3)) s3) as [s4 [b4|e4]]; simpl;
      [|intros [= <- <- <-] [= <- <-]; exists 0%nat; reflexivity].
    destruct (declaredRecords (closed w) n s4) as [[recs0 rest0] err0] eqn:Hd.
    intros [= <- <- <-].
    unfold writeFile. simpl.
    case_decide as Hdir; simpl.
    { intros [= <- <-]. exists 0%nat. reflexivity. }
    intros Hrun. eapply (IH _ _ _ recs0 rest0 err0) in Hrun; [|exact Hd].
    simpl in Hrun. destruct r as [counts|e].
    + destruct Hrun as (-> & -> & ->). repeat split; try done. simpl. lia.
    + destruct Hrun as [k ->]. by exists (S k).
Qed.

Lemma written_by_all (extractPath : string) (before : gmap string (list byte)) recs :
  written_by extractPath before (writeAll extractPath recs before) recs.
Proof. exists (length recs). by rewrite firstn_all. Qed.

(** [decode] reads the header and then the records, writes the records in
    their order and the manifest file last; an error leaves what has been
    written until then. *)
Lemma decode_reads (extractPath : string) (w w' : world) r :
  decode extractPath w = (w', r) ->
  match declaredHeader (closed w) (stream w) with
  | None => files w' = files w /\ exists e, r = Err e
  | Some (m, count, s3) =>
    match r with
    | Ok res =>
      exists rest,
        declaredRecords (closed w) (Z.to_nat count) s3
        = (take (Z.to_nat (fileCount res)) (fst (fst (declaredRecords (closed w)
                                                       (Z.to_nat count) s3))),
           rest, None)
        /\ manifest res = m
        /\ fileCount res
           = Z.of_nat (length (fst (fst (declaredRecords (closed w) (Z.to_nat count) s3))))
        /\ files w'
           = <[manifestPath extractPath := manifestFile m]>
               (writeAll extractPath
                  (fst (fst (declaredRecords (closed w) (Z.to_nat count) s3))) (files w))
    | Err e =>
      written_by extractPath (files w) (files w')
        (fst (fst (declaredRecords (closed w) (Z.to_nat count) s3)))
    end
  end.
Proof.
  unfold declaredHeader, decode, mbind, Ext_bind.
  rewrite readBytes_hear.
  destruct (hear (closed w) 4 (stream w)) as [s1 [b1|e1]]; simpl;
    [|intros [= <- <-]; by eauto].
  rewrite readBytes_hear; simpl.
  destruct (hear (closed w) (readUIntBE b1) s1) as [s2 [b2|e2]]; simpl;
    [|intros [= <- <-]; by eauto].
  destruct (JSON_parse (string_of_list_byte b2)) as [m|]; simpl;
    [|unfold throw; intros [= <- <-]; by eauto].
  rewrite readBytes_hear; simpl.
  destruct (hear (closed w) 4 s2) as [s3 [b3|e3]]; simpl;
    [|intros [= <- <-]; by eauto].
  destruct (declaredRecords (closed w) (Z.to_nat (readUIntBE b3)) s3)
    as [[recs rest] err] eqn:Hd.
  destruct (extractFiles extractPath (Z.to_nat (readUIntBE b3)) 0 0 _) as [w1 [counts|e]]
    eqn:Hrun; simpl.
  - eapply (extractFiles_reads _ _ _ _ _ recs rest err) in Hrun; [|exact Hd].
    simpl in Hrun. destruct Hrun as (-> & Hcount & Hfiles).
    unfold writeFile. case_decide as Hdir; simpl.
    + intros [= <- <-]. rewrite Hfiles. apply written_by_all.
    + intros [= <- <-]. simpl. rewrite Hcount, Z.add_0_l, Nat2Z.id, firstn_all.
      exists rest. by rewrite Hfiles.
  - intros [= <- <-].
    by eapply (extractFiles_reads _ _ _ _ _ recs rest err) in Hrun.
Qed.

Lemma dom_writeAll (extractPath : string) recs (dest : gmap string (list byte)) :
  dom (writeAll extractPath recs dest)
  = list_to_set ((fun rec => path_join extractPath (fst rec)) <$> recs) ∪ dom dest.
Proof.
  revert dest. induction recs as [|rec recs IH]; intros dest; simpl.
  - set_solver.
  - unfold writeAll in *. simpl. rewrite IH, dom_insert_L. set_solver.
Qed.

(** What a successful extraction has read and written. *)
Lemma performExtraction_returns (bundle : delivery) (extractPath : string)
    (dest : gmap string (list byte)) (r : ExtractionResult) :
  snd (performExtraction bundle extractPath dest) = Ok r ->
  exists count s3 recs rest,
    declaredHeader (closes bundle) (heard bundle) = Some (manifest r, count, s3)
    /\ declaredRecords (closes bundle) (Z.to_nat count) s3 = (recs, rest, None)
    /\ fileCount r = Z.of_nat (length recs)
    /\ fst (performExtraction bundle extractPath dest)
       = <[manifestPath extractPath := manifestFile (manifest r)]>
           (writeAll extractPath recs dest)
    /\ dom (fst (performExtraction bundle extractPath dest))
       = {[ manifestPath extractPath ]}
         ∪ list_to_set ((fun rec => path_join extractPath (fst rec)) <$> recs)
         ∪ dom dest.
Proof.
  unfold performExtraction.
  destruct (decode extractPath _) as [w' r'] eqn:Hdecode. simpl. intros ->.
  apply decode_reads in Hdecode. simpl in Hdecode.
  destruct (declaredHeader (closes bundle) (heard bundle)) as [[[m count] s3]|];
    [|by destruct Hdecode as (_ & e & ?)].
  destruct Hdecode as (rest & Hrecs & <- & Hcount & Hfiles).
  destruct (declaredRecords (closes bundle) (Z.to_nat count) s3) as [[recs rest'] err]
    eqn:Hd.
  simpl in *. rewrite Hcount, Nat2Z.id, firstn_all in Hrecs. injection Hrecs as -> ->.
  exists count, s3, recs, rest. repeat split; try done.
  rewrite Hfiles, dom_insert_L, dom_writeAll. set_solver.
Qed.

(** C10, as amended. After a successful extraction the destination holds
    what it held before, the files of the records that the reads have found
    in the stream, written in their order, and [devshare.yml] with the YAML
    rendering of the decoded manifest, written last; nothing else. The
    number of records is the [fileCount] returned. *)
Theorem extraction_writes_declared_files (bundle : delivery) (extractPath : string)
    (dest : gmap string (list byte)) (r : ExtractionResult) :
  snd (performExtraction bundle extractPath dest) = Ok r ->
  exists count s3 recs rest,
    declaredHeader (closes bundle) (heard bundle) = Some (manifest r, count, s3)
    /\ declaredRecords (closes bundle) (Z.to_nat count) s3 = (recs, rest, None)
    /\ fileCount r = Z.of_nat (length recs)
    /\ fst (performExtraction bundle extractPath dest)
       = <[manifestPath extractPath := manifestFile (manifest r)]>
           (writeAll extractPath recs dest)
    /\ dom (fst (performExtraction bundle extractPath dest))
       = {[ manifestPath extractPath ]}
         ∪ list_to_set ((fun rec => path_join extractPath (fst rec)) <$> recs)
         ∪ dom dest.
Proof. apply performExtraction_returns. Qed.

(** A failed extraction has written records that the reads have found in
    the stream, the first of them first, and has taken nothing back; the
    manifest file is not written. *)
Lemma failed_extraction_keeps_files (bundle : delivery) (extractPath : string)
    (dest : gmap string (list byte)) (e : error) :
  snd (performExtraction bundle extractPath dest) = Err e ->
  exists recs,
    fst (performExtraction bundle extractPath dest) = writeAll extractPath recs dest
    /\ match declaredHeader (closes bundle) (heard bundle) with
       | Some (m, count, s3) =>
         recs `prefix_of` fst (fst (declaredRecords (closes bundle) (Z.to_nat count) s3))
       | None => recs = []
       end.
Proof.
  unfold performExtraction.
  destruct (decode extractPath _) as [w' r'] eqn:Hdecode. simpl. intros ->.
  apply decode_reads in Hdecode. simpl in Hdecode.
  destruct (declaredHeader (closes bundle) (heard bundle)) as [[[m count] s3]|].
  - destruct Hdecode as [k ->]. eexists. split; [done|]. apply prefix_take.
  - destruct Hdecode as [-> _]. by exists [].
Qed.

Hypothesis Number_exact : forall n, 0 <= n <= MAX_SAFE -> Number_of_BigInt n = n.

Lemma readBytes_field (count : Z) (field chunk : list byte) rest cl fs md :
  count = Z.of_nat (length field) -> field `prefix_of` chunk ->
  readBytes count {| stream := chunk :: rest; closed := cl; files := fs; made := md |}
  = ({| stream := rest; closed := cl; files := fs; made := md |}, Ok field).
Proof.
  intros Hcount Hfield. rewrite readBytes_hear. cbn [stream closed files made].
  by rewrite (hear_field _ _ field).
Qed.

Lemma mkdir_above_free keys extractPath p (w : world) :
  within keys extractPath w -> free keys extractPath p ->
  mkdir_above p w
  = ({| stream := stream w; closed := closed w; files := files w;
        made := {[ p ]} ∪ made w |}, Ok tt).
Proof.
  intros [Hfiles _] (_ & _ & Hfree). unfold mkdir_above.
  rewrite decide_False; [done|]. intros (k & Hk & Hbelow).
  rewrite Forall_forall in Hfree. destruct (Hfree k (Hfiles k Hk)) as [Hno _]. congruence.
Qed.

Lemma writeFile_free keys extractPath p data (w : world) :
  within keys extractPath w -> free keys extractPath p ->
  writeFile p data w
  = ({| stream := stream w; closed := closed w; files := <[p := data]> (files w);
        made := made w |}, Ok tt).
Proof.
  intros [Hfiles Hmade] (_ & Hroot & Hfree). unfold writeFile.
  rewrite decide_False; [done|]. intros (k & Hk & Hbelow).
  rewrite Forall_forall in Hfree.
  apply elem_of_union in Hk as [Hk|Hk].
  - destruct (Hfree k (Hfiles k Hk)) as [_ Hno]. congruence.
  - destruct (Hmade k Hk) as [Hkey| ->].
    + destruct (Hfree k Hkey) as [_ Hno]. congruence.
    + congruence.
Qed.

(** The decoder loop on records that come field by field, into a
    destination where nothing is in their way: the records are written, and
    the loop goes on behind them. *)
Lemma extractFiles_carried (keys : list string) (extractPath : string)
    (recs : list (string * list byte)) :
  forall (chunks rest : list (list byte)) (n : nat) (fileCount totalSize : Z) (w : world),
    stream w = chunks ++ rest ->
    carries chunks (flat_map recordFields recs) ->
    Forall sized recs ->
    within keys extractPath w ->
    Forall (fun rec => free keys extractPath (path_join extractPath (fst rec))) recs ->
    exists w' totalSize',
      extractFiles extractPath (length recs + n) fileCount totalSize w
      = extractFiles extractPath n (fileCount + Z.of_nat (length recs)) totalSize' w'
      /\ stream w' = rest /\ closed w' = closed w
      /\ files w' = writeAll extractPath recs (files w)
      /\ within keys extractPath w'.
Proof.
  induction recs as [|[p c] recs IH];
    intros chunks rest n fileCount totalSize w Hstream Hcarries Hsized Hwithin Hfree.
  - apply Forall2_nil_inv_r in Hcarries as ->. exists w, totalSize.
    simpl. rewrite Z.add_0_r. by destruct w.
  - cbn [flat_map recordFields app fst snd] in Hcarries.
    apply Forall2_cons_inv_r in Hcarries as (c1 & chunks1 & H1 & Hcarries & ->).
    apply Forall2_cons_inv_r in Hcarries as (c2 & chunks2 & H2 & Hcarries & ->).
    apply Forall2_cons_inv_r in Hcarries as (c3 & chunks3 & H3 & Hcarries & ->).
    apply Forall2_cons_inv_r in Hcarries as (c4 & chunks4 & H4 & Hcarries & ->).
    apply Forall_cons in Hsized as [[Hp Hc] Hsized]. simpl in Hp, Hc.
    apply Forall_cons in Hfree as [Hfree_p Hfree]. simpl in Hfree_p.
    destruct w as [s cl fs md]. cbn [stream closed files made] in *. subst s.
    cbn [length Nat.add extractFiles app]. unfold mbind, Ext_bind.
    rewrite (readBytes_field 4 (bytesBE 4 (Z.of_nat (length (list_byte_of_string p)))))
      by (by rewrite ?bytesBE_length).
    rewrite readUIntBE_bytesBE by (simpl; lia).
    rewrite (readBytes_field _ (list_byte_of_string p)) by done.
    rewrite (readBytes_field 8 (bytesBE 8 (Z.of_nat (length c))))
      by (by rewrite ?bytesBE_length).
    rewrite readUIntBE_bytesBE by (unfold MAX_SAFE in Hc; simpl; lia).
    rewrite Number_exact by lia.
    rewrite string_of_list_byte_of_string.
    rewrite (mkdir_above_free keys extractPath) by done.
    cbn [stream closed files made].
    rewrite (readBytes_field _ c) by done.
    assert (Hwithin1 : within keys extractPath
              {| stream := chunks4 ++ rest; closed := cl; files := fs;
                 made := {[path_join extractPath p]} ∪ md |}).
    { destruct Hwithin as [Hf Hm]. split; [done|]. simpl. intros k Hk.
      apply elem_of_union in Hk as [Hk|Hk]; [|by apply Hm].
      apply elem_of_singleton in Hk as ->. left. apply Hfree_p. }
    rewrite (writeFile_free keys extractPath) by done.
    cbn [stream closed files made].
    match goal with
    | |- context [extractFiles _ _ ?fc ?ts ?w1] =>
      destruct (IH chunks4 rest n fc ts w1 eq_refl Hcarries Hsized) as
        (w' & ts' & Hrun & Hrest & Hclosed & Hfiles & Hwithin'); [|done|]
    end.
    { destruct Hwithin1 as [Hf Hm]. split; [|done]. simpl. intros k Hk.
      rewrite dom_insert in Hk. apply elem_of_union in Hk as [Hk|Hk]; [|by apply Hf].
      apply elem_of_singleton in Hk as ->. apply Hfree_p. }
    exists w', ts'. rewrite Hrun. repeat split; try done; try apply Hwithin'.
    by replace (fileCount + 1 + Z.of_nat (length recs))
      with (fileCount + Z.of_nat (S (length recs))) by lia.
Qed.

Lemma unobstructed_free (extractPath : string) (paths : list string)
    (dest : gmap string (list byte)) (chunks : list (list byte)) (c : closing) :
  unobstructed extractPath paths dest ->
  let keys := (path_join extractPath <$> paths) ++ elements (dom dest) in
  within keys extractPath
    {| stream := chunks; closed := c; files := dest; made := {[ extractPath +:+ "/" ]} |}
  /\ Forall (fun p => free keys extractPath (path_join extractPath p)) paths.
Proof.
  intros Hclear keys. split.
  - split; simpl.
    + intros k Hk. apply elem_of_app. right. by apply elem_of_elements.
    + intros k Hk. right. by apply elem_of_singleton in Hk.
  - unfold unobstructed in Hclear. rewrite Forall_fmap in Hclear.
    rewrite Forall_forall in Hclear. apply Forall_forall. intros p Hp.
    destruct (Hclear p Hp) as [Hroot Hkeys]. repeat split; [|done|done].
    apply elem_of_app. left. apply list_elem_of_fmap. by exists p.
Qed.

(** C3, as amended. Extraction is not all or nothing. A failed extraction
    has written the records that its reads had found in the stream until
    then, the first of them first, and takes nothing back; its own manifest
    file it has not written. When the stream ends while a read is waiting
    for bytes, as it does for a record that declares more bytes of content
    than the stream still brings, the error is the one of the end of the
    stream; the files of the records before it are in the destination. *)
Theorem truncated_bundle_leaves_partial_tree :
  (forall (bundle : delivery) (extractPath : string) (dest : gmap string (list byte))
          (e : error),
      snd (performExtraction bundle extractPath dest) = Err e ->
      exists recs,
        fst (performExtraction bundle extractPath dest) = writeAll extractPath recs dest
        /\ match declaredHeader (closes bundle) (heard bundle) with
           | Some (m, count, s3) =>
             recs `prefix_of`
               fst (fst (declaredRecords (closes bundle) (Z.to_nat count) s3))
           | None => recs = []
           end)
  /\ (forall (bundle : delivery) (extractPath : string) (dest : gmap string (list byte))
            (m : ProjectManifest) (recs : list (string * list byte)) (more : nat)
            (p : string) (declared : Z) (chunks tail : list (list byte)),
        heard bundle = chunks ++ tail ->
        closes bundle = Ended ->
        carries chunks
          (headerFields m (Z.of_nat (length recs + S more))
           ++ flat_map recordFields recs
           ++ [ bytesBE 4 (Z.of_nat (length (list_byte_of_string p)));
                list_byte_of_string p;
                bytesBE 8 declared ]) ->
        Z.of_nat (length (concat tail)) < Number_of_BigInt declared ->
        JSON_parse (JSON_stringify m) = Some m ->
        Z.of_nat (length (list_byte_of_string (JSON_stringify m))) < 2 ^ 32 ->
        Z.of_nat (length recs + S more) < 2 ^ 32 ->
        Forall sized recs ->
        Z.of_nat (length (list_byte_of_string p)) < 2 ^ 32 ->
        0 <= declared < 2 ^ 64 ->
        unobstructed extractPath ((fst <$> recs) ++ [p]) dest ->
        performExtraction bundle extractPath dest
        = (writeAll extractPath recs dest, Err UnexpectedEndOfStream)).
Proof.
  split; [exact failed_extraction_keeps_files|].
  intros bundle extractPath dest m recs more p declared chunks tail
    Hheard Hcloses Hcarries Hshort Hparse Hlen Hcount Hsized Hp Hdeclared Hclear.
  apply Forall2_app_inv_r in Hcarries as (head & chunks1 & Hhead & Hcarries & ->).
  apply Forall2_app_inv_r in Hcarries as (body & last3 & Hbody & Hlast & ->).
  unfold headerFields in Hhead.
  apply Forall2_cons_inv_r in Hhead as (h1 & head1 & H1 & Hhead & ->).
  apply Forall2_cons_inv_r in Hhead as (h2 & head2 & H2 & Hhead & ->).
  apply Forall2_cons_inv_r in Hhead as (h3 & head3 & H3 & Hhead & ->).
  apply Forall2_nil_inv_r in Hhead as ->.
  apply Forall2_cons_inv_r in Hlast as (l1 & last1 & L1 & Hlast & ->).
  apply Forall2_cons_inv_r in Hlast as (l2 & last2 & L2 & Hlast & ->).
  apply Forall2_cons_inv_r in Hlast as (l3 & last3 & L3 & Hlast & ->).
  apply Forall2_nil_inv_r in Hlast as ->.
  destruct (unobstructed_free extractPath ((fst <$> recs) ++ [p]) dest
              (body ++ [l1; l2; l3] ++ tail) Ended Hclear) as [Hwithin Hfree].
  set (keys := (path_join extractPath <$> (fst <$> recs) ++ [p]) ++ elements (dom dest))
    in Hwithin, Hfree.
  apply Forall_app in Hfree as [Hfree Hfree_p].
  rewrite Forall_fmap in Hfree. apply Forall_inv in Hfree_p.
  unfold performExtraction, decode, mbind, Ext_bind.
  rewrite Hheard, Hcloses. cbn [app].
  rewrite (readBytes_field 4 (bytesBE 4 (Z.of_nat (length (list_byte_of_string
                                                            (JSON_stringify m))))))
    by (by rewrite ?bytesBE_length).
  rewrite readUIntBE_bytesBE by (simpl; lia).
  rewrite (readBytes_field _ (list_byte_of_string (JSON_stringify m))) by done.
  rewrite string_of_list_byte_of_string, Hparse. cbv beta.
  rewrite (readBytes_field 4 (bytesBE 4 (Z.of_nat (length recs + S more))))
    by (by rewrite ?bytesBE_length).
  rewrite readUIntBE_bytesBE by (simpl; lia). rewrite Nat2Z.id.
  rewrite <- app_assoc.
  match goal with
  | |- context [extractFiles _ _ ?fc ?ts ?w0] =>
    destruct (extractFiles_carried keys extractPath recs body ([l1; l2; l3] ++ tail)
                (S more) fc ts w0 eq_refl Hbody Hsized Hwithin Hfree)
      as (w' & ts' & -> & Hstream & Hclosed & Hfiles & Hwithin')
  end.
  destruct w' as [s cl fs md]. cbn [stream closed files made] in *. subst s cl fs.
  cbn [extractFiles app]. unfold mbind, Ext_bind.
  rewrite (readBytes_field 4 (bytesBE 4 (Z.of_nat (length (list_byte_of_string p)))))
    by (by rewrite ?bytesBE_length).
  rewrite readUIntBE_bytesBE by (simpl; lia).
  rewrite (readBytes_field _ (list_byte_of_string p)) by done.
  rewrite (readBytes_field 8 (bytesBE 8 declared)) by (by rewrite ?bytesBE_length).
  rewrite readUIntBE_bytesBE by (simpl; lia).
  rewrite string_of_list_byte_of_string.
  rewrite (mkdir_above_free keys extractPath) by first [exact Hwithin' | exact Hfree_p].
  cbn [stream closed files made].
  rewrite readBytes_hear. cbn [stream closed files made].
  by rewrite hear_short.
Qed.

End Decoder.
End DecoderFacts.

(** ** Bundle encoder: what the archive holds *)
Module ArchiveFacts.
Import FileBundler BundleExtractor BundleLayout BufferFacts DecoderFacts.

#[local] Opaque bytesBE.

(** Induction on a project tree, with the hypothesis for every entry of a
    directory. *)
Fixpoint fsnode_induction (P : fsnode -> Prop)
    (Hfile : forall content, P (File content))
    (Hother : P Other)
    (Hdangling : P Dangling)
    (Hdir : forall entries, Forall (fun e => P (snd e)) entries -> P (Directory entries))
    (n : fsnode) : P n :=
match n with
| File content => Hfile content
| Other => Hother
| Dangling => Hdangling
| Directory entries =>
  Hdir entries
    ((fix all (es : list (string * fsnode)) : Forall (fun e => P (snd e)) es :=
        match es with
        | [] => @List.Forall_nil _ (fun e => P (snd e))
        | (entry, child) :: rest =>
          @List.Forall_cons _ (fun e => P (snd e)) (entry, child) rest
            (fsnode_induction P Hfile Hother Hdangling Hdir child) (all rest)
        end) entries)
end.

(** The paths that the scan finds are paths of regular files of the tree,
    in the order of the tree. *)
Lemma scanEntry_sublist (excludePatterns : list string) (n : fsnode) :
  forall rel found,
    scanEntry excludePatterns rel n = Ok found ->
    found `sublist_of` (fst <$> filesOf rel n).
Proof.
  induction n as [content| | |entries IH] using fsnode_induction; intros rel found; simpl.
  - intros [= <-]. done.
  - intros [= <-]. done.
  - done.
  - revert found. induction IH as [|[entry child] rest Hchild Hrest IHrest]; intros found.
    + intros [= <-]. done.
    + simpl in Hchild.
      destruct (shouldExclude (relativePath rel entry) excludePatterns) as [[|]|e]; simpl;
        [| |done].
      * intros Hfound. rewrite fmap_app. apply sublist_inserts_l. by apply IHrest.
      * destruct (scanEntry excludePatterns (relativePath rel entry) child) as [here|e]
          eqn:Hhere; simpl; [|done].
        match goal with
        | |- context [mbind _ ?m] => destruct m as [more|e] eqn:Hmore; simpl; [|done]
        end.
        intros [= <-]. rewrite fmap_app. apply sublist_app; [by apply Hchild|by apply IHrest].
Qed.

Lemma find_unique (l : list (string * list byte)) (p : string) (c : list byte) :
  NoDup (fst <$> l) -> (p, c) ∈ l ->
  find (fun e => String.eqb (fst e) p) l = Some (p, c).
Proof.
  induction l as [|[q d] l IH]; intros Hnodup Hin; [by apply elem_of_nil in Hin|].
  simpl in *. apply NoDup_cons in Hnodup as [Hq Hnodup].
  destruct (String.eqb_spec q p) as [->|Hne].
  - apply elem_of_cons in Hin as [[= <-]|Hin]; [done|].
    exfalso. apply Hq. apply list_elem_of_fmap. by exists (p, c).
  - apply elem_of_cons in Hin as [[= -> ->]|Hin]; [done|]. by apply IH.
Qed.

Lemma readFile_found (root : fsnode) (p : string) (c : list byte) :
  NoDup (fst <$> filesOf "" root) -> (p, c) ∈ filesOf "" root ->
  readFile root p = Ok c.
Proof. intros Hnodup Hin. unfold readFile. by rewrite (find_unique _ p c). Qed.

Lemma readFile_Ok (root : fsnode) (p : string) (c : list byte) :
  readFile root p = Ok c -> (p, c) ∈ filesOf "" root.
Proof.
  unfold readFile.
  destruct (find _ _) as [[q d]|] eqn:Hfind; [|done]. intros [= ->].
  apply find_some in Hfind as [Hin Heq]. simpl in Heq.
  apply String.eqb_eq in Heq as ->. by apply list_elem_of_In.
Qed.

Lemma getProjectFiles_Ok (root : fsnode) (excludePatterns files : list string) :
  getProjectFiles root excludePatterns = Ok files ->
  exists found,
    scanEntry excludePatterns "" root = Ok found /\ files = merge_sort path_le found.
Proof.
  unfold getProjectFiles. destruct root as [content|entries| |]; [done| |done|done].
  destruct (scanEntry excludePatterns "" (Directory entries)) as [found|e]; [|done].
  intros [= <-]. by exists found.
Qed.

(** The files that are bundled are distinct regular files of the tree. *)
Lemma getProjectFiles_files (root : fsnode) (excludePatterns files : list string) :
  NoDup (fst <$> filesOf "" root) ->
  getProjectFiles root excludePatterns = Ok files ->
  NoDup files /\ forall p, p ∈ files -> exists c, readFile root p = Ok c.
Proof.
  intros Hnodup Hfiles.
  apply getProjectFiles_Ok in Hfiles as (found & Hscan & ->).
  apply scanEntry_sublist in Hscan.
  split.
  - rewrite merge_sort_Permutation. by eapply sublist_NoDup.
  - intros p Hp. rewrite merge_sort_Permutation in Hp.
    assert (Hin : p ∈ fst <$> filesOf "" root).
    { eapply sublist_submseteq, submseteq_Permutation in Hscan as [k Hk].
      rewrite Hk. apply elem_of_app. by left. }
    apply list_elem_of_fmap in Hin as ([q c] & -> & Hin). exists c.
    by apply readFile_found.
Qed.

(** What the loop of [createArchive] writes, record by record. *)
Lemma writeFileRecords_Ok (root : fsnode) (files : list string) (written : list byte) :
  writeFileRecords root files = Ok written ->
  exists recs,
    fst <$> recs = files
    /\ written = encodeRecords recs
    /\ Forall (fun rec =>
                 readFile root (fst rec) = Ok (snd rec)
                 /\ Z.of_nat (length (list_byte_of_string (fst rec))) < 2 ^ 32) recs.
Proof.
  revert written. induction files as [|p files IH]; intros written; simpl.
  - intros [= <-]. by exists [].
  - unfold writeFileRecord.
    destruct (readFile root p) as [c|e] eqn:Hread; simpl; [|done].
    destruct (writeUInt32BE _) as [b1|e] eqn:Hb1; simpl; [|done].
    destruct (writeBigUInt64BE _) as [b2|e] eqn:Hb2; simpl; [|done].
    destruct (writeFileRecords root files) as [more|e]; simpl; [|done].
    intros [= <-].
    destruct (IH more eq_refl) as (recs & <- & -> & Hall).
    apply writeUInt32BE_Ok in Hb1 as (Hp & -> & _).
    apply writeBigUInt64BE_Ok in Hb2 as (_ & -> & _).
    exists ((p, c) :: recs). split; [done|].
    split; [|constructor; [split; [done | simpl; lia] | done]].
    change (encodeRecords ((p, c) :: recs)) with (encodeRecord (p, c) ++ encodeRecords recs).
    unfold encodeRecord. simpl. by rewrite <- !app_assoc.
Qed.

Lemma round_length (st : list Z) (kw : Z * Z) :
  length st = 8%nat -> length (Sha256.round st kw) = 8%nat.
Proof.
  intros Hst. do 9 (destruct st as [|? st]; try done).
Qed.

Lemma rounds_length (kws : list (Z * Z)) (st : list Z) :
  length st = 8%nat -> length (fold_left Sha256.round kws st) = 8%nat.
Proof.
  revert st. induction kws as [|kw kws IH]; intros st Hst; [done|].
  simpl. apply IH. by apply round_length.
Qed.

Lemma compress_length (h block : list Z) :
  length h = 8%nat -> length (Sha256.compress h block) = 8%nat.
Proof.
  intros Hh. unfold Sha256.compress.
  rewrite length_map, length_combine, rounds_length by done. lia.
Qed.

Lemma digest_length (msg : list Z) : length (Sha256.digest msg) = 8%nat.
Proof.
  unfold Sha256.digest.
  generalize (Sha256.chunks (length (Sha256.pad msg)) 64 (Sha256.pad msg)).
  assert (H0 : length Sha256.H0 = 8%nat) by done.
  generalize dependent Sha256.H0.
  intros h Hh blocks. revert h Hh.
  induction blocks as [|block blocks IH]; intros h Hh; [done|].
  simpl. apply IH. by apply compress_length.
Qed.

(** The digest that a hash passes on has 32 bytes. *)
Lemma sha256_digest_length (data : list byte) : length (sha256_digest data) = 32%nat.
Proof.
  unfold sha256_digest.
  pose proof (digest_length (map Z_of_byte data)) as Hlen.
  destruct (Sha256.digest (map Z_of_byte data)) as [|w0 [|w1 [|w2 [|w3 [|w4 [|w5 [|w6 [|w7 [|? ?]]]]]]]]];
    done.
Qed.

(** An extraction that hears one chunk or none fails before it writes. *)
Lemma one_chunk_is_not_extracted `{R : NodeRuntime} (bundle : delivery)
    (extractPath : string) (dest : gmap string (list byte)) :
  (length (heard bundle) <= 1)%nat ->
  exists e, performExtraction bundle extractPath dest = (dest, Err e).
Proof.
  intros Hone. unfold performExtraction, decode, mbind, Ext_bind.
  rewrite readBytes_hear. cbn [stream closed files made].
  destruct (hear (closes bundle) 4 (heard bundle)) as [s1 [b1|e1]] eqn:H1; simpl;
    [|by eauto].
  apply hear_shorter in H1.
  rewrite readBytes_hear. cbn [stream closed files made].
  destruct s1; [|simpl in H1; lia].
  unfold hear. simpl. eauto.
Qed.

(** C1. What [createBundle] leaves in the bundle file is not the compressed
    stream of the manifest and the files: it is the SHA-256 digest of that
    stream, 32 bytes, the same digest that the result gives in hexadecimal
    as its checksum. Decoding that file does not bring back the tree: the
    extraction fails and writes nothing, whether gunzip refuses the 32 bytes
    or makes one chunk of them. *)
Theorem created_bundle_is_not_extracted `{R : NodeRuntime} (root : fsnode)
    (manifest : ProjectManifest) (excludePatterns : list string)
    (bundle : list byte) (res : BundleResult) :
  createBundle root manifest excludePatterns = Ok (bundle, res) ->
  (exists files written,
      getProjectFiles root (DEFAULT_EXCLUDES ++ excludePatterns) = Ok files
      /\ archiveStream root files manifest = Ok written
      /\ bundle = sha256_digest (gzip written)
      /\ checksum res = Sha256.sha256_hex_bytes (gzip written))
  /\ length bundle = 32%nat
  /\ FileBundler.size res = 32
  /\ forall extractPath c,
       exists e,
         extractBundle (in_one_chunk bundle c) extractPath false ∅ = (∅, Err e).
Proof.
  intros Hbundle. unfold createBundle in Hbundle.
  destruct (getProjectFiles root (DEFAULT_EXCLUDES ++ excludePatterns)) as [files|e];
    simpl in Hbundle; [|done].
  unfold createArchive in Hbundle.
  destruct (archiveStream root files manifest) as [written|e] eqn:Hwritten;
    simpl in Hbundle; [|done].
  injection Hbundle as <- <-. cbn [FileBundler.size checksum].
  rewrite sha256_digest_length.
  split; [by exists files, written|]. split; [done|]. split; [done|].
  intros extractPath c. unfold extractBundle, validateExtractPath.
  rewrite decide_True by done.
  apply one_chunk_is_not_extracted. unfold in_one_chunk.
  destruct (gunzip _) as [[|b decompressed]|]; simpl; lia.
Qed.

End ArchiveFacts.

(** ** The bundle codec on the example projects *)
Module CodecExamples.
Import FileBundler BundleExtractor BundleLayout Examples DecoderFacts ArchiveFacts.

Lemma stored_Number_exact n : 0 <= n <= MAX_SAFE -> Number_of_BigInt n = n.
Proof. done. Qed.

Lemma created_bundle_is_not_extracted_witness :
  length (bundle_of project1) = 32%nat
  /\ FileBundler.size (result_of project1) = 32
  /\ exists e, extractBundle (in_one_chunk (bundle_of project1) Ended) "/dest" false ∅
               = (∅, Err e).
Proof.
  destruct (created_bundle_is_not_extracted project1 manifest0 []
              (bundle_of project1) (result_of project1))
    as (_ & Hlength & Hsize & Hfails).
  - vm_compute. reflexivity.
  - split; [exact Hlength|]. split; [exact Hsize|]. exact (Hfails "/dest" Ended).
Defined.

(** The bundle of [project1]: two files are found, 32 bytes are written,
    and gunzip refuses them. *)
Lemma created_bundle_is_refused :
  getProjectFiles project1 DEFAULT_EXCLUDES = Ok ["README.md"; "src/index.js"]
  /\ FileBundler.fileCount (result_of project1) = 2
  /\ gunzip (bundle_of project1) = None
  /\ extractBundle (in_one_chunk (bundle_of project1) Ended) "/dest" false ∅
     = (∅, Err ZlibError).
Proof. repeat split; vm_compute; reflexivity. Qed.

Lemma carries_fieldwise (fields : list (list byte)) (c : closing) :
  carries (heard (fieldwise fields c)) fields.
Proof.
  unfold carries, fieldwise. simpl.
  induction fields as [|field fields IH]; constructor; [|done].
  by apply prefix_app_r.
Qed.

Lemma truncated_bundle_leaves_partial_tree_witness :
  performExtraction truncated "/dest" ∅
  = (writeAll "/dest"
       [ ("devshare.yml", manifestFile manifest0); ("a.txt", text "alpha") ] ∅,
     Err UnexpectedEndOfStream).
Proof.
  refine (proj2 (truncated_bundle_leaves_partial_tree stored_Number_exact)
            truncated "/dest" ∅ manifest0
            [ ("devshare.yml", manifestFile manifest0); ("a.txt", text "alpha") ]
            0%nat "b.txt" 100 _ [text "short"] eq_refl eq_refl _ _ _ _ _ _ _ _ _).
  - apply carries_fieldwise.
  - vm_compute. reflexivity.
  - vm_compute. reflexivity.
  - vm_compute. reflexivity.
  - vm_compute. reflexivity.
  - apply (bool_decide_unpack _). vm_compute. exact I.
  - vm_compute. reflexivity.
  - vm_compute. split; [discriminate | reflexivity].
  - apply (bool_decide_unpack _). vm_compute. exact I.
Defined.

(** C3 as the specification states it fails: the extraction of the
    truncated bundle fails and leaves two files, and these are the two files
    that the successful extraction of the bundle with one file leaves. *)
Lemma failed_extraction_looks_like_success :
  ~ all_or_nothing.
Proof.
  intros Hclaim.
  apply (Hclaim truncated "/dest" UnexpectedEndOfStream); [vm_compute; reflexivity|].
  exists whole,
         {| extractPath := "/dest"; manifest := manifest0; fileCount := 1; totalSize := 5 |}.
  vm_compute. reflexivity.
Qed.

Lemma extraction_writes_declared_files_witness :
  exists count s3 recs rest,
    declaredHeader Ended (heard whole) = Some (manifest0, count, s3)
    /\ declaredRecords Ended (Z.to_nat count) s3 = (recs, rest, None)
    /\ 1 = Z.of_nat (length recs)
    /\ fst (performExtraction whole "/dest" ∅)
       = <[manifestPath "/dest" := manifestFile manifest0]> (writeAll "/dest" recs ∅)
    /\ dom (fst (performExtraction whole "/dest" ∅))
       = {[ manifestPath "/dest" ]}
         ∪ list_to_set ((fun rec => path_join "/dest" (fst rec)) <$> recs)
         ∪ dom (∅ : gmap string (list byte)).
Proof.
  apply (extraction_writes_declared_files whole "/dest" ∅
           {| extractPath := "/dest"; manifest := manifest0; fileCount := 1;
              totalSize := 5 |}).
  vm_compute. reflexivity.
Defined.

(** C10 as the specification states it fails for a bundle with a file
    [devshare.yml]: two files are declared, and two files, not three, are in
    the destination. *)
Lemma declared_manifest_file_is_replaced :
  ~ one_file_more.
Proof.
  intros Hclaim.
  specialize (Hclaim with_manifest_file "/dest"
                {| extractPath := "/dest"; manifest := manifest0; fileCount := 2;
                   totalSize := 24 |} ltac:(vm_compute; reflexivity)).
  vm_compute in Hclaim. discriminate Hclaim.
Qed.

(** A record for a path below the file of an earlier record: the file is
    where a directory has to be, and the extraction fails with the first
    file written. *)
Lemma file_where_a_directory_has_to_be :
  performExtraction
    (fieldwise (headerFields manifest0 2
                ++ recordFields ("a", text "alpha")
                ++ recordFields ("a/b", text "beta")) Ended)
    "/dest" ∅
  = ({[ "/dest/a" := text "alpha" ]}, Err EEXIST)
  /\ performExtraction
       (fieldwise (headerFields manifest0 2
                   ++ recordFields ("a", text "alpha")
                   ++ recordFields ("a/b/c", text "gamma")) Ended)
       "/dest" ∅
     = ({[ "/dest/a" := text "alpha" ]}, Err ENOTDIR).
Proof. split; vm_compute; reflexivity. Qed.

(** A record for a path below [devshare.yml] makes that path a directory:
    the file of the record is written, the manifest file cannot be, and
    the extraction fails at its last step. *)
Lemma manifest_path_is_a_directory :
  performExtraction
    (fieldwise (headerFields manifest0 1
                ++ recordFields ("devshare.yml/notes.txt", text "notes")) Ended)
    "/dest" ∅
  = ({[ "/dest/devshare.yml/notes.txt" := text "notes" ]}, Err EISDIR).
Proof. vm_compute. reflexivity. Qed.

End CodecExamples.

(** ** The encoder returns *)
Module EncoderFacts.
Import FileBundler BundleLayout BufferFacts ArchiveFacts.

Lemma shouldExclude_returns (filePath : string) (patterns : list string) :
  Forall usable patterns -> exists b, shouldExclude filePath patterns = Ok b.
Proof.
  induction 1 as [|p patterns Hp _ [b IH]]; simpl; [by eexists|].
  destruct (includes_star p) eqn:Hstar.
  - specialize (Hp Hstar). unfold compiles in Hp.
    destruct (RegExp (replace_star p)) as [re|]; [|done]. simpl.
    destruct (RegExp_test re _); eauto.
  - destruct (_ || _); eauto.
Qed.

Lemma scanEntry_returns (excludePatterns : list string) (n : fsnode) :
  Forall usable excludePatterns -> statted n ->
  forall rel, exists found, scanEntry excludePatterns rel n = Ok found.
Proof.
  intros Husable.
  induction n as [content| | |entries IH] using fsnode_induction; intros Hstat rel; simpl;
    [by eexists|by eexists|done|].
  simpl in Hstat.
  induction IH as [|[entry child] rest Hchild _ IHrest]; [by eexists|].
  destruct Hstat as [Hstat Hrest]. destruct (IHrest Hrest) as [more Hmore].
  destruct (shouldExclude_returns (relativePath rel entry) _ Husable) as [[|] ->]; simpl.
  - eauto.
  - simpl in Hchild. destruct (Hchild Hstat (relativePath rel entry)) as [here ->]. simpl.
    rewrite Hmore. simpl. eauto.
Qed.

Lemma default_excludes_usable : Forall usable DEFAULT_EXCLUDES.
Proof.
  assert (Hall : Forall (fun p => compiles p = true) DEFAULT_EXCLUDES)
    by (apply (bool_decide_unpack _); vm_compute; exact I).
  eapply Forall_impl; [exact Hall|]. by intros p Hp _.
Qed.

Lemma writeFileRecords_returns (root : fsnode) (files : list string) :
  Forall (fun p => exists c, readFile root p = Ok c
                             /\ Z.of_nat (length (list_byte_of_string p)) < 2 ^ 32
                             /\ Z.of_nat (length c) < 2 ^ 64) files ->
  exists written, writeFileRecords root files = Ok written.
Proof.
  induction 1 as [|p files (c & Hc & Hp & Hsize) _ [more IH]]; simpl; [by eexists|].
  unfold writeFileRecord, writeUInt32BE, writeBigUInt64BE. rewrite Hc. simpl.
  destruct (Z.leb_spec 0 (Z.of_nat (length (list_byte_of_string p)))); [|lia].
  destruct (Z.ltb_spec (Z.of_nat (length (list_byte_of_string p))) (2 ^ 32)); [|lia].
  simpl.
  destruct (Z.leb_spec 0 (Z.of_nat (length c))); [|lia].
  destruct (Z.ltb_spec (Z.of_nat (length c)) (2 ^ 64)); [|lia].
  simpl. rewrite IH. simpl. eauto.
Qed.

(** [createBundle] returns a bundle for a project directory in which
    [stat] succeeds on every entry and a path names one file, when the
    patterns can be processed and the lengths fit the fields of the layout. *)
Lemma createBundle_returns `{R : NodeRuntime} (entries : list (string * fsnode))
    (manifest : ProjectManifest) (excludePatterns : list string) :
  let root := Directory entries in
  Forall usable excludePatterns ->
  statted root ->
  NoDup (fst <$> filesOf "" root) ->
  Forall (fun e => Z.of_nat (length (list_byte_of_string (fst e))) < 2 ^ 32
                   /\ Z.of_nat (length (snd e)) < 2 ^ 64) (filesOf "" root) ->
  Z.of_nat (length (filesOf "" root)) < 2 ^ 32 ->
  Z.of_nat (length (list_byte_of_string (JSON_stringify manifest))) < 2 ^ 32 ->
  exists bundle res, createBundle root manifest excludePatterns = Ok (bundle, res).
Proof.
  intros root Husable Hstat Hnodup Hsizes Hcount Hmanifest.
  assert (Hall : Forall usable (DEFAULT_EXCLUDES ++ excludePatterns))
    by (apply Forall_app; split; [apply default_excludes_usable | done]).
  destruct (scanEntry_returns _ root Hall Hstat "") as [found Hscan].
  assert (Hfiles : getProjectFiles root (DEFAULT_EXCLUDES ++ excludePatterns)
                   = Ok (merge_sort path_le found)).
  { unfold getProjectFiles, root. fold root. by rewrite Hscan. }
  destruct (getProjectFiles_files _ _ _ Hnodup Hfiles) as [_ Hread].
  assert (Hlen : (length (merge_sort path_le found) <= length (filesOf "" root))%nat).
  { rewrite merge_sort_Permutation.
    apply scanEntry_sublist, sublist_length in Hscan. by rewrite length_fmap in Hscan. }
  destruct (writeFileRecords_returns root (merge_sort path_le found)) as [written Hwritten].
  { apply Forall_forall. intros p Hp. destruct (Hread p Hp) as [c Hc]. exists c.
    split; [done|]. apply readFile_Ok in Hc.
    rewrite Forall_forall in Hsizes. apply (Hsizes (p, c) Hc). }
  unfold createBundle. rewrite Hfiles. simpl.
  unfold createArchive, archiveStream, writeUInt32BE.
  destruct (Z.leb_spec 0 (Z.of_nat (length (list_byte_of_string (JSON_stringify manifest)))));
    [|lia].
  destruct (Z.ltb_spec (Z.of_nat (length (list_byte_of_string (JSON_stringify manifest))))
              (2 ^ 32)); [|lia].
  simpl.
  destruct (Z.leb_spec 0 (Z.of_nat (length (merge_sort path_le found)))); [|lia].
  destruct (Z.ltb_spec (Z.of_nat (length (merge_sort path_le found))) (2 ^ 32)); [|lia].
  simpl. rewrite Hwritten. simpl. eauto.
Qed.

End EncoderFacts.

(** * Further properties of the services *)

(** ** Crypto service: what a verified envelope guarantees *)
Module SignatureChecks.
Import CryptoService.

(** X1. Under the fallback backend the public key is all that is needed to
    make an envelope that verifies: for any hash and any key, the envelope
    whose signature is [signDataFallback] applied to the hash and the PUBLIC
    key is accepted while it is fresh. *)
Theorem fallback_accepts_signature_made_with_public_key hash publicKey now stamp :
  now - stamp <= maxAge ->
  verifyBundleSignature None now hash
    {| bundleHash := hash;
       signature := signDataFallback hash publicKey;
       signerKey := publicKey;
       timestamp := stamp;
       version := "1.0.0" |} = Returned true.
Proof.
  intros Hfresh. unfold verifyBundleSignature, verifyBundleSignature_try. simpl.
  destruct (Z.gtb_spec (now - stamp) maxAge); [lia|].
  rewrite String.eqb_refl. simpl.
  unfold checkSignature, verifySignatureFallback, signDataFallback. simpl.
  by rewrite String.eqb_refl.
Qed.

Lemma fallback_accepts_signature_made_with_public_key_witness :
  verifyBundleSignature None 1736294400000 "abc"
    {| bundleHash := "abc";
       signature := signDataFallback "abc" "60e05bd1b195af2f";
       signerKey := "60e05bd1b195af2f";
       timestamp := 1736294400000 - 1000;
       version := "1.0.0" |} = Returned true.
Proof.
  apply (fallback_accepts_signature_made_with_public_key "abc" "60e05bd1b195af2f"
           1736294400000 (1736294400000 - 1000)).
  vm_compute. discriminate.
Defined.

End SignatureChecks.

(** ** Base64 and the fallback of the encryption *)
Module VaultFacts.
Import Base64 CryptoVault BufferFacts.

(** The test vectors of RFC 4648. *)
Example base64_vectors :
  toString (list_byte_of_string "foobar") = "Zm9vYmFy"
  /\ toString (list_byte_of_string "fooba") = "Zm9vYmE="
  /\ toString (list_byte_of_string "foob") = "Zm9vYg=="
  /\ string_of_list_byte (from "Zm9vYg==") = "foob".
Proof. vm_compute. repeat split; reflexivity. Qed.

Lemma byte_of_Z_of_byte (b : byte) : byte_of_Z (Z_of_byte b) = b.
Proof. by destruct b. Qed.

Lemma digit_value (n : Z) :
  0 <= n < 64 -> Ascii.eqb (digit n) "=" = false /\ unbase64 (digit n) = Some n.
Proof.
  intros Hn.
  assert (Hall : forallb (fun i => negb (Ascii.eqb (digit (Z.of_nat i)) "=")
                                   && match unbase64 (digit (Z.of_nat i)) with
                                      | Some v => v =? Z.of_nat i
                                      | None => false
                                      end) (seq 0 64) = true)
    by (vm_compute; reflexivity).
  rewrite forallb_forall in Hall. specialize (Hall (Z.to_nat n)).
  rewrite Z2Nat.id in Hall by lia.
  assert (Hin : In (Z.to_nat n) (seq 0 64)) by (apply in_seq; lia).
  apply Hall, andb_true_iff in Hin as [Hpad Hvalue].
  split; [by apply negb_true_iff|].
  destruct (unbase64 (digit n)) as [v|]; [|done]. apply Z.eqb_eq in Hvalue. by subst.
Qed.

Ltac digits :=
  repeat match goal with
         | |- context [Ascii.eqb (digit ?n) "="] =>
           let H := fresh in
           destruct (digit_value n) as [H ?];
           [ Z.to_euclidean_division_equations; lia | rewrite H; clear H ]
         | H : unbase64 (digit ?n) = Some _ |- context [unbase64 (digit ?n)] =>
           rewrite H; clear H
         end.

(** The digits of bytes are read back as the bytes. *)
Lemma decode_encode (bs : list Z) :
  Forall (fun b => 0 <= b < 256) bs -> decode (sextets (encode bs)) = bs.
Proof.
  assert (Hstep : forall n, forall bs, (length bs < n)%nat ->
            Forall (fun b => 0 <= b < 256) bs -> decode (sextets (encode bs)) = bs).
  { induction n as [|n IH]; intros l Hlen Hall; [lia|].
    destruct l as [|a [|b [|c rest]]]; [done| | |].
    - apply Forall_cons in Hall as [Ha _]. cbn [encode sextets]. digits.
      cbn [sextets Ascii.eqb]. simpl sextets. cbn [decode]. f_equal.
      Z.to_euclidean_division_equations; lia.
    - apply Forall_cons in Hall as [Ha Hall]. apply Forall_cons in Hall as [Hb _].
      cbn [encode sextets]. digits. simpl sextets. cbn [decode].
      f_equal; [|f_equal]; Z.to_euclidean_division_equations; lia.
    - apply Forall_cons in Hall as [Ha Hall]. apply Forall_cons in Hall as [Hb Hall].
      apply Forall_cons in Hall as [Hc Hall].
      cbn [encode sextets]. digits. cbn [decode].
      rewrite (IH rest) by (simpl in Hlen; lia || done).
      f_equal; [|f_equal; [|f_equal]]; Z.to_euclidean_division_equations; lia. }
  intros Hall. by apply (Hstep (S (length bs))); [lia|].
Qed.

Lemma from_toString (buf : list byte) : from (toString buf) = buf.
Proof.
  unfold from, toString. rewrite list_ascii_of_string_of_list_ascii.
  rewrite decode_encode.
  - rewrite map_map. rewrite <- (map_id buf) at 2. apply map_ext. apply byte_of_Z_of_byte.
  - apply Forall_forall. intros z Hz. apply list_elem_of_In, in_map_iff in Hz as (b & <- & _).
    apply Z_of_byte_bounds.
Qed.

(** X2. Without the native addon nothing is kept secret: what
    [encryptData] returns is the Base64 text of the data, whatever the key
    of the recipient, and [decryptData] gives the data back to whoever holds
    that text, whatever key is presented. *)
Theorem fallback_encryption_needs_no_key (data recipientPublicKey senderPublicKey other : string) :
  decryptData None (encryptData None data recipientPublicKey) senderPublicKey = data
  /\ encryptData None data recipientPublicKey = encryptData None data other.
Proof.
  split; [|done]. unfold decryptData, encryptData. simpl.
  by rewrite from_toString, string_of_list_byte_of_string.
Qed.

End VaultFacts.

(** ** Peer discovery: from the announcement sent to the registry *)
Module DiscoveryProtocol.
Import CryptoService PeerDiscovery Announcements DiscoveryExamples.

(** The signature field is not part of what is signed. *)
Lemma announcePeer_Some native kp hostname sent a :
  announcePeer native (Some kp) true hostname sent = Some a ->
  pa_id a = substring 0 16 (CryptoService.publicKey kp)
  /\ pa_name a = "DevShare-" +:+ hostname
  /\ pa_port a = 7682
  /\ pa_publicKey a = CryptoService.publicKey kp
  /\ pa_timestamp a = sent
  /\ pa_signature a = signData native (messageToVerify a) (privateKey kp).
Proof. unfold announcePeer. simpl. intros [= <-]. simpl. repeat split. Qed.

(** X3. Without the native addon two nodes never discover each other: the
    announcement that [announcePeer] sends for a key pair of
    [generateKeyPairFallback] is dropped by [handlePeerAnnouncement] of a
    node on the fallback backend, at any time and in any state, as long as
    the two keys differ and SHA-256 does not collide on the two texts that
    are hashed. *)
Theorem fallback_announcement_is_dropped random hostname sent a now address st :
  let kp := generateKeyPairFallback random in
  announcePeer None (Some kp) true hostname sent = Some a ->
  CryptoService.publicKey kp <> privateKey kp ->
  (Sha256.sha256_hex (messageToVerify a +:+ privateKey kp)
   = Sha256.sha256_hex (messageToVerify a +:+ CryptoService.publicKey kp) ->
   messageToVerify a +:+ privateKey kp = messageToVerify a +:+ CryptoService.publicKey kp) ->
  handlePeerAnnouncement None now a address st = (st, []).
Proof.
  intros kp Hsent Hkeys Hsha.
  destruct (announcePeer_Some _ _ _ _ _ Hsent) as (_ & _ & _ & Hkey & _ & Hsig).
  unfold handlePeerAnnouncement, verifySignature, checkSignature. simpl.
  rewrite Hsig, Hkey. unfold signData, verifySignatureFallback, signDataFallback. simpl.
  rewrite eqb_false_of_ne; [done|].
  intros Heq. apply Hkeys. symmetry. exact (append_inj_r _ _ _ (Hsha Heq)).
Qed.

Lemma fallback_announcement_is_dropped_witness :
  exists a,
    announcePeer None
      (Some (generateKeyPairFallback
               "00112233445566778899aabbccddeeff00112233445566778899aabbccddeeff"))
      true "host" 1736294400000 = Some a
    /\ handlePeerAnnouncement None 1736294401000 a "192.168.1.7" alone = (alone, []).
Proof.
  eexists. split; [vm_compute; reflexivity|].
  refine (fallback_announcement_is_dropped
            "00112233445566778899aabbccddeeff00112233445566778899aabbccddeeff"
            "host" 1736294400000 _ 1736294401000 "192.168.1.7" alone _ _ _).
  - vm_compute. reflexivity.
  - vm_compute. discriminate.
  - intros Heq. vm_compute in Heq. discriminate Heq.
Defined.

(** X4. With a backend whose verification accepts the signature, the
    announcement that [announcePeer] sends is registered by a node that
    receives it within five minutes and does not know the sender: the entry
    is filed under the first 16 characters of the public key, with the
    address the datagram came from, port 7682 and the time of receipt, and
    the discovery callback is called once with it. *)
Theorem announced_peer_is_registered n kp hostname sent a now sourceAddress st :
  announcePeer (Some n) (Some kp) true hostname sent = Some a ->
  native_verifySignature n (messageToVerify a) (pa_signature a) (CryptoService.publicKey kp)
    = Some true ->
  now - sent <= 5 * 60 * 1000 ->
  discoveredPeers st !! substring 0 16 (CryptoService.publicKey kp) = None ->
  onPeerDiscovered st = true ->
  let peer := {| id := substring 0 16 (CryptoService.publicKey kp);
                 name := "DevShare-" +:+ hostname;
                 address := sourceAddress;
                 port := 7682;
                 publicKey := CryptoService.publicKey kp;
                 lastSeen := now |} in
  handlePeerAnnouncement (Some n) now a sourceAddress st =
    ({| discoveredPeers := <[id peer := peer]> (discoveredPeers st);
        onPeerDiscovered := true;
        onPeerLost := onPeerLost st |},
     [PeerDiscovered peer]).
Proof.
  intros Hsent Hverify Hfresh Hnew Hcb peer.
  destruct (announcePeer_Some _ _ _ _ _ Hsent) as (Hid & Hname & Hport & Hkey & Hstamp & _).
  unfold handlePeerAnnouncement, verifySignature, checkSignature. simpl.
  rewrite Hkey, Hverify, Hstamp. simpl.
  destruct (Z.gtb_spec (now - sent) (5 * 60 * 1000)); [lia|].
  rewrite Hid, Hnew, Hcb, Hname, Hport. reflexivity.
Qed.

Lemma announced_peer_is_registered_witness :
  exists a,
    announcePeer (Some marked) (Some marked_pair) true "host" 1736294400000 = Some a
    /\ snd (handlePeerAnnouncement (Some marked) 1736294401000 a "192.168.1.7" alone)
       = [PeerDiscovered
            {| id := "60e05bd1b195af2f"; name := "DevShare-host";
               address := "192.168.1.7"; port := 7682;
               publicKey := "60e05bd1b195af2f94112fa7197a5c88";
               lastSeen := 1736294401000 |}].
Proof.
  eexists. split; [vm_compute; reflexivity|].
  rewrite (announced_peer_is_registered marked marked_pair "host" 1736294400000 _
             1736294401000 "192.168.1.7" alone).
  - reflexivity.
  - vm_compute. reflexivity.
  - vm_compute. reflexivity.
  - vm_compute. discriminate.
  - reflexivity.
  - reflexivity.
Defined.

(** What an accepted announcement does to the registry. *)
Lemma handlePeerAnnouncement_accepted native now a address st :
  verifySignature native (messageToVerify a) (pa_signature a) (pa_publicKey a) = true ->
  now - pa_timestamp a <= 5 * 60 * 1000 ->
  discoveredPeers (fst (handlePeerAnnouncement native now a address st))
  = <[pa_id a := {| id := pa_id a; name := pa_name a; address := address;
                    port := pa_port a; publicKey := pa_publicKey a; lastSeen := now |}]>
      (discoveredPeers st)
  /\ snd (handlePeerAnnouncement native now a address st)
     = match discoveredPeers st !! pa_id a with
       | None =>
         if onPeerDiscovered st
         then [PeerDiscovered {| id := pa_id a; name := pa_name a; address := address;
                                 port := pa_port a; publicKey := pa_publicKey a;
                                 lastSeen := now |}]
         else []
       | Some _ => []
       end.
Proof.
  intros Hsig Hfresh. unfold handlePeerAnnouncement. rewrite Hsig. simpl.
  destruct (Z.gtb_spec (now - pa_timestamp a) (5 * 60 * 1000)); [lia|].
  by destruct (discoveredPeers st !! pa_id a).
Qed.

(** X5. A peer is reported once: of two accepted announcements with the
    same id that a node handles one after the other, the second calls no
    callback, whatever the first did, and leaves the entry with the time and
    the address of the second. *)
Theorem peer_is_reported_once native now1 now2 a1 a2 address1 address2 st :
  verifySignature native (messageToVerify a1) (pa_signature a1) (pa_publicKey a1) = true ->
  verifySignature native (messageToVerify a2) (pa_signature a2) (pa_publicKey a2) = true ->
  now1 - pa_timestamp a1 <= 5 * 60 * 1000 ->
  now2 - pa_timestamp a2 <= 5 * 60 * 1000 ->
  pa_id a1 = pa_id a2 ->
  let st1 := fst (handlePeerAnnouncement native now1 a1 address1 st) in
  let second := handlePeerAnnouncement native now2 a2 address2 st1 in
  snd second = []
  /\ exists peer,
       discoveredPeers (fst second) !! pa_id a1 = Some peer
       /\ lastSeen peer = now2 /\ address peer = address2
       /\ publicKey peer = pa_publicKey a2.
Proof.
  intros Hsig1 Hsig2 Hfresh1 Hfresh2 Hid st1 second.
  destruct (handlePeerAnnouncement_accepted native now1 a1 address1 st Hsig1 Hfresh1)
    as [Hreg1 _].
  destruct (handlePeerAnnouncement_accepted native now2 a2 address2 st1 Hsig2 Hfresh2)
    as [Hreg2 Hev2].
  fold second in Hreg2, Hev2. split.
  - rewrite Hev2. unfold st1. rewrite Hreg1, <- Hid, lookup_insert_eq. done.
  - rewrite Hreg2, <- Hid, lookup_insert_eq. eexists. split; [done|]. done.
Qed.

Lemma peer_is_reported_once_witness :
  exists a,
    announcePeer (Some marked) (Some marked_pair) true "host" 1736294400000 = Some a
    /\ snd (handlePeerAnnouncement (Some marked) 1736294402000 a "192.168.1.8"
              (fst (handlePeerAnnouncement (Some marked) 1736294401000 a "192.168.1.7" alone)))
       = []
    /\ exists peer,
         discoveredPeers
           (fst (handlePeerAnnouncement (Some marked) 1736294402000 a "192.168.1.8"
                   (fst (handlePeerAnnouncement (Some marked) 1736294401000 a "192.168.1.7"
                           alone)))) !! pa_id a = Some peer
         /\ lastSeen peer = 1736294402000 /\ address peer = "192.168.1.8"
         /\ publicKey peer = pa_publicKey a.
Proof.
  eexists. split; [vm_compute; reflexivity|].
  refine (peer_is_reported_once (Some marked) 1736294401000 1736294402000 _ _
            "192.168.1.7" "192.168.1.8" alone _ _ _ _ _).
  - vm_compute. reflexivity.
  - vm_compute. reflexivity.
  - vm_compute. discriminate.
  - vm_compute. discriminate.
  - reflexivity.
Defined.

(** X6. [cleanupExpiredPeers] keeps exactly the peers heard of within the
    last 90 seconds, each as it was, and calls the lost-peer callback, when
    there is one, once for each peer it removes and for no other id. *)
Theorem cleanupExpiredPeers_removes_the_silent now st :
  let st' := fst (cleanupExpiredPeers now st) in
  let lost := snd (cleanupExpiredPeers now st) in
  (forall peerId peer,
      discoveredPeers st' !! peerId = Some peer <->
      discoveredPeers st !! peerId = Some peer /\ now - lastSeen peer <= PEER_TIMEOUT)
  /\ (forall peerId,
         PeerLost peerId ∈ lost <->
         onPeerLost st = true
         /\ exists peer, discoveredPeers st !! peerId = Some peer
                         /\ now - lastSeen peer > PEER_TIMEOUT)
  /\ (forall ev, ev ∈ lost -> exists peerId, ev = PeerLost peerId)
  /\ NoDup lost.
Proof.
  intros st' lost. unfold st', lost, cleanupExpiredPeers. simpl.
  assert (Hexp : forall peer : DiscoveredPeer,
             (now - lastSeen peer >? PEER_TIMEOUT) = true <-> now - lastSeen peer > PEER_TIMEOUT).
  { intros peer. destruct (Z.gtb_spec (now - lastSeen peer) PEER_TIMEOUT); split; (done || lia). }
  assert (Hkeep : forall peer : DiscoveredPeer,
             (now - lastSeen peer >? PEER_TIMEOUT) = false <-> now - lastSeen peer <= PEER_TIMEOUT).
  { intros peer. destruct (Z.gtb_spec (now - lastSeen peer) PEER_TIMEOUT); split; (done || lia). }
  split; [|split; [|split]].
  - intros peerId peer. rewrite map_lookup_filter_Some. simpl. by rewrite Hkeep.
  - intros peerId. split.
    + destruct (onPeerLost st); [|intros Hin; by apply elem_of_nil in Hin].
      intros Hin. apply list_elem_of_fmap in Hin as (id' & [= <-] & Hin).
      apply list_elem_of_fmap in Hin as ([k peer] & -> & Hin).
      apply elem_of_map_to_list in Hin. apply map_lookup_filter_Some in Hin as [Hin Hold].
      simpl in *. split; [done|]. exists peer. split; [done|]. by apply Hexp.
    + intros (Hcb & peer & Hin & Hold). rewrite Hcb.
      apply list_elem_of_fmap. exists peerId. split; [done|].
      apply list_elem_of_fmap. exists (peerId, peer). split; [done|].
      apply elem_of_map_to_list. apply map_lookup_filter_Some. split; [done|]. simpl.
      by apply Hexp.
  - destruct (onPeerLost st); [|intros ev Hin; by apply elem_of_nil in Hin].
    intros ev Hin. apply list_elem_of_fmap in Hin as (id' & -> & _). by exists id'.
  - destruct (onPeerLost st); [|constructor].
    apply NoDup_fmap_2; [intros x y [= ->]; done|].
    apply NoDup_fst_map_to_list.
Qed.

(** X7. A bundle announcement is dropped unless its sender is a peer the
    node has heard of within the last 90 seconds: after [cleanupExpiredPeers]
    an announcement from a peer that is unknown or has been silent for longer
    reaches no callback, whatever its signature. *)
Theorem bundle_announcement_of_silent_peer_is_dropped native now now' hasCallback a st :
  (forall peer, discoveredPeers st !! ba_peerId a = Some peer ->
                now - lastSeen peer > PEER_TIMEOUT) ->
  handleBundleAnnouncement native now' hasCallback a (fst (cleanupExpiredPeers now st)) = [].
Proof.
  intros Hsilent. unfold handleBundleAnnouncement, cleanupExpiredPeers. simpl.
  destruct (filter _ (discoveredPeers st) !! ba_peerId a) as [peer|] eqn:Hin; [|done].
  apply map_lookup_filter_Some in Hin as [Hin Hkeep]. simpl in Hkeep.
  specialize (Hsilent peer Hin).
  destruct (Z.gtb_spec (now - lastSeen peer) PEER_TIMEOUT); [done | lia].
Qed.

Lemma bundle_announcement_of_silent_peer_is_dropped_witness :
  handleBundleAnnouncement (Some marked) 200000 true
    {| ba_peerId := "60e05bd1b195af2f"; ba_bundleId := "bundle-1"; ba_bundleName := "demo";
       ba_bundleSize := 3; ba_timestamp := 199000; ba_signature := "" |}
    (fst (cleanupExpiredPeers 200000 one_peer)) = [].
Proof.
  apply (bundle_announcement_of_silent_peer_is_dropped (Some marked) 200000 200000 true
           {| ba_peerId := "60e05bd1b195af2f"; ba_bundleId := "bundle-1";
              ba_bundleName := "demo"; ba_bundleSize := 3; ba_timestamp := 199000;
              ba_signature := "" |} one_peer).
  intros peer Hin. vm_compute in Hin. injection Hin as <-. vm_compute. reflexivity.
Defined.

(** X8. A node does not react to what it sends itself: the peer
    announcement and the bundle announcement that a node makes with its key
    pair are ignored by [handleMessage] of the same node, whatever the
    backend makes of the signature; the registry stays as it was and no
    callback is called. *)
Theorem own_announcements_are_ignored native kp hostname sent now address st
    bundleId bundleName bundleSize hasCallback a b :
  announcePeer native (Some kp) true hostname sent = Some a ->
  announceBundle native (Some kp) true sent bundleId bundleName bundleSize = Some b ->
  handleMessage native now (CryptoService.publicKey kp) a address st = (st, [])
  /\ handleBundleMessage native now (CryptoService.publicKey kp) hasCallback b st = [].
Proof.
  intros Hpeer Hbundle.
  destruct (announcePeer_Some _ _ _ _ _ Hpeer) as (Hid & _).
  unfold announceBundle in Hbundle. simpl in Hbundle. injection Hbundle as <-.
  unfold handleMessage, handleBundleMessage. simpl.
  by rewrite Hid, !String.eqb_refl.
Qed.

Lemma own_announcements_are_ignored_witness :
  exists a,
    announcePeer (Some marked) (Some marked_pair) true "host" 1736294400000 = Some a
    /\ handleMessage (Some marked) 1736294401000 (CryptoService.publicKey marked_pair) a
         "192.168.1.7" alone = (alone, []).
Proof.
  eexists. split; [vm_compute; reflexivity|].
  refine (proj1 (own_announcements_are_ignored (Some marked) marked_pair "host"
                   1736294400000 1736294401000 "192.168.1.7" alone "bundle-1" "demo" 3
                   true _ _ _ _)).
  - vm_compute. reflexivity.
  - vm_compute. reflexivity.
Defined.

End DiscoveryProtocol.

(** ** Transfer service: from the announcement of a bundle to its bytes *)
Module HostingFacts.
Import TransferService Hosting HostingExamples.

(** What [announceBundle] registers for a file that is on the disk, when
    the crypto service has its keys. *)
Lemma announceBundle_registers native kp running now bundleId path manifest st bundleData :
  disk st !! path = Some bundleData ->
  let r := announceBundle native (Some kp) running now bundleId path manifest st in
  snd r = CryptoService.Returned tt
  /\ disk (fst (fst r)) = disk st
  /\ config (fst (fst r)) = config st
  /\ transferTokens (fst (fst r)) = transferTokens st
  /\ availableBundles (fst (fst r)) =
       <[bundleId :=
           {| bi_bundleId := bundleId;
              bundlePath := path;
              size := Z.of_nat (length bundleData);
              chunks := ceil_div (Z.of_nat (length bundleData)) (chunkSize (config st));
              checksum := Sha256.sha256_hex_bytes bundleData;
              bi_signature :=
                CryptoService.signData native (Sha256.sha256_hex_bytes bundleData)
                  (CryptoService.privateKey kp);
              createdAt := now;
              bi_expiresAt := now + 24 * 60 * 60 * 1000 |}]> (availableBundles st).
Proof. intros Hfile. unfold announceBundle. rewrite Hfile. simpl. repeat split. Qed.

(** X9. A bundle that was announced is served to whoever asks for a token
    and presents it before it expires: the token request is answered with
    200, and the download with 200, the bytes of the bundle file, their
    number as Content-Length and their SHA-256 as X-Bundle-Checksum. Neither
    answer depends on the expiry of the bundle. *)
Theorem announced_bundle_is_served native kp running now bundleId path manifest st bundleData
    now1 random peerId now2 :
  disk st !! path = Some bundleData ->
  now2 <= now1 + transferTimeout (config st) * 1000 ->
  let st1 := fst (fst (announceBundle native (Some kp) running now bundleId path manifest st)) in
  let issued := handleTransferTokenRequest now1 random bundleId peerId st1 in
  let token :=
    Sha256.sha256_hex
      (bundleId +:+ ":" +:+ peerId +:+ ":" +:+ Number_toString now1 +:+ ":" +:+ random) in
  let answer := snd (handleBundleDownloadRequest now2 token None (fst issued)) in
  statusCode (snd issued) = 200
  /\ statusCode answer = 200
  /\ body answer = bundleData
  /\ headers answer =
       [ ("Content-Type", "application/octet-stream");
         ("Content-Length", Number_toString (Z.of_nat (length (body answer))));
         ("X-Bundle-Checksum", Sha256.sha256_hex_bytes (body answer));
         ("X-Bundle-Signature",
          CryptoService.signData native (Sha256.sha256_hex_bytes bundleData)
            (CryptoService.privateKey kp)) ].
Proof.
  intros Hfile Hlive st1 issued token answer.
  destruct (announceBundle_registers native kp running now bundleId path manifest st
              bundleData Hfile) as (_ & Hdisk & Hconfig & _ & Hbundles).
  fold st1 in Hdisk, Hconfig, Hbundles.
  assert (Hissued : issued =
            (with_tokens
               (<[token := {| tk_bundleId := bundleId; tk_peerId := peerId;
                              tk_expiresAt := now1 + transferTimeout (config st1) * 1000 |}]>
                  (transferTokens st1)) st1,
             snd issued) /\ statusCode (snd issued) = 200).
  { unfold issued, handleTransferTokenRequest. rewrite Hbundles, lookup_insert_eq. done. }
  destruct Hissued as [Hissued Hcode]. split; [exact Hcode|].
  unfold answer. rewrite Hissued. unfold handleBundleDownloadRequest. simpl.
  rewrite lookup_insert_eq. simpl. rewrite Hconfig.
  destruct (Z.ltb_spec (now1 + transferTimeout (config st) * 1000) now2); [lia|].
  rewrite Hbundles, lookup_insert_eq. unfold sendEntireBundle. simpl.
  rewrite Hdisk, Hfile. simpl. done.
Qed.

Lemma announced_bundle_is_served_witness :
  let st1 :=
    fst (fst (announceBundle None
                (Some (CryptoService.generateKeyPairFallback "00")) false 1000
                "bundle-5" "/srv/demo.bundle" Examples.manifest0 small_chunks)) in
  let issued := handleTransferTokenRequest 2000 "0.25" "bundle-5" "60e05bd1b195af2f" st1 in
  let token :=
    Sha256.sha256_hex
      ("bundle-5" +:+ ":" +:+ "60e05bd1b195af2f" +:+ ":" +:+ Number_toString 2000 +:+ ":"
       +:+ "0.25") in
  body (snd (handleBundleDownloadRequest 3000 token None (fst issued)))
  = [x01; x02; x03; x04; x05].
Proof.
  intros st1 issued token.
  refine (proj1 (proj2 (proj2
            (announced_bundle_is_served None (CryptoService.generateKeyPairFallback "00")
               false 1000 "bundle-5" "/srv/demo.bundle" Examples.manifest0 small_chunks
               [x01; x02; x03; x04; x05] 2000 "0.25" "60e05bd1b195af2f" 3000 _ _)))).
  - reflexivity.
  - vm_compute. discriminate.
Defined.

(** Without a token that is on file and has not expired nothing is served:
    the download handler answers 401 and leaves every registry as it was. *)
Lemma download_needs_live_token now token chunkIndex st :
  (forall info, transferTokens st !! token = Some info -> tk_expiresAt info < now) ->
  handleBundleDownloadRequest now token chunkIndex st
  = (st, json_error 401 "Invalid or expired token").
Proof.
  intros Hdead. unfold handleBundleDownloadRequest.
  destruct (transferTokens st !! token) as [info|]; [|done].
  specialize (Hdead info eq_refl).
  destruct (Z.ltb_spec (tk_expiresAt info) now); [done | lia].
Qed.

(** X10. A token lives for the transfer timeout and no longer. A download
    request that presents a token later than that after its issue is
    answered with 401, every registry left as it was; the next
    [cleanupExpired] takes the token off the registry, and from then on it
    is refused whatever the clock says. *)
Theorem expired_token_is_refused now1 random bundleId peerId st bundle now2 now3 chunkIndex :
  availableBundles st !! bundleId = Some bundle ->
  now1 + transferTimeout (config st) * 1000 < now2 ->
  let issued := fst (handleTransferTokenRequest now1 random bundleId peerId st) in
  let token :=
    Sha256.sha256_hex
      (bundleId +:+ ":" +:+ peerId +:+ ":" +:+ Number_toString now1 +:+ ":" +:+ random) in
  handleBundleDownloadRequest now2 token chunkIndex issued
  = (issued, json_error 401 "Invalid or expired token")
  /\ transferTokens (cleanupExpired now2 issued) !! token = None
  /\ handleBundleDownloadRequest now3 token chunkIndex (cleanupExpired now2 issued)
     = (cleanupExpired now2 issued, json_error 401 "Invalid or expired token").
Proof.
  intros Hbundle Hlate issued token.
  assert (Hissued : transferTokens issued
                    = <[token := {| tk_bundleId := bundleId; tk_peerId := peerId;
                                    tk_expiresAt := now1 + transferTimeout (config st) * 1000 |}]>
                        (transferTokens st)).
  { unfold issued, handleTransferTokenRequest. by rewrite Hbundle. }
  assert (Hgone : transferTokens (cleanupExpired now2 issued) !! token = None).
  { unfold cleanupExpired. simpl. apply map_lookup_filter_None. right.
    intros info. rewrite Hissued, lookup_insert_eq. intros [= <-]. simpl.
    destruct (Z.ltb_spec (now1 + transferTimeout (config st) * 1000) now2); [done | lia]. }
  split; [|split; [exact Hgone|]].
  - apply download_needs_live_token. intros info.
    rewrite Hissued, lookup_insert_eq. by intros [= <-].
  - apply download_needs_live_token. intros info. by rewrite Hgone.
Qed.

Lemma expired_token_is_refused_witness :
  let issued :=
    fst (handleTransferTokenRequest 1000 "0.25" "bundle-1" "60e05bd1b195af2f"
           TransferExamples.hosting) in
  let token :=
    Sha256.sha256_hex
      ("bundle-1" +:+ ":" +:+ "60e05bd1b195af2f" +:+ ":" +:+ Number_toString 1000 +:+ ":"
       +:+ "0.25") in
  handleBundleDownloadRequest 301001 token None issued
  = (issued, json_error 401 "Invalid or expired token").
Proof.
  intros issued token.
  refine (proj1 (expired_token_is_refused 1000 "0.25" "bundle-1" "60e05bd1b195af2f"
                   TransferExamples.hosting
                   {| bi_bundleId := "bundle-1"; bundlePath := "/srv/bundle-1";
                      size := 3; chunks := 1; checksum := ""; bi_signature := "";
                      createdAt := 0; bi_expiresAt := 86400000 |}
                   301001 0 None _ _)).
  - reflexivity.
  - vm_compute. reflexivity.
Defined.

(** X11. [cleanupExpired] keeps exactly the bundles and the tokens whose
    expiry is not before the clock, and it takes a transfer out of the table
    only when the transfer is older than the transfer timeout AND completed,
    failed or cancelled: a transfer that is pending or transferring stays,
    however old. Transfer objects, temporary files and peers are not
    touched. *)
Theorem cleanupExpired_sweeps now st :
  let st' := cleanupExpired now st in
  (forall id b, availableBundles st' !! id = Some b <->
                availableBundles st !! id = Some b /\ now <= bi_expiresAt b)
  /\ (forall t info, transferTokens st' !! t = Some info <->
                     transferTokens st !! t = Some info /\ now <= tk_expiresAt info)
  /\ (forall id, id ∈ activeTransfers st' <->
                 id ∈ activeTransfers st
                 /\ forall transfer, objects st !! id = Some transfer ->
                      now - startTime transfer <= transferTimeout (config st) * 1000
                      \/ transfer_status transfer = pending
                      \/ transfer_status transfer = transferring)
  /\ objects st' = objects st
  /\ disk st' = disk st
  /\ discoveredPeers st' = discoveredPeers st.
Proof.
  intros st'. unfold st', cleanupExpired. simpl.
  split; [|split; [|split; [|done]]].
  - intros id b. rewrite map_lookup_filter_Some. simpl.
    destruct (Z.ltb_spec (bi_expiresAt b) now); simpl; split; intros [? ?]; split;
      try done; lia.
  - intros t info. rewrite map_lookup_filter_Some. simpl.
    destruct (Z.ltb_spec (tk_expiresAt info) now); simpl; split; intros [? ?]; split;
      try done; lia.
  - intros id. rewrite elem_of_filter.
    destruct (objects st !! id) as [transfer|]; simpl.
    + destruct (Z.gtb_spec (now - startTime transfer) (transferTimeout (config st) * 1000));
        simpl.
      * split.
        -- intros [Hkeep Hin]. split; [done|]. intros ? [= <-]. right.
           destruct (transfer_status transfer); simpl in Hkeep; auto; discriminate.
        -- intros [Hin Hkeep]. split; [|done].
           destruct (Hkeep transfer eq_refl) as [?|[->| ->]]; [lia|done|done].
      * split; [intros [_ Hin]; split; [done|]; intros ? [= <-]; left; lia|].
        by intros [Hin _].
    + split; [intros [_ Hin]; split; [done|]; intros ? [=]|].
      by intros [Hin _].
Qed.

(** The slices [take n (drop (i * n) l)] for [i] below [k] make up [l] when
    [k] slices reach its end. *)
Lemma slices_concat {A} (n : nat) (l : list A) (k : nat) :
  (length l <= k * n)%nat ->
  concat (map (fun i => take n (drop (i * n) l)) (seq 0 k)) = l.
Proof.
  revert l. induction k as [|k IH]; intros l Hlen.
  - simpl. destruct l; [done | simpl in Hlen; lia].
  - change (seq 0 (S k)) with (0%nat :: seq 1 k).
    rewrite <- seq_shift, map_cons, map_map, concat_cons.
    transitivity (take n l ++ drop n l); [|apply take_drop].
    f_equal. rewrite <- (IH (drop n l)) at 1 by (rewrite length_drop; lia).
    f_equal. apply map_ext. intros i. by rewrite drop_drop.
Qed.

Lemma ceil_div_bounds (a b : Z) :
  0 <= a -> 0 < b ->
  (0 < a /\ 0 < ceil_div a b /\ (ceil_div a b - 1) * b < a)
  \/ (a = 0 /\ ceil_div a b = 0).
Proof.
  intros Ha Hb. unfold ceil_div.
  destruct (Z.eq_dec a 0) as [->|Hne].
  - right. split; [done|]. apply Z.div_small. lia.
  - left. pose proof (Z.mul_div_le (a + b - 1) b Hb).
    pose proof (Z.mod_pos_bound (a + b - 1) b Hb).
    pose proof (Z.div_mod (a + b - 1) b ltac:(lia)). nia.
Qed.

Lemma ceil_div_covers (a b : Z) : 0 <= a -> 0 < b -> a <= ceil_div a b * b.
Proof.
  intros Ha Hb. unfold ceil_div.
  pose proof (Z.mod_pos_bound (a + b - 1) b Hb).
  pose proof (Z.div_mod (a + b - 1) b ltac:(lia)). nia.
Qed.

Lemma ceil_div_nonneg (a b : Z) : 0 <= a -> 0 < b -> 0 <= ceil_div a b.
Proof. intros Ha Hb. unfold ceil_div. apply Z.div_pos; lia. Qed.

(** The body of the answer for a chunk index within the count. *)
Lemma sendBundleChunk_body st bundle bundleData (i : nat) :
  0 < chunkSize (config st) ->
  disk st !! bundlePath bundle = Some bundleData ->
  size bundle = Z.of_nat (length bundleData) ->
  Z.of_nat i < ceil_div (size bundle) (chunkSize (config st)) ->
  body (sendBundleChunk st bundle (Z.of_nat i))
  = take (Z.to_nat (chunkSize (config st)))
      (drop (i * Z.to_nat (chunkSize (config st))) bundleData)
  /\ body (sendBundleChunk st bundle (Z.of_nat i)) <> []
  /\ headers (sendBundleChunk st bundle (Z.of_nat i)) !! 1%nat
     = Some ("Content-Length",
             Number_toString (Z.of_nat (length (body (sendBundleChunk st bundle (Z.of_nat i)))))).
Proof.
  intros Hcs Hfile Hsize Hi.
  set (cs := chunkSize (config st)) in *.
  destruct (ceil_div_bounds (size bundle) cs ltac:(lia) Hcs) as [(_ & _ & Hlt)|[_ H0]]; [|lia].
  assert (Hstart : Z.of_nat i * cs < size bundle) by nia.
  unfold sendBundleChunk, readRange. simpl. fold cs. rewrite Hfile. simpl.
  assert (Hdrop : Z.to_nat (Z.of_nat i * cs) = (i * Z.to_nat cs)%nat) by lia.
  rewrite Hdrop.
  set (rest := drop (i * Z.to_nat cs) bundleData).
  assert (Hrest : Z.of_nat (length rest) = size bundle - Z.of_nat i * cs).
  { unfold rest. rewrite length_drop. lia. }
  assert (Htake : take (Z.to_nat (Z.min (Z.of_nat i * cs + cs - 1) (size bundle - 1)
                                  - Z.of_nat i * cs + 1)) rest
                  = take (Z.to_nat cs) rest).
  { destruct (Z.le_gt_cases (Z.of_nat i * cs + cs - 1) (size bundle - 1)).
    - rewrite Z.min_l by done. f_equal. lia.
    - rewrite Z.min_r by lia. rewrite !take_ge; [done|lia|lia]. }
  rewrite Htake. split; [done|]. split.
  - intros Hnil. apply (f_equal length) in Hnil. rewrite length_take in Hnil.
    simpl in Hnil. lia.
  - do 3 f_equal. rewrite length_take.
    destruct (Z.le_gt_cases (Z.of_nat i * cs + cs - 1) (size bundle - 1)).
    + rewrite Z.min_l by done. lia.
    + rewrite Z.min_r by lia. lia.
Qed.

(** X12. The chunks of an announced bundle tile it: for a positive chunk
    size, the bodies that [sendBundleChunk] sends for the chunk indices
    0, 1, ... below the announced chunk count, put one after the other, are
    the bundle file; none of them is empty, and each is announced with its
    own length as Content-Length. *)
Theorem chunk_downloads_reassemble native kp running now bundleId path manifest st bundleData :
  0 < chunkSize (config st) ->
  disk st !! path = Some bundleData ->
  let st1 := fst (fst (announceBundle native (Some kp) running now bundleId path manifest st)) in
  exists bundle,
    availableBundles st1 !! bundleId = Some bundle
    /\ concat (map (fun i => body (sendBundleChunk st1 bundle i)) (seqZ 0 (chunks bundle)))
       = bundleData
    /\ forall i, 0 <= i < chunks bundle ->
         body (sendBundleChunk st1 bundle i) <> []
         /\ headers (sendBundleChunk st1 bundle i) !! 1%nat
            = Some ("Content-Length",
                    Number_toString (Z.of_nat (length (body (sendBundleChunk st1 bundle i))))).
Proof.
  intros Hcs Hfile st1.
  destruct (announceBundle_registers native kp running now bundleId path manifest st
              bundleData Hfile) as (_ & Hdisk & Hconfig & _ & Hbundles).
  fold st1 in Hdisk, Hconfig, Hbundles.
  eexists. split; [rewrite Hbundles; apply lookup_insert_eq|].
  set (bundle := {| bi_bundleId := bundleId |}).
  assert (Hcs1 : 0 < chunkSize (config st1)) by (by rewrite Hconfig).
  assert (Hfile1 : disk st1 !! bundlePath bundle = Some bundleData) by (by rewrite Hdisk).
  assert (Hchunks : chunks bundle = ceil_div (size bundle) (chunkSize (config st1)))
    by (by rewrite Hconfig).
  pose proof (ceil_div_nonneg (size bundle) (chunkSize (config st1)) ltac:(simpl; lia) Hcs1)
    as Hnonneg.
  split.
  - assert (Hseq : seqZ 0 (chunks bundle) = map Z.of_nat (seq 0 (Z.to_nat (chunks bundle)))).
    { unfold seqZ. apply map_ext. intros i. lia. }
    rewrite Hseq, map_map.
    etransitivity;
      [|apply (slices_concat (Z.to_nat (chunkSize (config st1))) bundleData
                 (Z.to_nat (chunks bundle)))].
    + f_equal. apply map_ext_in. intros i Hi. apply in_seq in Hi.
      apply (sendBundleChunk_body st1 bundle bundleData i Hcs1 Hfile1 eq_refl).
      rewrite <- Hchunks. lia.
    + pose proof (ceil_div_covers (size bundle) (chunkSize (config st1))
                    ltac:(simpl; lia) Hcs1) as Hcover.
      rewrite <- Hchunks in Hcover. simpl size in Hcover. nia.
  - intros i Hi. rewrite <- (Z2Nat.id i) by lia.
    apply (sendBundleChunk_body st1 bundle bundleData (Z.to_nat i) Hcs1 Hfile1 eq_refl).
    rewrite <- Hchunks. lia.
Qed.

Lemma chunk_downloads_reassemble_witness :
  let st1 :=
    fst (fst (announceBundle None
                (Some (CryptoService.generateKeyPairFallback "00")) false 1000
                "bundle-5" "/srv/demo.bundle" Examples.manifest0 small_chunks)) in
  exists bundle,
    availableBundles st1 !! "bundle-5" = Some bundle
    /\ concat (map (fun i => body (sendBundleChunk st1 bundle i)) (seqZ 0 (chunks bundle)))
       = [x01; x02; x03; x04; x05]
    /\ chunks bundle = 3.
Proof.
  intros st1.
  destruct (chunk_downloads_reassemble None (CryptoService.generateKeyPairFallback "00")
              false 1000 "bundle-5" "/srv/demo.bundle" Examples.manifest0 small_chunks
              [x01; x02; x03; x04; x05])
    as (bundle & Hbundle & Hconcat & _).
  - reflexivity.
  - reflexivity.
  - exists bundle. split; [exact Hbundle|]. split; [exact Hconcat|].
    vm_compute in Hbundle. injection Hbundle as <-. reflexivity.
Defined.

(** X13. What the host advertises for a bundle made by [createBundle] and
    announced from the file that holds it: the size on record, sent as
    Content-Length with a download, is the size in the result of
    [createBundle], 32; the SHA-256 on record, sent as X-Bundle-Checksum, is
    the hash of the file, that is of the 32 bytes of the digest of the
    compressed stream, while the checksum in the result of [createBundle] is
    that digest itself. *)
Theorem advertised_checksum_hashes_the_digest `{R : NodeRuntime} root manifest excludePatterns
    bundle res native kp running now bundleId path st :
  FileBundler.createBundle root manifest excludePatterns = Ok (bundle, res) ->
  disk st !! path = Some bundle ->
  let st1 := fst (fst (announceBundle native (Some kp) running now bundleId path manifest st)) in
  exists info compressed,
    availableBundles st1 !! bundleId = Some info
    /\ bundle = FileBundler.sha256_digest compressed
    /\ size info = FileBundler.size res
    /\ size info = 32
    /\ FileBundler.checksum res = Sha256.sha256_hex_bytes compressed
    /\ checksum info = Sha256.sha256_hex_bytes (FileBundler.sha256_digest compressed)
    /\ headers (sendEntireBundle st1 info)
       = [ ("Content-Type", "application/octet-stream");
           ("Content-Length", Number_toString 32);
           ("X-Bundle-Checksum",
            Sha256.sha256_hex_bytes (FileBundler.sha256_digest compressed));
           ("X-Bundle-Signature", bi_signature info) ].
Proof.
  intros Hbundle Hfile st1.
  destruct (announceBundle_registers native kp running now bundleId path manifest st
              bundle Hfile) as (_ & _ & _ & _ & Hbundles).
  fold st1 in Hbundles.
  unfold FileBundler.createBundle in Hbundle.
  destruct (FileBundler.getProjectFiles root _) as [files|e]; simpl in Hbundle; [|done].
  unfold FileBundler.createArchive in Hbundle.
  destruct (FileBundler.archiveStream root files manifest) as [written|e];
    simpl in Hbundle; [|done].
  injection Hbundle as <- <-.
  eexists _, (gzip written). split; [rewrite Hbundles; apply lookup_insert_eq|].
  unfold sendEntireBundle. cbn [size checksum bi_signature FileBundler.size FileBundler.checksum].
  rewrite ArchiveFacts.sha256_digest_length. done.
Qed.

Lemma advertised_checksum_hashes_the_digest_witness :
  let bundle := Examples.bundle_of Examples.project3 in
  let st := with_disk {[ "/srv/p3.bundle" := bundle ]} small_chunks in
  let st1 :=
    fst (fst (announceBundle None (Some (CryptoService.generateKeyPairFallback "00")) false
                1000 "bundle-3" "/srv/p3.bundle" Examples.manifest0 st)) in
  exists info,
    availableBundles st1 !! "bundle-3" = Some info
    /\ size info = 32
    /\ checksum info <> FileBundler.checksum (Examples.result_of Examples.project3).
Proof.
  intros bundle st st1.
  destruct (advertised_checksum_hashes_the_digest (R := Examples.stored)
              Examples.project3 Examples.manifest0 [] bundle
              (Examples.result_of Examples.project3) None
              (CryptoService.generateKeyPairFallback "00") false 1000 "bundle-3"
              "/srv/p3.bundle" st)
    as (info & compressed & Hinfo & _ & _ & Hsize & _ & _).
  - vm_compute. reflexivity.
  - reflexivity.
  - exists info. split; [exact Hinfo|]. split; [exact Hsize|].
    vm_compute in Hinfo. injection Hinfo as <-. vm_compute. discriminate.
Defined.

End HostingFacts.

(** ** Transfer service: what a request leaves behind *)
Module PullerFacts.
Import TransferService TransferLifetime Hosting.





(** A peer that is not in the table, or is in it as offline, is not asked. *)
Lemma unavailable_peer_is_refused ratio io peerId bundleId st :
  (forall p, discoveredPeers st !! peerId = Some p -> online p = false) ->
  requestBundle ratio io peerId bundleId st
  = (st, [], inl ("Peer " +:+ peerId +:+ " not available")).
Proof.
  intros Hoff. unfold requestBundle.
  destruct (discoveredPeers st !! peerId) as [p|]; [|done].
  by rewrite (Hoff p eq_refl).
Qed.





(** After lost-peer events an entry that was offline or absent is still
    so, and the entry of a peer that is among the lost is. *)
Lemma lost_peers_offline (lost : list string) (peerId : string) (st : state) :
  (peerId ∈ lost
   \/ forall p, discoveredPeers st !! peerId = Some p -> online p = false) ->
  forall p,
    discoveredPeers
      (foldl (fun s ev => onDiscoveryEvent ev s) st (PeerDiscovery.PeerLost <$> lost))
      !! peerId = Some p ->
    online p = false.
Proof.
  revert st. induction lost as [|q lost IH]; intros st Hcase; simpl.
  - destruct Hcase as [Hin|Hoff]; [by apply elem_of_nil in Hin | done].
  - apply IH.
    destruct (decide (q = peerId)) as [->|Hne].
    + right. intros p. destruct (discoveredPeers st !! peerId) as [peer|] eqn:Hpeer; simpl.
      * rewrite lookup_insert_eq. by intros [= <-].
      * by rewrite Hpeer.
    + destruct Hcase as [Hin|Hoff].
      * left. apply elem_of_cons in Hin as [->|Hin]; [congruence | done].
      * right. intros p. destruct (discoveredPeers st !! q) as [peer|]; simpl; [|apply Hoff].
        rewrite lookup_insert_ne by done. apply Hoff.
Qed.

(** X16. A peer that has been silent for more than 90 seconds can no
    longer be asked for a bundle: once the transfer service has handled the
    callbacks of [cleanupExpiredPeers], a request to that peer is refused as
    not available and opens no transfer. *)
Theorem silent_peer_is_not_asked ratio io bundleId now ds peerId peer st :
  PeerDiscovery.discoveredPeers ds !! peerId = Some peer ->
  now - PeerDiscovery.lastSeen peer > PeerDiscovery.PEER_TIMEOUT ->
  PeerDiscovery.onPeerLost ds = true ->
  let st' :=
    foldl (fun s ev => onDiscoveryEvent ev s) st
      (snd (PeerDiscovery.cleanupExpiredPeers now ds)) in
  requestBundle ratio io peerId bundleId st'
  = (st', [], inl ("Peer " +:+ peerId +:+ " not available")).
Proof.
  intros Hpeer Hold Hcb st'. apply unavailable_peer_is_refused.
  unfold st', PeerDiscovery.cleanupExpiredPeers. simpl. rewrite Hcb.
  apply lost_peers_offline. left.
  apply list_elem_of_fmap. exists (peerId, peer). split; [done|].
  apply elem_of_map_to_list. apply map_lookup_filter_Some. split; [done|]. simpl.
  destruct (Z.gtb_spec (now - PeerDiscovery.lastSeen peer) PeerDiscovery.PEER_TIMEOUT);
    [done | lia].
Qed.

Lemma silent_peer_is_not_asked_witness :
  let st' :=
    foldl (fun s ev => onDiscoveryEvent ev s) puller
      (snd (PeerDiscovery.cleanupExpiredPeers 200000 DiscoveryExamples.one_peer)) in
  requestBundle no_ratio (request_of (Some 5) [[x01]]) "60e05bd1b195af2f" "bundle-1" st'
  = (st', [], inl ("Peer " +:+ "60e05bd1b195af2f" +:+ " not available")).
Proof.
  refine (silent_peer_is_not_asked no_ratio (request_of (Some 5) [[x01]]) "bundle-1" 200000
            DiscoveryExamples.one_peer "60e05bd1b195af2f"
            {| PeerDiscovery.id := "60e05bd1b195af2f"; PeerDiscovery.name := "DevShare-host";
               PeerDiscovery.address := "192.168.1.7"; PeerDiscovery.port := 7682;
               PeerDiscovery.publicKey := "60e05bd1b195af2f94112fa7197a5c88";
               PeerDiscovery.lastSeen := 1000 |} puller _ _ _).
  - reflexivity.
  - vm_compute. reflexivity.
  - reflexivity.
Defined.


End PullerFacts.

(** ** Chunks of a bundle *)
Module ChunkerFacts.
Import Chunker.

Section ChunkProofs.
Variable chunk_size : Z.
Hypothesis chunk_size_positive : 0 < chunk_size.
Variable numChunks : Z.

(** More turns than the buffer has bytes change nothing: the loop has
    ended before they are used. *)
Lemma drain_turns turns i buffer :
  (length buffer <= turns)%nat ->
  drain chunk_size (S turns) numChunks i buffer = drain chunk_size turns numChunks i buffer.
Proof.
  revert i buffer. induction turns as [|turns IH]; intros i buffer Hturns.
  - destruct buffer; [|simpl in Hturns; lia]. simpl. change (Z.of_nat 0) with 0.
    destruct (Z.leb_spec chunk_size 0); [lia|]. by rewrite andb_false_r.
  - remember (S turns) as n eqn:Hn. simpl drain at 1. rewrite Hn at 2. simpl drain at 2.
    set (len := Z.of_nat (length buffer)).
    destruct ((chunk_size <=? len) || ((i =? numChunks - 1) && (0 <? len))) eqn:Hcond;
      [|done].
    destruct (numChunks <=? i + 1); [done|]. subst n. rewrite IH; [done|].
    assert (0 < len).
    { apply orb_true_iff in Hcond as [H|H]; [apply Z.leb_le in H; lia|].
      apply andb_true_iff in H as [_ H]. by apply Z.ltb_lt in H. }
    rewrite length_drop, length_take. unfold len in *. lia.
Qed.

Lemma drain_sound turns i buffer (coming : Z) :
  (length buffer <= turns)%nat -> 0 <= coming ->
  within_count chunk_size numChunks i (Z.of_nat (length buffer) + coming) ->
  let r := drain chunk_size turns numChunks i buffer in
  concat (data <$> fst (fst r)) ++ snd r = buffer
  /\ index <$> fst (fst r) = seqZ i (Z.of_nat (length (fst (fst r))))
  /\ snd (fst r) = i + Z.of_nat (length (fst (fst r)))
  /\ Forall (sound chunk_size) (fst (fst r))
  /\ within_count chunk_size numChunks (snd (fst r)) (Z.of_nat (length (snd r)) + coming).
Proof.
  revert i buffer. induction turns as [|turns IH]; intros i buffer Hturns Hcoming Hinv.
  - destruct buffer; [|simpl in Hturns; lia]. simpl.
    repeat split; try done; try lia; apply Hinv.
  - simpl drain.
    set (len := Z.of_nat (length buffer)) in *.
    destruct ((chunk_size <=? len) || ((i =? numChunks - 1) && (0 <? len))) eqn:Hcond.
    2: { simpl. rewrite Z.add_0_r. repeat split; try done; apply Hinv. }
    destruct Hinv as (Hle & Hbelow & Hat).
    assert (Hlen : 0 < len /\ i < numChunks
                   /\ (i < numChunks - 1 -> chunk_size <= len)).
    { apply orb_true_iff in Hcond as [Hfull|Hlast].
      - apply Z.leb_le in Hfull. split; [lia|]. split; [|done].
        destruct (Z.eq_dec i numChunks) as [Heq|]; [specialize (Hat Heq)|]; lia.
      - apply andb_true_iff in Hlast as [Hi Hpos].
        apply Z.eqb_eq in Hi. apply Z.ltb_lt in Hpos. lia. }
    destruct Hlen as (Hpos & Hi & Hfull). specialize (Hbelow Hi).
    set (taken := Z.to_nat (Z.min chunk_size len)).
    assert (Htaken : length (take taken buffer) = taken).
    { rewrite length_take. unfold taken, len. lia. }
    rewrite Htaken.
    assert (Hrest : Z.of_nat (length (drop taken buffer)) = len - Z.min chunk_size len).
    { rewrite length_drop. unfold taken, len. lia. }
    assert (Hsound : sound chunk_size {| index := i; data := take taken buffer;
                              checksum := Sha256.sha256_hex_bytes (take taken buffer);
                              size := Z.of_nat taken |}).
    { unfold sound. simpl. rewrite Htaken. repeat split; try done.
      - intros Hnil. apply (f_equal length) in Hnil. rewrite Htaken in Hnil.
        simpl in Hnil. unfold taken in Hnil. lia.
      - unfold taken. lia. }
    destruct (Z.leb_spec numChunks (i + 1)) as [Hbreak|Hmore].
    + simpl. rewrite app_nil_r, take_drop.
      split; [done|]. split; [done|]. split; [lia|].
      split; [constructor; [exact Hsound | constructor]|].
      unfold within_count. rewrite Hrest. repeat split; lia.
    + specialize (IH (i + 1) (drop taken buffer)).
      destruct (drain chunk_size turns numChunks (i + 1) (drop taken buffer))
        as [[more j] b] eqn:Hd.
      simpl in IH. cbn [fst snd]. rewrite !fmap_cons. cbn [data index length concat].
      destruct IH as (Hcat & Hidx & Hj & Hall & Hinv').
      { rewrite length_drop. unfold taken, len in *. lia. }
      { done. }
      { rewrite Hrest. unfold within_count. repeat split; [lia| |lia].
        intros _. rewrite Z.min_l by (apply Hfull; lia). lia. }
      split; [|split; [|split; [|split]]].
      * rewrite <- app_assoc, Hcat. apply take_drop.
      * rewrite Hidx. rewrite (seqZ_cons i) by lia. f_equal. f_equal; lia.
      * lia.
      * by constructor.
      * exact Hinv'.
Qed.

(** Whatever the pieces, the chunks are numbered from the index on, are
    sound, hold a prefix of the bytes, and their number stays within
    [numChunks]. *)
Lemma readLoop_sound pieces i buffer :
  within_count chunk_size numChunks i
    (Z.of_nat (length buffer) + Z.of_nat (length (concat pieces))) ->
  let made := readLoop chunk_size numChunks pieces i buffer in
  (exists dropped, concat (data <$> made) ++ dropped = buffer ++ concat pieces)
  /\ index <$> made = seqZ i (Z.of_nat (length made))
  /\ Forall (sound chunk_size) made
  /\ i + Z.of_nat (length made) <= numChunks.
Proof.
  revert i buffer. induction pieces as [|piece rest IH]; intros i buffer Hinv.
  - simpl. split; [exists buffer; by rewrite app_nil_r|]. repeat split; [constructor|].
    destruct Hinv as [? _]. lia.
  - simpl readLoop.
    pose proof (drain_sound (length (buffer ++ piece)) i (buffer ++ piece)
                  (Z.of_nat (length (concat rest))) ltac:(lia) ltac:(lia)) as Hdrain.
    destruct (drain chunk_size (length (buffer ++ piece)) numChunks i (buffer ++ piece))
      as [[made j] b] eqn:Hd.
    simpl in Hdrain.
    destruct Hdrain as (Hcat & Hidx & Hj & Hall & Hinv').
    { simpl in Hinv. rewrite !length_app in *. rewrite Nat2Z.inj_add in *.
      unfold within_count in *. repeat split; try apply Hinv.
      - intros Hi. destruct Hinv as (_ & H & _). specialize (H Hi). lia.
      - intros Hi. destruct Hinv as (_ & _ & H). specialize (H Hi). lia. }
    destruct (IH j b Hinv') as ((dropped & Hcat') & Hidx' & Hall' & Hcount).
    simpl. split; [|split; [|split]].
    + exists dropped. rewrite fmap_app, concat_app, <- app_assoc, Hcat'.
      by rewrite app_assoc, Hcat, <- app_assoc.
    + rewrite fmap_app, Hidx, Hidx', Hj, length_app, Nat2Z.inj_add.
      rewrite (seqZ_app i) by lia. done.
    + by apply Forall_app.
    + rewrite length_app, Nat2Z.inj_add. lia.
Qed.

(** With all the bytes in the buffer and none to come, the loop empties
    the buffer and ends at [numChunks]. *)
Lemma drain_complete turns i buffer :
  (length buffer <= turns)%nat ->
  i < numChunks ->
  (numChunks - i - 1) * chunk_size < Z.of_nat (length buffer) <= (numChunks - i) * chunk_size ->
  snd (drain chunk_size turns numChunks i buffer) = []
  /\ snd (fst (drain chunk_size turns numChunks i buffer)) = numChunks.
Proof.
  revert i buffer. induction turns as [|turns IH]; intros i buffer Hturns Hi Hlen.
  - destruct buffer; [|simpl in Hturns; lia]. simpl in Hlen. nia.
  - simpl drain. set (len := Z.of_nat (length buffer)) in *.
    destruct (Z.eq_dec i (numChunks - 1)) as [Hlast|Hnot].
    + assert (Hcond : (chunk_size <=? len) || ((i =? numChunks - 1) && (0 <? len)) = true).
      { apply orb_true_iff. right. apply andb_true_iff. split; [by apply Z.eqb_eq|].
        apply Z.ltb_lt. nia. }
      rewrite Hcond. rewrite length_take.
      destruct (Z.leb_spec numChunks (i + 1)); [|lia]. simpl. split; [|lia].
      apply drop_ge. unfold len in *. nia.
    + assert (Hfull : chunk_size <= len) by nia.
      assert (Hcond : (chunk_size <=? len) || ((i =? numChunks - 1) && (0 <? len)) = true).
      { apply orb_true_iff. left. by apply Z.leb_le. }
      rewrite Hcond. rewrite length_take.
      destruct (Z.leb_spec numChunks (i + 1)); [lia|].
      specialize (IH (i + 1)
                    (drop (Z.to_nat (Z.min chunk_size len) `min` length buffer) buffer)).
      destruct (drain chunk_size turns numChunks (i + 1) _) as [[more j] b]. simpl in *.
      apply IH; [rewrite length_drop; unfold len in *; lia | lia |].
      rewrite length_drop. unfold len in *. rewrite Z.min_l by done. nia.
Qed.

(** After the last chunk index has been used nothing more becomes a chunk,
    as long as fewer than [chunk_size] bytes are left. *)
Lemma readLoop_over pieces buffer :
  Z.of_nat (length buffer) + Z.of_nat (length (concat pieces)) < chunk_size ->
  readLoop chunk_size numChunks pieces numChunks buffer = [].
Proof.
  revert buffer. induction pieces as [|piece rest IH]; intros buffer Hshort; [done|].
  simpl in *. rewrite length_app, Nat2Z.inj_add in Hshort.
  assert (Hstop : drain chunk_size (length (buffer ++ piece)) numChunks numChunks
                    (buffer ++ piece) = ([], numChunks, buffer ++ piece)).
  { destruct (length (buffer ++ piece)) eqn:Hn; [done|]. simpl drain. rewrite Hn.
    destruct (Z.leb_spec chunk_size (Z.of_nat (S n))) as [Hfull|_].
    - rewrite <- Hn, length_app in Hfull. lia.
    - destruct (Z.eqb_spec numChunks (numChunks - 1)); [lia|]. done. }
  rewrite Hstop. simpl. apply IH. rewrite length_app. lia.
Qed.

End ChunkProofs.

Lemma CHUNK_SIZE_positive : 0 < CHUNK_SIZE.
Proof. reflexivity. Qed.

Lemma ceil_div_one (a b : Z) : 0 < a <= b -> ceil_div a b = 1.
Proof.
  intros Hab. unfold ceil_div. symmetry. apply (Z.div_unique _ _ 1 (a - 1)); lia.
Qed.

(** X18. However the read stream cuts the file into pieces, the chunks
    that [createChunks] returns are numbered 0, 1, 2, ..., none is empty or
    longer than 4 MiB, each carries the number and the SHA-256 of its bytes,
    there are at most ceil(size / 4 MiB) of them, and their bytes, put one
    after the other, are a prefix of the file. *)
Theorem createChunks_yields_a_prefix (pieces : list (list byte)) :
  exists chunks dropped,
    createChunks (Some pieces) = Ok chunks
    /\ concat (data <$> chunks) ++ dropped = concat pieces
    /\ index <$> chunks = seqZ 0 (Z.of_nat (length chunks))
    /\ Z.of_nat (length chunks) <= ceil_div (Z.of_nat (length (concat pieces))) CHUNK_SIZE
    /\ Forall (fun c => data c <> []
                        /\ Z.of_nat (length (data c)) <= CHUNK_SIZE
                        /\ size c = Z.of_nat (length (data c))
                        /\ checksum c = Sha256.sha256_hex_bytes (data c)) chunks.
Proof.
  set (total := Z.of_nat (length (concat pieces))).
  pose proof CHUNK_SIZE_positive as Hcs.
  destruct (readLoop_sound CHUNK_SIZE Hcs (ceil_div total CHUNK_SIZE) pieces 0 [])
    as ((dropped & Hcat) & Hidx & Hall & Hcount).
  { simpl length. fold total. unfold within_count.
    pose proof (HostingFacts.ceil_div_nonneg total CHUNK_SIZE ltac:(unfold total; lia) Hcs).
    pose proof (HostingFacts.ceil_div_covers total CHUNK_SIZE ltac:(unfold total; lia) Hcs).
    repeat split; lia. }
  exists (createChunksOf CHUNK_SIZE pieces), dropped.
  unfold createChunks, createChunksOf. fold total.
  repeat split; try done; lia.
Qed.

(** X19. When the whole file arrives in one piece, the chunks are the
    file: their bytes, put one after the other, are all its bytes, and
    there are ceil(size / 4 MiB) of them. *)
Theorem createChunks_of_one_piece (file : list byte) :
  exists chunks,
    createChunks (Some [file]) = Ok chunks
    /\ concat (data <$> chunks) = file
    /\ Z.of_nat (length chunks) = ceil_div (Z.of_nat (length file)) CHUNK_SIZE.
Proof.
  pose proof CHUNK_SIZE_positive as Hcs.
  exists (createChunksOf CHUNK_SIZE [file]). split; [done|].
  unfold createChunksOf. simpl concat. rewrite app_nil_r. simpl readLoop.
  set (total := Z.of_nat (length file)).
  set (numChunks := ceil_div total CHUNK_SIZE).
  pose proof (HostingFacts.ceil_div_nonneg total CHUNK_SIZE ltac:(unfold total; lia) Hcs).
  pose proof (HostingFacts.ceil_div_covers total CHUNK_SIZE ltac:(unfold total; lia) Hcs).
  pose proof (drain_sound CHUNK_SIZE Hcs numChunks (length file) 0 file 0
                ltac:(lia) ltac:(lia)) as Hsound.
  destruct (HostingFacts.ceil_div_bounds total CHUNK_SIZE ltac:(unfold total; lia) Hcs)
    as [(Hsome & Hcount & Hlow)|[Hzero Hnone]].
  - pose proof (drain_complete CHUNK_SIZE Hcs numChunks (length file) 0 file
                  ltac:(lia)) as Hcomplete.
    destruct (drain CHUNK_SIZE (length file) numChunks 0 file) as [[made j] b].
    simpl in *.
    fold numChunks in Hlow, Hcount.
    destruct Hcomplete as [-> ->]; [lia | fold total; lia |].
    destruct Hsound as (Hcat & _ & Hj & _).
    { unfold within_count. fold total. repeat split; lia. }
    rewrite app_nil_r in *. split; [done | lia].
  - assert (Hfile : file = []).
    { destruct file; [done|]. unfold total in Hzero. simpl in Hzero. lia. }
    subst file. simpl. unfold numChunks. rewrite Hnone. done.
Qed.

(** X20. The last chunk takes what is in the buffer when its turn comes,
    not what belongs to it: of a file of at most 4 MiB that arrives in more
    than one piece, [createChunks] returns one chunk, which holds the first
    piece and nothing of the pieces after it. *)
Theorem createChunks_drops_later_pieces (first : list byte) (later : list (list byte)) :
  first <> [] ->
  Z.of_nat (length (first ++ concat later)) <= CHUNK_SIZE ->
  createChunks (Some (first :: later))
  = Ok [ {| index := 0; data := first;
            checksum := Sha256.sha256_hex_bytes first;
            size := Z.of_nat (length first) |} ].
Proof.
  intros Hfirst Hsmall. pose proof CHUNK_SIZE_positive as Hcs.
  unfold createChunks, createChunksOf. f_equal.
  assert (Hlen : 0 < Z.of_nat (length first)) by (destruct first; [done | simpl; lia]).
  rewrite length_app, Nat2Z.inj_add in Hsmall.
  simpl concat. rewrite length_app, Nat2Z.inj_add.
  rewrite ceil_div_one by lia.
  simpl readLoop.
  destruct (length first) as [|n] eqn:Hn; [lia|]. simpl drain. rewrite Hn.
  assert (Hmin : Z.to_nat (Z.min CHUNK_SIZE (Z.of_nat (S n))) = length first) by lia.
  rewrite Hmin, !firstn_all, drop_all.
  assert (Hcond : (CHUNK_SIZE <=? Z.of_nat (S n)) || (0 <? Z.of_nat (S n)) = true).
  { apply orb_true_iff. right. apply Z.ltb_lt. lia. }
  rewrite Hcond, Hn.
  rewrite (readLoop_over CHUNK_SIZE 1) by (simpl; lia). done.
Qed.

Lemma createChunks_drops_later_pieces_witness :
  createChunks (Some [[x01; x02]; [x03]; [x04; x05]])
  = Ok [ {| index := 0; data := [x01; x02];
            checksum := Sha256.sha256_hex_bytes [x01; x02];
            size := Z.of_nat (length [x01; x02]) |} ].
Proof.
  apply (createChunks_drops_later_pieces [x01; x02] [[x03]; [x04; x05]]).
  - discriminate.
  - vm_compute. discriminate.
Defined.

End ChunkerFacts.

(** ** Validation and extraction of a bundle *)
Module ValidationFacts.
Import FileBundler BundleExtractor BundleLayout BundleValidation BufferFacts DecoderFacts.

#[local] Opaque bytesBE.

Section ValidationProofs.
Context `{R : NodeRuntime}.

(** What [validateBundle] has read when it answers valid. *)
Lemma validateBundle_valid (at_path : entry) (m : ProjectManifest) :
  validateBundle at_path = Some (Valid m) ->
  name m <> "" /\ version m <> "" /\ language m <> "" /\ run m <> ""
  /\ exists bundle b1 s1 b2 s2,
       at_path = Regular bundle
       /\ hear (closes bundle) 4 (heard bundle) = (s1, Ok b1)
       /\ readUIntBE b1 <= 1024 * 1024
       /\ hear (closes bundle) (readUIntBE b1) s1 = (s2, Ok b2)
       /\ JSON_parse (string_of_list_byte b2) = Some m.
Proof.
  unfold validateBundle. destruct at_path as [| |bundle]; [done|done|].
  unfold readManifest, mbind, Ext_bind.
  rewrite readBytes_hear. cbn [stream closed files made].
  destruct (hear (closes bundle) 4 (heard bundle)) as [s1 [b1|e1]] eqn:H1;
    cbn [fst snd]; [|by destruct e1].
  destruct (Z.gtb_spec (readUIntBE b1) (1024 * 1024)) as [Hbig|Hsmall]; [done|].
  rewrite readBytes_hear. cbn [stream closed files made].
  destruct (hear (closes bundle) (readUIntBE b1) s1) as [s2 [b2|e2]] eqn:H2;
    cbn [fst snd]; [|by destruct e2].
  destruct (JSON_parse _) as [m'|] eqn:Hparse; [|done].
  unfold falsy.
  destruct (String.eqb_spec (name m') ""); [done|].
  destruct (String.eqb_spec (version m') ""); [done|].
  destruct (String.eqb_spec (language m') ""); [done|].
  destruct (String.eqb_spec (run m') ""); [done|].
  simpl. intros [= <-]. repeat split; try done.
  by exists bundle, b1, s1, b2, s2.
Qed.


(** X22. No bundle that comes in one chunk is valid, and so no bundle that
    [createBundle] has written: the first read of [validateBundle] takes
    its four bytes from the chunk and puts the rest back where no read gets
    it, and the second read finds the stream at its end. *)
Theorem one_chunk_is_never_valid (file : list byte) (c : closing) (m : ProjectManifest) :
  validateBundle (Regular (in_one_chunk file c)) <> Some (Valid m).
Proof.
  intros Hvalid.
  apply validateBundle_valid in Hvalid
    as (_ & _ & _ & _ & bundle & b1 & s1 & b2 & s2 & [= <-] & H1 & _ & H2 & _).
  apply hear_shorter in H1. apply hear_shorter in H2.
  assert (Hone : (length (heard (in_one_chunk file c)) <= 1)%nat).
  { unfold in_one_chunk. destruct (gunzip file) as [[|b decompressed]|]; simpl; lia. }
  lia.
Qed.

(** X23. A valid bundle need not extract: [validateBundle] does not look
    past the manifest. A bundle of which two chunks are heard, and which is
    valid, makes [performExtraction] fail at its third read, as the stream
    closes, the destination left as it was. *)
Theorem valid_bundle_may_not_extract (bundle : delivery) (m : ProjectManifest)
    (extractPath : string) (dest : gmap string (list byte)) :
  validateBundle (Regular bundle) = Some (Valid m) ->
  length (heard bundle) = 2%nat ->
  performExtraction bundle extractPath dest = (dest, Err (rejection (closes bundle))).
Proof.
  intros Hvalid Htwo.
  apply validateBundle_valid in Hvalid
    as (_ & _ & _ & _ & bundle' & b1 & s1 & b2 & s2 & [= <-] & H1 & _ & H2 & Hparse).
  pose proof (hear_shorter _ _ _ _ _ H1) as Hs1.
  pose proof (hear_shorter _ _ _ _ _ H2) as Hs2.
  destruct s2; [|simpl in Hs2; lia].
  unfold performExtraction, decode, mbind, Ext_bind.
  rewrite readBytes_hear. cbn [stream closed files made]. rewrite H1. cbn [fst snd].
  rewrite readBytes_hear. cbn [stream closed files made]. rewrite H2. cbn [fst snd].
  rewrite Hparse. by rewrite readBytes_hear.
Qed.

Lemma writeAll_keeps (extractPath : string) recs (dest : gmap string (list byte)) p :
  is_Some (dest !! p) -> is_Some (writeAll extractPath recs dest !! p).
Proof.
  revert dest. induction recs as [|rec recs IH]; intros dest Hp; [done|].
  apply IH. apply lookup_insert_is_Some'. by right.
Qed.

(** X24. Extraction takes no file away. Whatever the bundle, and whether
    the extraction succeeds or fails, every path that held a file below the
    destination holds one afterwards; and without [overwrite] a destination
    that holds a file is left exactly as it was, the extraction refused. *)
Theorem extraction_removes_nothing (bundle : delivery) (extractPath : string)
    (overwrite : bool) (dest : gmap string (list byte)) :
  (forall p, is_Some (dest !! p) ->
             is_Some (fst (extractBundle bundle extractPath overwrite dest) !! p))
  /\ (overwrite = false -> dest <> ∅ ->
      extractBundle bundle extractPath overwrite dest = (dest, Err DirectoryNotEmpty))
  /\ (dest <> ∅ ->
      bundler_extractBundle bundle extractPath dest = (dest, Err DirectoryNotEmpty)).
Proof.
  assert (Hrefused : dest <> ∅ ->
            extractBundle bundle extractPath false dest = (dest, Err DirectoryNotEmpty)).
  { intros Hne. unfold extractBundle, validateExtractPath. by rewrite decide_False. }
  split; [|split].
  - intros p Hp. unfold extractBundle.
    destruct (if overwrite then Ok tt else validateExtractPath dest); [|done].
    destruct (snd (performExtraction bundle extractPath dest)) as [r|e] eqn:Hrun.
    + apply performExtraction_returns in Hrun
        as (count & s3 & recs & rest & _ & _ & _ & -> & _).
      apply lookup_insert_is_Some'. right. by apply writeAll_keeps.
    + apply failed_extraction_keeps_files in Hrun as (recs & -> & _).
      by apply writeAll_keeps.
  - intros ->. exact Hrefused.
  - intros Hne. unfold bundler_extractBundle. by rewrite (Hrefused Hne).
Qed.

End ValidationProofs.

Import Examples.


Lemma valid_bundle_may_not_extract_witness :
  validateBundle
    (Regular (fieldwise (firstn 2 (headerFields Examples.manifest0 1)) Ended))
  = Some (Valid Examples.manifest0)
  /\ performExtraction (fieldwise (firstn 2 (headerFields Examples.manifest0 1)) Ended)
       "/out" ∅
     = (∅, Err UnexpectedEndOfStream).
Proof.
  split; [vm_compute; reflexivity|].
  apply (valid_bundle_may_not_extract
           (fieldwise (firstn 2 (headerFields Examples.manifest0 1)) Ended)
           Examples.manifest0 "/out" ∅).
  - vm_compute. reflexivity.
  - reflexivity.
Defined.

End ValidationFacts.

(** ** What the scan keeps *)
Module ScanFacts.
Import FileBundler Scan ArchiveFacts EncoderFacts ExclusionFacts.

Lemma shouldExclude_existsb (filePath : string) (patterns : list string) :
  Forall usable patterns ->
  shouldExclude filePath patterns
  = Ok (existsb (fun pattern => excludes pattern filePath) patterns).
Proof.
  induction 1 as [|p patterns Hp _ IH]; simpl; [done|].
  unfold excludes at 1. destruct (includes_star p) eqn:Hstar.
  - specialize (Hp Hstar). unfold compiles in Hp.
    destruct (RegExp (replace_star p)) as [re|]; [|done]. simpl.
    by destruct (RegExp_test re _).
  - by destruct (_ || _).
Qed.

(** X25. The order of the patterns does not matter: when every pattern
    can be processed, [shouldExclude] returns true exactly when one of the
    patterns excludes the path, so that two lists with the same patterns in
    another order give the same answer for every path. *)
Theorem shouldExclude_ignores_pattern_order (filePath : string)
    (patterns patterns' : list string) :
  Forall usable patterns ->
  patterns ≡ₚ patterns' ->
  shouldExclude filePath patterns = shouldExclude filePath patterns'
  /\ (shouldExclude filePath patterns = Ok true <->
      exists pattern, pattern ∈ patterns /\ excludes pattern filePath = true).
Proof.
  intros Husable Hperm.
  assert (Husable' : Forall usable patterns') by (by rewrite <- Hperm).
  rewrite !shouldExclude_existsb by done. split.
  - f_equal. apply eq_true_iff_eq. rewrite !existsb_exists.
    split; intros (p & Hp & Hex); exists p; (split; [|done]).
    + apply list_elem_of_In. rewrite <- Hperm. by apply list_elem_of_In.
    + apply list_elem_of_In. rewrite Hperm. by apply list_elem_of_In.
  - split.
    + intros [= Hex]. apply existsb_exists in Hex as (p & Hp & Hex).
      exists p. split; [by apply list_elem_of_In | done].
    + intros (p & Hp & Hex). f_equal. apply existsb_exists.
      exists p. split; [by apply list_elem_of_In | done].
Qed.

Lemma shouldExclude_ignores_pattern_order_witness :
  shouldExclude "dist/app.js" DEFAULT_EXCLUDES
  = shouldExclude "dist/app.js" (rev DEFAULT_EXCLUDES).
Proof.
  refine (proj1 (shouldExclude_ignores_pattern_order "dist/app.js" DEFAULT_EXCLUDES
                   (rev DEFAULT_EXCLUDES) _ _)).
  - apply default_excludes_usable.
  - apply Permutation_rev.
Defined.

(** *** Longer paths *)

Lemma chars_app (a b : string) :
  list_ascii_of_string (a +:+ b) = list_ascii_of_string a ++ list_ascii_of_string b.
Proof.
  induction a as [|c a IH]; [done|].
  change (list_ascii_of_string (String c (a +:+ b))
          = c :: (list_ascii_of_string a ++ list_ascii_of_string b)).
  simpl. by rewrite IH.
Qed.

Lemma prefix_longer (a b c : string) :
  String.prefix a b = true -> String.prefix a (b +:+ c) = true.
Proof.
  revert b. induction a as [|x a IH]; intros b; [by destruct b, c|].
  destruct b as [|y b]; [done|].
  change (String.prefix (String x a) (String y b) = true ->
          String.prefix (String x a) (String y (b +:+ c)) = true).
  simpl. destruct (ascii_dec x y); [apply IH | done].
Qed.

Lemma match_here_star (re : list atom) (s : list ascii) :
  match_here (AnyStar :: re) s
  = match_here re s
    || match s with
       | x :: s' => dot_matches x && match_here (AnyStar :: re) s'
       | [] => false
       end.
Proof. by destruct s. Qed.

Lemma match_here_longer (re : list atom) (s t : list ascii) :
  match_here re s = true -> match_here re (s ++ t) = true.
Proof.
  revert s. induction re as [|a re IH]; intros s; [done|].
  destruct a as [c| |].
  - destruct s as [|x s]; simpl; [done|].
    intros H. apply andb_true_iff in H as [-> H]. simpl. by apply IH.
  - destruct s as [|x s]; simpl; [done|].
    intros H. apply andb_true_iff in H as [-> H]. simpl. by apply IH.
  - induction s as [|x s IHs]; intros H; rewrite match_here_star in H;
      rewrite match_here_star.
    + rewrite orb_false_r in H. apply (IH []) in H. by rewrite H.
    + apply orb_true_iff in H as [H|H].
      * apply (IH (x :: s)) in H. by rewrite H.
      * apply andb_true_iff in H as [Hx H]. simpl app. cbv iota.
        rewrite Hx, (IHs H). apply orb_true_r.
Qed.

Lemma RegExp_test_longer (re : list atom) (s t : list ascii) :
  RegExp_test re s = true -> RegExp_test re (s ++ t) = true.
Proof.
  induction s as [|x s IH]; simpl.
  - rewrite orb_false_r. intros H. apply (match_here_longer re [] t) in H. simpl in H.
    destruct t; simpl; by rewrite H.
  - intros H. apply orb_true_iff in H as [H|H].
    + apply (match_here_longer re (x :: s) t) in H. simpl in H. by rewrite H.
    + rewrite (IH H). apply orb_true_r.
Qed.

(** What excludes a path excludes every path below it. *)
Lemma excludes_below (pattern dir rest : string) :
  excludes pattern dir = true -> excludes pattern (dir +:+ "/" +:+ rest) = true.
Proof.
  unfold excludes. destruct (includes_star pattern).
  - destruct (RegExp (replace_star pattern)) as [re|]; [|done].
    rewrite chars_app. apply RegExp_test_longer.
  - intros H. apply orb_true_iff in H as [H|H]; apply orb_true_iff; right.
    + apply String.eqb_eq in H as ->. unfold startsWith.
      by rewrite <- append_assoc, prefix_append.
    + unfold startsWith in *. by apply prefix_longer.
Qed.

Lemma shouldExclude_below (patterns : list string) (dir rest : string) :
  Forall usable patterns ->
  shouldExclude dir patterns = Ok true ->
  shouldExclude (dir +:+ "/" +:+ rest) patterns = Ok true.
Proof.
  intros Husable. rewrite !shouldExclude_existsb by done. intros [= Hex]. f_equal.
  apply existsb_exists in Hex as (p & Hp & Hex). apply existsb_exists.
  exists p. split; [done|]. by apply excludes_below.
Qed.

(** *** The paths of a tree *)

Lemma relativePath_not_empty (rel entry : string) : entry <> "" -> relativePath rel entry <> "".
Proof.
  intros Hentry. unfold relativePath. destruct (String.eqb_spec rel ""); [done|].
  by destruct rel.
Qed.

Lemma relativePath_below (rel entry : string) :
  rel <> "" -> relativePath rel entry = rel +:+ "/" +:+ entry.
Proof. intros Hrel. unfold relativePath. by destruct (String.eqb_spec rel ""). Qed.

(** A file below a node with a path of its own has that path, or a path
    that continues it after a slash. *)
Lemma filesOf_below (n : fsnode) :
  forall rel p, rel <> "" -> p ∈ fst <$> filesOf rel n ->
                p = rel \/ exists rest, p = rel +:+ "/" +:+ rest.
Proof.
  induction n as [content| | |entries IH] using fsnode_induction; intros rel p Hrel; simpl.
  - intros Hp. apply list_elem_of_singleton in Hp. by left.
  - intros Hp. by apply elem_of_nil in Hp.
  - intros Hp. by apply elem_of_nil in Hp.
  - induction IH as [|[entry child] rest Hchild _ IHrest]; simpl.
    + intros Hp. by apply elem_of_nil in Hp.
    + rewrite fmap_app. intros Hp. apply elem_of_app in Hp as [Hp|Hp]; [|by apply IHrest].
      right. simpl in Hchild. rewrite relativePath_below in Hp by done.
      destruct (Hchild (rel +:+ "/" +:+ entry) p) as [->|[more ->]]; [by destruct rel|done| |].
      * by exists entry.
      * exists (entry +:+ "/" +:+ more). by rewrite !append_assoc.
Qed.

(** The scan keeps a path only if [shouldExclude] has let it pass. *)
Lemma scanEntry_passed (excludePatterns : list string) (n : fsnode) :
  forall rel found p,
    scanEntry excludePatterns rel n = Ok found -> p ∈ found ->
    (exists content, n = File content) \/ shouldExclude p excludePatterns = Ok false.
Proof.
  induction n as [content| | |entries IH] using fsnode_induction; intros rel found p; simpl.
  - intros _ _. left. by exists content.
  - intros [= <-] Hp. by apply elem_of_nil in Hp.
  - done.
  - intros Hscan Hp. right. revert found Hscan Hp.
    induction IH as [|[entry child] rest Hchild _ IHrest]; intros found.
    + intros [= <-] Hp. by apply elem_of_nil in Hp.
    + simpl in Hchild.
      destruct (shouldExclude (relativePath rel entry) excludePatterns) as [[|]|e] eqn:Hex;
        simpl; [by apply IHrest| |done].
      destruct (scanEntry excludePatterns (relativePath rel entry) child) as [here|e]
        eqn:Hhere; simpl; [|done].
      match goal with
      | |- context [mbind _ ?m] => destruct m as [more|e] eqn:Hmore; simpl; [|done]
      end.
      intros [= <-] Hp. apply elem_of_app in Hp as [Hp|Hp]; [|by apply (IHrest more)].
      destruct (Hchild _ _ _ Hhere Hp) as [[content ->]|Hpass]; [|done].
      simpl in Hhere. injection Hhere as <-. apply list_elem_of_singleton in Hp as ->. done.
Qed.

(** The scan keeps every file whose own path [shouldExclude] lets pass. *)
Lemma scanEntry_kept (excludePatterns : list string) (n : fsnode) :
  Forall usable excludePatterns ->
  forall rel found p,
    named n ->
    scanEntry excludePatterns rel n = Ok found ->
    p ∈ fst <$> filesOf rel n ->
    shouldExclude p excludePatterns = Ok false ->
    p ∈ found.
Proof.
  intros Husable.
  induction n as [content| | |entries IH] using fsnode_induction; intros rel found p; simpl.
  - intros _ [= <-] Hp _. done.
  - intros _ _ Hp. by apply elem_of_nil in Hp.
  - done.
  - intros Hnamed Hscan Hp Hpass. revert found Hnamed Hscan Hp.
    induction IH as [|[entry child] rest Hchild _ IHrest]; intros found; simpl.
    + intros _ _ Hp. by apply elem_of_nil in Hp.
    + intros (Hentry & Hnamed & Hrest). simpl in Hchild. rewrite fmap_app.
      destruct (shouldExclude (relativePath rel entry) excludePatterns) as [[|]|e] eqn:Hex;
        simpl; [| |done].
      * intros Hscan Hp. apply elem_of_app in Hp as [Hp|Hp]; [|by apply IHrest].
        exfalso.
        apply filesOf_below in Hp as [->|[more ->]];
          [congruence| |by apply relativePath_not_empty].
        rewrite (shouldExclude_below _ _ _ Husable Hex) in Hpass. done.
      * destruct (scanEntry excludePatterns (relativePath rel entry) child) as [here|e]
          eqn:Hhere; simpl; [|done].
        match goal with
        | |- context [mbind _ ?m] => destruct m as [more|e] eqn:Hmore; simpl; [|done]
        end.
        intros [= <-] Hp. apply elem_of_app.
        apply elem_of_app in Hp as [Hp|Hp]; [left | right; by apply (IHrest more)].
        by apply (Hchild (relativePath rel entry)).
Qed.

(** The paths that the scan of a directory keeps. *)
Lemma scanEntry_iff (excludePatterns : list string) (entries : list (string * fsnode))
    (found : list string) :
  Forall usable excludePatterns ->
  named (Directory entries) ->
  scanEntry excludePatterns "" (Directory entries) = Ok found ->
  forall p,
    p ∈ found <->
    p ∈ fst <$> filesOf "" (Directory entries)
    /\ shouldExclude p excludePatterns = Ok false.
Proof.
  intros Husable Hnamed Hscan p. split.
  - intros Hp. split.
    + eapply elem_of_sublist; [exact Hp|]. apply (scanEntry_sublist _ _ _ _ Hscan).
    + by destruct (scanEntry_passed _ _ _ _ _ Hscan Hp) as [[content ?]|?].
  - intros [Hp Hpass].
    by apply (scanEntry_kept excludePatterns (Directory entries) Husable "" found p).
Qed.

(** *** Patterns of stars, dots and ordinary characters *)

Lemma RegExp_dot (c' : ascii) (rest : list ascii) :
  c' <> star ->
  RegExp (dot :: c' :: rest) = (re ← RegExp (c' :: rest); Ok (AnyChar :: re)).
Proof.
  intros Hstar.
  change (RegExp (dot :: c' :: rest))
    with (if Ascii.eqb dot dot
          then if Ascii.eqb c' star then re ← RegExp rest; Ok (AnyStar :: re)
               else re ← RegExp (c' :: rest); Ok (AnyChar :: re)
          else if Ascii.eqb dot star then Err SyntaxError
          else if is_meta dot then Err UnsupportedPattern
          else re ← RegExp (c' :: rest); Ok (Lit dot :: re)).
  rewrite Ascii.eqb_refl. by destruct (Ascii.eqb_spec c' star).
Qed.

Lemma RegExp_lit (c : ascii) (rest : list ascii) :
  c <> dot -> c <> star -> is_meta c = false ->
  RegExp (c :: rest) = (re ← RegExp rest; Ok (Lit c :: re)).
Proof.
  intros Hdot Hstar Hmeta. simpl.
  destruct (Ascii.eqb_spec c dot); [done|]. destruct (Ascii.eqb_spec c star); [done|].
  by rewrite Hmeta.
Qed.

Lemma replace_star_compiles (chars : list ascii) :
  forallb (fun c => negb (is_meta c)) chars = true ->
  exists re,
    RegExp (flat_map (fun c => if Ascii.eqb c star then [dot; star] else [c]) chars) = Ok re.
Proof.
  induction chars as [|c chars IH]; [by eexists|].
  simpl forallb. intros H. apply andb_true_iff in H as [Hc Hrest].
  apply negb_true_iff in Hc.
  destruct (IH Hrest) as [re Hre]. simpl flat_map.
  destruct (Ascii.eqb_spec c star) as [->|Hstar].
  - simpl. rewrite Hre. simpl. eauto.
  - simpl app. destruct (Ascii.eqb_spec c dot) as [->|Hdot].
    + destruct chars as [|c' chars]; [by eexists|].
      simpl flat_map in *. destruct (Ascii.eqb_spec c' star) as [->|Hstar'].
      * simpl app in *. rewrite RegExp_dot, Hre by done. simpl. eauto.
      * simpl app in *. rewrite RegExp_dot, Hre by done. simpl. eauto.
    + rewrite RegExp_lit, Hre by done. simpl. eauto.
Qed.

(** [shouldExclude] can process every such pattern. *)
Lemma plain_usable (pattern : string) : plain pattern -> usable pattern.
Proof.
  intros Hplain _. unfold compiles, replace_star.
  by destruct (replace_star_compiles _ Hplain) as [re ->].
Qed.

Lemma plain_all_usable (patterns : list string) : Forall plain patterns -> Forall usable patterns.
Proof. intros H. eapply Forall_impl; [exact H|]. intros p. apply plain_usable. Qed.

(** X26. For exclude patterns in which no character is special in a
    regular expression but for [*] and [.] (none of [\ ^ $ + ? ( ) [ ] { } |]
    occurs in a pattern), and a tree without an entry of the empty name: when
    the scan returns, a regular file of the project is bundled exactly when
    [shouldExclude] lets its own relative path pass. What excludes a
    directory excludes every path below it, so that nothing else decides. *)
Theorem bundled_iff_not_excluded (root : fsnode) (excludePatterns files : list string) :
  Forall plain excludePatterns ->
  named root ->
  getProjectFiles root excludePatterns = Ok files ->
  forall p,
    p ∈ files <->
    p ∈ fst <$> filesOf "" root /\ shouldExclude p excludePatterns = Ok false.
Proof.
  intros Hplain Hnamed Hfiles p. apply plain_all_usable in Hplain.
  destruct root as [content|entries| |]; [done| |done|done].
  apply getProjectFiles_Ok in Hfiles as (found & Hscan & ->).
  rewrite merge_sort_Permutation. by apply scanEntry_iff.
Qed.

Lemma default_excludes_plain : Forall plain DEFAULT_EXCLUDES.
Proof. apply (bool_decide_unpack _). vm_compute. exact I. Qed.

Lemma bundled_iff_not_excluded_witness :
  "src/index.js" ∈ ["README.md"; "src/index.js"] <->
  "src/index.js" ∈ fst <$> filesOf "" Examples.project1
  /\ shouldExclude "src/index.js" DEFAULT_EXCLUDES = Ok false.
Proof.
  apply (bundled_iff_not_excluded Examples.project1 DEFAULT_EXCLUDES
           ["README.md"; "src/index.js"]).
  - apply default_excludes_plain.
  - vm_compute. repeat split; discriminate.
  - vm_compute. reflexivity.
Defined.

(** *** The order of the bundle *)

Lemma units_leb_trans (a b c : list Z) :
  units_leb a b = true -> units_leb b c = true -> units_leb a c = true.
Proof.
  revert b c. induction a as [|x a IH]; intros [|y b] [|z c]; simpl; try done.
  destruct (Z.ltb_spec x y), (Z.eqb_spec x y), (Z.ltb_spec y z), (Z.eqb_spec y z),
    (Z.ltb_spec x z), (Z.eqb_spec x z); simpl; try done; try lia.
  apply IH.
Qed.

Lemma units_leb_total (a b : list Z) : units_leb a b = true \/ units_leb b a = true.
Proof.
  revert b. induction a as [|x a IH]; intros [|y b]; simpl; auto.
  destruct (Z.ltb_spec x y), (Z.eqb_spec x y), (Z.ltb_spec y x), (Z.eqb_spec y x);
    simpl; auto; try lia.
Qed.

Lemma units_leb_antisym (a b : list Z) :
  units_leb a b = true -> units_leb b a = true -> a = b.
Proof.
  revert b. induction a as [|x a IH]; intros [|y b]; simpl; try done.
  destruct (Z.ltb_spec x y), (Z.eqb_spec x y), (Z.ltb_spec y x), (Z.eqb_spec y x);
    simpl; try done; try lia.
  intros Hab Hba. subst. f_equal. by apply IH.
Qed.

#[local] Instance path_le_trans : Transitive path_le.
Proof. intros a b c. apply units_leb_trans. Qed.

#[local] Instance path_le_total : Total path_le.
Proof. intros a b. apply units_leb_total. Qed.

(** The code units of a name of ASCII characters are its bytes. *)
Lemma code_units_ascii (bytes : list Z) :
  Forall (fun b => b < 128) bytes -> code_units bytes = bytes.
Proof.
  induction 1 as [|b bytes Hb _ IH]; [done|]. simpl.
  destruct (Z.ltb_spec b 128); [|lia]. by rewrite IH.
Qed.

(** X27. The files of a bundle come in the order of [files.sort()]:
    ascending by the UTF-16 code units of their paths. Each path comes once,
    when a path names one file in the project. *)
Theorem bundled_files_are_sorted (root : fsnode) (excludePatterns files : list string) :
  NoDup (fst <$> filesOf "" root) ->
  getProjectFiles root excludePatterns = Ok files ->
  StronglySorted path_le files /\ NoDup files.
Proof.
  intros Hnodup Hfiles. split.
  - apply getProjectFiles_Ok in Hfiles as (found & _ & ->).
    apply StronglySorted_merge_sort; apply _.
  - by destruct (getProjectFiles_files _ _ _ Hnodup Hfiles).
Qed.

Lemma bundled_files_are_sorted_witness :
  StronglySorted path_le ["devshare.yml"; "src/index.js"]
  /\ NoDup ["devshare.yml"; "src/index.js"].
Proof.
  apply (bundled_files_are_sorted Examples.project0 DEFAULT_EXCLUDES).
  - apply (bool_decide_unpack _). vm_compute. exact I.
  - vm_compute. reflexivity.
Defined.

(** The order is not that of the bytes of the paths: a name that starts
    with U+10000 (bytes F0 90 80 80, code units D800 DC00) comes before one
    that starts with U+E000 (bytes EE 80 80, code unit E000). *)
Lemma code_units_are_not_bytes :
  let astral := string_of_list_ascii (map ascii_of_nat [240; 144; 128; 128])%nat in
  let private := string_of_list_ascii (map ascii_of_nat [238; 128; 128])%nat in
  getProjectFiles
    (Directory [ (private, File []); (astral, File []) ]) []
  = Ok [astral; private]
  /\ String.leb private astral = true.
Proof. vm_compute. split; reflexivity. Qed.

Lemma readFile_same (a b : fsnode) (p : string) :
  same_files a b -> readFile a p = readFile b p.
Proof.
  intros (Ha & Hb & Hsame).
  assert (Hto : forall x y c, NoDup (fst <$> filesOf "" y) ->
                  (forall e, e ∈ filesOf "" x -> e ∈ filesOf "" y) ->
                  readFile x p = Ok c -> readFile y p = Ok c).
  { intros x y c Hy Hxy Hread. apply readFile_found; [done|].
    apply Hxy. by apply readFile_Ok. }
  destruct (readFile a p) as [c|e] eqn:Hread.
  - symmetry. apply (Hto a b c Hb); [|done]. intros e. apply Hsame.
  - destruct (readFile b p) as [c|e'] eqn:Hread'.
    + rewrite (Hto b a c Ha) in Hread; [done| |done]. intros e'. apply Hsame.
    + unfold readFile in Hread, Hread'.
      destruct (find _ (filesOf "" a)) as [[? ?]|]; [done|].
      destruct (find _ (filesOf "" b)) as [[? ?]|]; [done|].
      congruence.
Qed.

Lemma NoDup_fmap_inj {A B : Type} (f : A -> B) (l : list A) (x y : A) :
  NoDup (f <$> l) -> x ∈ l -> y ∈ l -> f x = f y -> x = y.
Proof.
  induction l as [|z l IH]; intros Hnodup Hx Hy Heq; [by apply elem_of_nil in Hx|].
  simpl in Hnodup. apply NoDup_cons in Hnodup as [Hz Hnodup].
  apply elem_of_cons in Hx as [->|Hx]; apply elem_of_cons in Hy as [->|Hy]; [done| | |by apply IH].
  - exfalso. apply Hz. rewrite Heq. apply list_elem_of_fmap. by exists y.
  - exfalso. apply Hz. rewrite <- Heq. apply list_elem_of_fmap. by exists x.
Qed.

(** X28. The bundle does not depend on the order in which [readdir] lists
    a directory. Take two project directories that hold the same regular
    files (the same paths with the same content), in which [stat] succeeds on
    every entry, no entry has the empty name and the paths of the files are
    distinct as JavaScript strings, and exclude patterns in which no
    character is special in a regular expression but for [*] and [.]. Then
    [createBundle] gives the same result for both: the same file (which holds
    the SHA-256 digest of the compressed archive) with the same
    [BundleResult], or the same error. *)
Theorem bundle_ignores_listing_order `{R : NodeRuntime}
    (entries entries' : list (string * fsnode)) (manifest : ProjectManifest)
    (excludePatterns : list string) :
  same_files (Directory entries) (Directory entries') ->
  distinct_names (Directory entries) ->
  statted (Directory entries) -> statted (Directory entries') ->
  named (Directory entries) -> named (Directory entries') ->
  Forall plain excludePatterns ->
  createBundle (Directory entries) manifest excludePatterns
  = createBundle (Directory entries') manifest excludePatterns.
Proof.
  intros Hsame Hdistinct Hstat Hstat' Hnamed Hnamed' Hplain.
  apply plain_all_usable in Hplain as Husable.
  assert (Hall : Forall usable (DEFAULT_EXCLUDES ++ excludePatterns))
    by (apply Forall_app; split; [apply default_excludes_usable | done]).
  destruct (scanEntry_returns _ (Directory entries) Hall Hstat "") as [found Hscan].
  destruct (scanEntry_returns _ (Directory entries') Hall Hstat' "") as [found' Hscan'].
  pose proof Hsame as (Hnodup & Hnodup' & Hiff).
  assert (Hpaths : forall p, p ∈ fst <$> filesOf "" (Directory entries)
                             <-> p ∈ fst <$> filesOf "" (Directory entries')).
  { intros p. rewrite !list_elem_of_fmap. split; intros (e & -> & He); exists e;
      (split; [done|]); by apply Hiff. }
  assert (Hperm : found ≡ₚ found').
  { apply NoDup_Permutation.
    - exact (sublist_NoDup _ _ Hnodup (scanEntry_sublist _ _ _ _ Hscan)).
    - exact (sublist_NoDup _ _ Hnodup' (scanEntry_sublist _ _ _ _ Hscan')).
    - intros p. rewrite (scanEntry_iff _ _ _ Hall Hnamed Hscan).
      rewrite (scanEntry_iff _ _ _ Hall Hnamed' Hscan').
      by rewrite Hpaths. }
  assert (Hsorted : merge_sort path_le found = merge_sort path_le found').
  { apply (StronglySorted_unique_strong path_le).
    - intros p q Hp Hq Hpq Hqp. rewrite merge_sort_Permutation in Hp, Hq.
      apply (NoDup_fmap_inj utf16 (fst <$> filesOf "" (Directory entries))); [done| | |].
      + eapply elem_of_sublist; [exact Hp|]. apply (scanEntry_sublist _ _ _ _ Hscan).
      + apply Hpaths. eapply elem_of_sublist; [exact Hq|].
        apply (scanEntry_sublist _ _ _ _ Hscan').
      + by apply units_leb_antisym.
    - apply StronglySorted_merge_sort; apply _.
    - apply StronglySorted_merge_sort; apply _.
    - by rewrite !merge_sort_Permutation. }
  unfold createBundle, getProjectFiles. rewrite Hscan, Hscan'. simpl. rewrite Hsorted.
  unfold createArchive, archiveStream.
  assert (Hrecords : forall files,
             writeFileRecords (Directory entries) files
             = writeFileRecords (Directory entries') files).
  { induction files as [|p files IH]; [done|]. simpl. unfold writeFileRecord.
    by rewrite (readFile_same _ _ p Hsame), IH. }
  by rewrite Hrecords.
Qed.

Import Examples.

Lemma bundle_ignores_listing_order_witness :
  createBundle
    (Directory [ ("src", Directory [ ("index.js", File (Examples.text "console.log(1)")) ]);
                 ("README.md", File (Examples.text "demo")) ])
    Examples.manifest0 []
  = createBundle
      (Directory [ ("README.md", File (Examples.text "demo"));
                   ("src", Directory [ ("index.js", File (Examples.text "console.log(1)")) ]) ])
      Examples.manifest0 [].
Proof.
  apply (bundle_ignores_listing_order (R := Examples.stored)).
  - split; [|split].
    + apply (bool_decide_unpack _). vm_compute. exact I.
    + apply (bool_decide_unpack _). vm_compute. exact I.
    + intros e. cbn. rewrite !elem_of_cons, !elem_of_nil. tauto.
  - apply (bool_decide_unpack _). vm_compute. exact I.
  - vm_compute. tauto.
  - vm_compute. tauto.
  - vm_compute. repeat split; discriminate.
  - vm_compute. repeat split; discriminate.
  - constructor.
Defined.

End ScanFacts.
